(** * NeuralFactorGraph: data-shaping and scoring utilities ([utils.py])

    A shallow embedding of the utilities of [utils.py] and the proofs of
    their contracts:
    - [TrainOrder]: the contiguous batch scheduler [get_train_order];
    - [LengthSort]: the length sort/filter [sortbylength];
    - [Codec]: the frozen tag-set codec [freeze_dict] / [unfreeze_dict];
    - [Bucket]: the bucket batch scheduler [make_bucket_batches];
    - [Scorer]: the F1 scorer [computeF1];
    - [LogSpace]: the log-space kernel [logDot] and [logNormalize];
    - [Accuracy]: the exact-match counter [getCorrectCount];
    - [Vocab]: the vocabulary lookup [prepare_sequence] with [get_var];
    - [LogSum]: [logSumExp] and [logSumExpTensors];
    - [TensorLog]: [logSumExpTensor] and [logNormalizeTensor];
    - [MaxProduct]: the max-product kernel [logMax];
    - [NullLabels]: [addNullLabels];
    - [LangCodes]: the reader [get_lang_code_dicts] of the language codes.

    Python integers are [Z], [len] results are [nat] injected into [Z]
    where the code mixes them with sentinels, Python lists and tuples are
    [list]s, Python dictionaries are insertion-ordered association lists,
    and a Python exception is the [Err] branch of [result]. *)

From Stdlib Require Import String.
From Stdlib Require Import List ZArith Lia Bool Arith Permutation Sorted.
From Stdlib Require Import QArith Reals Lra.
From Stdlib Require Lqa.
Import ListNotations.

(* Rationals and reals are used by the scorer and by the log-space kernel
   only; everywhere else a numeral is a [nat] or, where opened, a [Z]. *)
Close Scope R_scope.
Close Scope Q_scope.

(* ================================================================== *)
(** * Part I: the embedding *)
(* ================================================================== *)

(** ** Python exceptions as an error monad *)

Inductive pyerr : Type :=
| IndexError
| KeyError
| TypeError
| ValueError
| ZeroDivisionError
| RuntimeError.

Inductive result (A : Type) : Type :=
| Ok (a : A)
| Err (e : pyerr).
Arguments Ok {A} a.
Arguments Err {A} e.

Definition bind {A B : Type} (m : result A) (k : A -> result B) : result B :=
  match m with
  | Ok a => k a
  | Err e => Err e
  end.

Notation "x <- m ;; k" := (bind m (fun x => k))
  (at level 61, m at next level, right associativity).

(** [[f x for x in l]] when [f] may raise: the first exception wins. *)
Fixpoint mapM {A B : Type} (f : A -> result B) (l : list A) : result (list B) :=
  match l with
  | [] => Ok []
  | x :: xs => y <- f x ;; ys <- mapM f xs ;; Ok (y :: ys)
  end.

(** [for x in l: s = f(s, x)] when [f] may raise. *)
Fixpoint foldM {A S : Type} (f : S -> A -> result S) (l : list A) (s : S)
  : result S :=
  match l with
  | [] => Ok s
  | x :: xs => s' <- f s x ;; foldM f xs s'
  end.

(** [range(n)] *)
Definition range (n : Z) : list Z := map Z.of_nat (seq 0 (Z.to_nat n)).

(** [l[i]] on a Python list: negative indices count from the end, anything
    out of range raises [IndexError]. *)
Definition py_index {A : Type} (l : list A) (i : Z) : result A :=
  let n := Z.of_nat (length l) in
  let j := if (i <? 0)%Z then (i + n)%Z else i in
  if ((j <? 0) || (n <=? j))%Z then Err IndexError
  else match nth_error l (Z.to_nat j) with
       | Some x => Ok x
       | None => Err IndexError
       end.

(** The integers [s, s+1, ..., s+n-1]. *)
Definition span (s : Z) (n : nat) : list Z :=
  map (fun k => (s + Z.of_nat k)%Z) (seq 0 n).

(** The members of the inclusive range [(s, e)]. *)
Definition range_elems (r : Z * Z) : list Z :=
  span (fst r) (Z.to_nat (snd r - fst r + 1)).

(** ** Python dictionaries

    A [dict] keeps its keys in insertion order and holds a key once: an
    association list, scanned with the equality [eqb] of its keys. *)

Section Dict.

Context {K V : Type}.
Variable eqb : K -> K -> bool.

(** [d.get(k)]; [None] stands for an absent key. *)
Fixpoint dict_get (d : list (K * V)) (k : K) : option V :=
  match d with
  | [] => None
  | (k', v) :: rest => if eqb k' k then Some v else dict_get rest k
  end.

(** [k in d] *)
Definition dict_mem (d : list (K * V)) (k : K) : bool :=
  match dict_get d k with
  | Some _ => true
  | None => false
  end.

(** [d[k] = v]: an existing key keeps its place, a new one goes last. *)
Fixpoint dict_set (d : list (K * V)) (k : K) (v : V) : list (K * V) :=
  match d with
  | [] => [(k, v)]
  | (k', v') :: rest =>
      if eqb k' k then (k', v) :: rest else (k', v') :: dict_set rest k v
  end.

(** [del d[k]] *)
Fixpoint dict_del (d : list (K * V)) (k : K) : result (list (K * V)) :=
  match d with
  | [] => Err KeyError
  | (k', v') :: rest =>
      if eqb k' k then Ok rest
      else rest' <- dict_del rest k ;; Ok ((k', v') :: rest')
  end.

End Dict.

(** ** Frozen tag-set codec *)

Module Codec.

(** The Python values the codec meets: strings, booleans, dictionaries and
    tuples. *)
#[warnings="-register-all"]
Inductive pyobj : Type :=
| PStr (s : string)
| PBool (b : bool)
| PDict (items : list (pyobj * pyobj))
| PTuple (elems : list pyobj).

Definition FROZEN_TAG : string := "__frozen__".

(** The entry [(FROZEN_TAG, True)]. *)
Definition frozen_marker : pyobj := PTuple [PStr FROZEN_TAG; PBool true].

(** [a == b] when one side holds no dictionary (a dictionary is equal to
    dictionaries only); this is the equality of dictionary keys, which are
    hashable, and of [x == (FROZEN_TAG, True)]. *)
Fixpoint py_eqb (a b : pyobj) : bool :=
  match a, b with
  | PStr s, PStr t => String.eqb s t
  | PBool x, PBool y => Bool.eqb x y
  | PTuple xs, PTuple ys =>
      (fix all2 (xs : list pyobj) (ys : list pyobj) : bool :=
         match xs, ys with
         | [], [] => true
         | x :: xs', y :: ys' => py_eqb x y && all2 xs' ys'
         | _, _ => false
         end) xs ys
  | _, _ => false
  end.

(** A dictionary, or a tuple holding one, cannot be a key. *)
Fixpoint hashable (o : pyobj) : bool :=
  match o with
  | PStr _ | PBool _ => true
  | PDict _ => false
  | PTuple elems =>
      (fix all (es : list pyobj) : bool :=
         match es with
         | [] => true
         | e :: es' => hashable e && all es'
         end) elems
  end.

(** [out[k] = v] as [dict(...)] does it. *)
Definition py_setitem (out : list (pyobj * pyobj)) (k v : pyobj)
  : result (list (pyobj * pyobj)) :=
  if hashable k then Ok (dict_set py_eqb out k v) else Err TypeError.

Fixpoint freeze_dict (obj : pyobj) : pyobj :=
  match obj with
  | PDict items =>
      (* the marker entry goes last; its value [True] is not a dictionary
         and is frozen to itself *)
      PTuple (map (fun kv => PTuple [fst kv; freeze_dict (snd kv)]) items
              ++ [PTuple [PStr FROZEN_TAG; PBool true]])
  | _ => obj
  end.

(** [for k, v in obj] on an element that is a string or a dictionary
    iterates over its characters or its keys. *)
Definition char_str (c : Ascii.ascii) : pyobj := PStr (String c EmptyString).

(** One step of [dict((k, unfreeze_dict(v)) for k, v in obj)]: unpack the
    element [e], thaw its value with [unfreeze], store the entry. *)
Definition store_entry (unfreeze : pyobj -> result pyobj)
  (out : list (pyobj * pyobj)) (e : pyobj) : result (list (pyobj * pyobj)) :=
  match e with
  | PTuple [k; v] => v' <- unfreeze v ;; py_setitem out k v'
  | PStr (String c1 (String c2 EmptyString)) =>
      py_setitem out (char_str c1) (char_str c2)
  | PDict [(k1, _); (k2, _)] => v' <- unfreeze k2 ;; py_setitem out k1 v'
  | PBool _ => Err TypeError
  | _ => Err ValueError
  end.

Definition build_dict (unfreeze : pyobj -> result pyobj)
  : list pyobj -> list (pyobj * pyobj) -> result (list (pyobj * pyobj)) :=
  fix build (es : list pyobj) (out : list (pyobj * pyobj)) :=
    match es with
    | [] => Ok out
    | e :: es' => out' <- store_entry unfreeze out e ;; build es' out'
    end.

Fixpoint unfreeze_dict (obj : pyobj) : result pyobj :=
  match obj with
  | PTuple elems =>
      if existsb (fun e => py_eqb e frozen_marker) elems then
        out <- build_dict unfreeze_dict elems [] ;;
        out' <- dict_del py_eqb out (PStr FROZEN_TAG) ;;
        Ok (PDict out')
      else Ok obj
  | _ => Ok obj
  end.

(** The mappings of the round-trip law: every key is a string other than
    the reserved [FROZEN_TAG], no key occurs twice, and every value is a
    string or such a mapping again. *)
Definition plain_key (k : pyobj) : Prop :=
  exists s, k = PStr s /\ s <> FROZEN_TAG.

Definition is_str (o : pyobj) : Prop := exists s, o = PStr s.

Fixpoint tag_mapping (obj : pyobj) : Prop :=
  match obj with
  | PDict items =>
      NoDup (map fst items)
      /\ (fix all (l : list (pyobj * pyobj)) : Prop :=
            match l with
            | [] => True
            | kv :: rest =>
                plain_key (fst kv)
                /\ (is_str (snd kv) \/ tag_mapping (snd kv))
                /\ all rest
            end) items
  | _ => False
  end.

(** The same mappings when [FROZEN_TAG] is allowed as a key. *)
Fixpoint str_mapping (obj : pyobj) : Prop :=
  match obj with
  | PDict items =>
      NoDup (map fst items)
      /\ (fix all (l : list (pyobj * pyobj)) : Prop :=
            match l with
            | [] => True
            | kv :: rest =>
                (exists s, fst kv = PStr s)
                /\ (is_str (snd kv) \/ str_mapping (snd kv))
                /\ all rest
            end) items
  | _ => False
  end.

End Codec.

(** ** Contiguous batch scheduler *)

Module TrainOrder.

Local Open Scope Z_scope.

Record loop_state : Type := mkLoop {
  start_idxs : list Z;
  end_idxs : list Z;
  prev_length : Z;
  batch_counter : Z
}.

(** One iteration of [for i, length in enumerate(lengths, start=startIdx)]. *)
Definition loop_body (batch_size : Z) (st : loop_state) (i length : Z)
  : loop_state :=
  let st1 :=
    if negb (length =? prev_length st) || (batch_size <? batch_counter st)
    then mkLoop (start_idxs st ++ [i])
                (if negb (prev_length st =? -1)
                 then end_idxs st ++ [i - 1] else end_idxs st)
                (prev_length st)
                1
    else st in
  mkLoop (start_idxs st1) (end_idxs st1) length (batch_counter st1 + 1).

Fixpoint enumerate_loop (batch_size : Z) (st : loop_state) (i : Z)
  (lengths : list Z) : loop_state :=
  match lengths with
  | [] => st
  | length :: rest =>
      enumerate_loop batch_size (loop_body batch_size st i length) (i + 1) rest
  end.

Definition initial_state : loop_state := mkLoop [] [] (-1) 0.

(** The body of [get_train_order] after [lengths] has been computed. *)
Definition train_order_of_lengths (lengths : list Z) (batch_size startIdx : Z)
  : list (Z * Z) :=
  let st := enumerate_loop batch_size initial_state startIdx lengths in
  let ends := end_idxs st ++ [startIdx + Z.of_nat (length lengths) - 1] in
  combine (start_idxs st) ends.

Definition src_len {A B : Type} (elem : list A * B) : Z :=
  Z.of_nat (length (fst elem)).

Definition get_train_order {A B : Type} (training_data : list (list A * B))
  (batch_size startIdx : Z) : list (Z * Z) :=
  train_order_of_lengths (map src_len training_data) batch_size startIdx.

(** The source length of the sentence at global index [i]. *)
Definition length_at {A B : Type} (training_data : list (list A * B))
  (startIdx i : Z) : Z :=
  nth (Z.to_nat (i - startIdx)) (map src_len training_data) (-1).

(** [ceil(s / batch_size)] on integers. *)
Definition ceil_div (s b : Z) : Z := (s + b - 1) / b.

(** *** The loop, read from left to right

    [ranges_from] is the list of ranges the loop still has to close when it
    is inside a range that started at [cur], has seen [prev] last and holds
    the counter [c]. *)
Fixpoint ranges_from (batch_size prev c cur i : Z) (lengths : list Z) (fin : Z)
  : list (Z * Z) :=
  match lengths with
  | [] => [(cur, fin)]
  | l :: rest =>
      if negb (l =? prev) || (batch_size <? c)
      then (cur, i - 1) :: ranges_from batch_size l 2 i (i + 1) rest fin
      else ranges_from batch_size l (c + 1) cur (i + 1) rest fin
  end.

(** Every adjacent pair of a list satisfies [P]. *)
Fixpoint adjacent {A : Type} (P : A -> A -> Prop) (l : list A) : Prop :=
  match l with
  | a :: (b :: _) as t => P a b /\ adjacent P t
  | _ => True
  end.

End TrainOrder.

(** ** Length sort and filter *)

Module LengthSort.

Local Open Scope Z_scope.

(** Python's [sorted(l, key=...)] is a stable sort, and a stable sort has
    one possible result (see [LengthSortProofs.stable_sort_unique]), so the
    insertion sort below, which puts an element in front of the elements
    of equal key that followed it in the input, stands for it. *)
Fixpoint insert_by_key {A : Type} (key : A -> Z) (x : A) (l : list A)
  : list A :=
  match l with
  | [] => [x]
  | y :: ys =>
      if key x <=? key y then x :: y :: ys else y :: insert_by_key key x ys
  end.

Fixpoint sorted {A : Type} (key : A -> Z) (l : list A) : list A :=
  match l with
  | [] => []
  | x :: xs => insert_by_key key x (sorted key xs)
  end.

(** The order a sort by [key] establishes. *)
Definition key_le {A : Type} (key : A -> Z) (a b : A) : Prop :=
  key a <= key b.

(** [len(x)] as a Python integer. *)
Definition len {A : Type} (x : list A) : Z := Z.of_nat (length x).

Definition sortbylength {S T L : Type} (data : list (list S * T))
  (lang_ids : list L) (maxlen : Z)
  : result (list (list S * T) * list L) :=
  let src := map fst data in
  let tgt := map snd data in
  let indexed_src := combine (seq 0 (length src)) src in
  let sorted_indexed_src := sorted (fun x => - len (snd x)) indexed_src in
  let sorted_src :=
    map snd (filter (fun item => len (snd item) <? maxlen) sorted_indexed_src) in
  let sort_order :=
    map fst (filter (fun item => len (snd item) <? maxlen) sorted_indexed_src) in
  sorted_tgt <- mapM (fun i => py_index tgt (Z.of_nat i)) sort_order ;;
  sorted_lang_ids <- mapM (fun i => py_index lang_ids (Z.of_nat i)) sort_order ;;
  Ok (combine sorted_src sorted_tgt, sorted_lang_ids).

(** The source length of a sentence, alone or paired with its language. *)
Definition src_length {S T : Type} (e : list S * T) : Z := len (fst e).

Definition short_enough {S T : Type} (maxlen : Z) (e : list S * T) : bool :=
  src_length e <? maxlen.

End LengthSort.

(** ** Bucket batch scheduler *)

Module Bucket.

Local Open Scope Z_scope.

(** [d[k].append(v)] on a [defaultdict(list)]. *)
Definition dd_append {K V : Type} (eqb : K -> K -> bool)
  (d : list (K * list V)) (k : K) (v : V) : list (K * list V) :=
  dict_set eqb d k (match dict_get eqb d k with
                    | Some l => l ++ [v]
                    | None => [v]
                    end).

Section WithRandom.

(** Tokens and feature labels are opaque. *)
Variables T Lbl : Type.

(** The state of the global generator behind [np.random.shuffle], and the
    shuffle itself: it returns the list in its new order and the next
    state. *)
Variable rng : Type.
Variable shuffle : forall A : Type, list A -> rng -> list A * rng.

(** An element of a data tuple: a sequence (the source sentence, its
    characters, its tags) or the integer sentence identifier. *)
Inductive field : Type :=
| Seq (xs : list T)
| Idx (i : Z).

Definition data_item : Type := list field.

(** An element of a batch: one of the [tot_items] columns or the mapping
    of feature labels appended after them. *)
Inductive batch_elem : Type :=
| Column (col : list field)
| TgtTags (tags : list (string * list Lbl)).

Definition batch : Type := list batch_elem.

(** [len(x)] on a field. *)
Definition field_len (f : field) : result nat :=
  match f with
  | Seq xs => Ok (length xs)
  | Idx _ => Err TypeError
  end.

(** A field used as a list index. *)
Definition as_index (f : field) : result Z :=
  match f with
  | Idx i => Ok i
  | Seq _ => Err TypeError
  end.

(** The first loop: [buckets[len(src)].append(data_item)]. *)
Fixpoint fill_buckets (data_collections : list data_item)
  (buckets : list (nat * list data_item))
  : result (list (nat * list data_item)) :=
  match data_collections with
  | [] => Ok buckets
  | data_item :: rest =>
      src <- py_index data_item 0 ;;
      n <- field_len src ;;
      fill_buckets rest (dd_append Nat.eqb buckets n data_item)
  end.

(** [int(np.ceil(len(bucket) * 1.0 / batch_size))], on integers: the
    quotient is exact in floating point for every length below 2^53. *)
Definition num_batches (len_bucket batch_size : Z) : result Z :=
  if batch_size =? 0 then Err ZeroDivisionError
  else Ok (- ((- len_bucket) / batch_size)).

(** The columns of batch [i] of a bucket. *)
Definition batch_columns (bucket : list data_item)
  (batch_size tot_items i num_batches : Z) : result batch :=
  let cur_batch_size :=
    if i <? num_batches - 1 then batch_size
    else Z.of_nat (length bucket) - batch_size * i in
  mapM (fun k =>
          col <- mapM (fun j =>
                         item <- py_index bucket (i * batch_size + j) ;;
                         py_index item k)
                      (range cur_batch_size) ;;
          Ok (Column col))
       (range tot_items).

(** The loops that fill [batch_tgt_tags] from the last column:
    [batch_tgt_tags[feat].append(all_tgt_tags[sent_index])]. *)
Definition add_label (entry : string * list Lbl)
  (tags : list (string * list Lbl)) (sent_index : field)
  : result (list (string * list Lbl)) :=
  i <- as_index sent_index ;;
  label <- py_index (snd entry) i ;;
  Ok (dd_append String.eqb tags (fst entry) label).

(** [for sent_index in batch[-1]: ...] for one feature. At this point the
    batch holds columns only; were its last element a mapping, the loop
    would run over its keys and index the array with a string. *)
Definition add_feature (b : batch) (tags : list (string * list Lbl))
  (entry : string * list Lbl) : result (list (string * list Lbl)) :=
  last <- py_index b (-1) ;;
  match last with
  | Column sent_indices => foldM (add_label entry) sent_indices tags
  | TgtTags [] => Ok tags
  | TgtTags (_ :: _) => Err TypeError
  end.

(** [for feat, all_tgt_tags in feature_wise_tgt_tags.items(): ...] *)
Definition batch_tgt_tags (feature_wise_tgt_tags : list (string * list Lbl))
  (b : batch) : result (list (string * list Lbl)) :=
  foldM (add_feature b) feature_wise_tgt_tags [].

Definition attach_tgt_tags
  (feature_wise_tgt_tags : option (list (string * list Lbl))) (b : batch)
  : result batch :=
  match feature_wise_tgt_tags with
  | None => Ok b
  | Some fwtt =>
      tags <- batch_tgt_tags fwtt b ;;
      Ok (b ++ [TgtTags tags])
  end.

(** The body of [for src_len in buckets]. *)
Definition bucket_batches
  (feature_wise_tgt_tags : option (list (string * list Lbl)))
  (batch_size tot_items : Z) (do_shuffle : bool)
  (st : list batch * rng) (entry : nat * list data_item)
  : result (list batch * rng) :=
  let (bucket, g) :=
    if do_shuffle then shuffle _ (snd entry) (snd st) else (snd entry, snd st) in
  nb <- num_batches (Z.of_nat (length bucket)) batch_size ;;
  new <- mapM (fun i =>
                 b <- batch_columns bucket batch_size tot_items i nb ;;
                 attach_tgt_tags feature_wise_tgt_tags b)
              (range nb) ;;
  Ok (fst st ++ new, g).

Definition make_bucket_batches (data_collections : list data_item)
  (feature_wise_tgt_tags : option (list (string * list Lbl)))
  (batch_size : Z) (do_shuffle : bool) (g : rng)
  : result (list batch * rng) :=
  first <- py_index data_collections 0 ;;
  let tot_items := Z.of_nat (length first) in
  buckets <- fill_buckets data_collections [] ;;
  st <- foldM (bucket_batches feature_wise_tgt_tags batch_size tot_items
                 do_shuffle)
              buckets ([], g) ;;
  Ok (if do_shuffle then shuffle _ (fst st) (snd st) else st).

(** *** Reading a batch *)

(** The members' first elements: column 0. *)
Definition first_column (b : batch) : list field :=
  match b with
  | Column col :: _ => col
  | _ => []
  end.

(** The number of members of a batch. *)
Definition batch_len (b : batch) : nat := length (first_column b).

(** Every member of the batch has source length [n]. *)
Definition same_src_len (n : nat) (b : batch) : Prop :=
  Forall (fun f => field_len f = Ok n) (first_column b).

(** Column [k] of the batch made of [members]. *)
Definition column_of (members : list data_item) (k : nat) : batch_elem :=
  Column (map (fun m => nth k m (Idx 0)) members).

(** The source length of a data tuple is [n]. *)
Definition has_src_len (n : nat) (item : data_item) : Prop :=
  exists xs rest, item = Seq xs :: rest /\ length xs = n.

(** Data tuples as [zip] makes them: all of one arity [tot], the source
    sequence first. *)
Definition uniform_tuples (tot : nat) (data : list data_item) : Prop :=
  Forall (fun item => length item = tot /\ exists n, has_src_len n item) data.

(** A bucket: at least one tuple, all of source length [fst e]. *)
Definition bucket_ok (e : nat * list data_item) : Prop :=
  snd e <> [] /\ Forall (has_src_len (fst e)) (snd e).

(** [ceil(n / batch_size)] on naturals. *)
Definition ceil_div (n batch_size : nat) : nat :=
  ((n + batch_size - 1) / batch_size)%nat.

(** The size of batch [i] out of [nb] of a bucket of [n] tuples, and its
    members: the bucket's tuples from [i * batch_size] on. *)
Definition cur_batch_size (batch_size n nb i : nat) : nat :=
  if (i <? nb - 1)%nat then batch_size else (n - batch_size * i)%nat.

Definition members (batch_size : nat) (bucket : list data_item) (nb i : nat)
  : list data_item :=
  firstn (cur_batch_size batch_size (length bucket) nb i)
         (skipn (i * batch_size) bucket).

(** [v] is the label the array [all_tgt_tags] holds for the sentence
    identifier of [member], the last element of its tuple. *)
Definition label_of (all_tgt_tags : list Lbl) (member : data_item) (v : Lbl)
  : Prop :=
  exists i, last member (Idx 0) = Idx i /\ py_index all_tgt_tags i = Ok v.

(** [tags] sends every feature of [fwtt], in its order, to the labels of
    [members], in their order. *)
Definition tags_of (fwtt : list (string * list Lbl))
  (members : list data_item) (tags : list (string * list Lbl)) : Prop :=
  Forall2 (fun entry tag =>
             fst tag = fst entry
             /\ Forall2 (label_of (snd entry)) members (snd tag))
          fwtt tags.

(** The feature labels, when supplied, are a dictionary that can be read
    at every sentence identifier of the data. *)
Definition labels_available (fwtt : option (list (string * list Lbl)))
  (data : list data_item) : Prop :=
  match fwtt with
  | None => True
  | Some m =>
      NoDup (map fst m)
      /\ Forall (fun member =>
                   Forall (fun entry => exists v, label_of (snd entry) member v)
                          m) data
  end.

(** [b] is the batch made of [members]: the [tot] columns of their
    elements, followed by the feature labels when they are supplied. *)
Definition batch_of (fwtt : option (list (string * list Lbl))) (tot : nat)
  (members : list data_item) (b : batch) : Prop :=
  match fwtt with
  | None => b = map (column_of members) (seq 0 tot)
  | Some m =>
      exists tags,
        b = map (column_of members) (seq 0 tot) ++ [TgtTags tags]
        /\ tags_of m members tags
  end.

End WithRandom.

Arguments Seq {T} xs.
Arguments Idx {T} i.
Arguments Column {T Lbl} col.
Arguments TgtTags {T Lbl} tags.
Arguments field_len {T} f.
Arguments as_index {T} f.
Arguments fill_buckets {T} data_collections buckets.
Arguments batch_columns {T Lbl} bucket batch_size tot_items i num_batches.
Arguments add_label {T Lbl} entry tags sent_index.
Arguments add_feature {T Lbl} b tags entry.
Arguments batch_tgt_tags {T Lbl} feature_wise_tgt_tags b.
Arguments attach_tgt_tags {T Lbl} feature_wise_tgt_tags b.
Arguments bucket_batches {T Lbl rng} shuffle feature_wise_tgt_tags
  batch_size tot_items do_shuffle st entry.
Arguments make_bucket_batches {T Lbl rng} shuffle data_collections
  feature_wise_tgt_tags batch_size do_shuffle g.
Arguments first_column {T Lbl} b.
Arguments batch_len {T Lbl} b.
Arguments same_src_len {T Lbl} n b.
Arguments column_of {T Lbl} members k.
Arguments has_src_len {T} n item.
Arguments uniform_tuples {T} tot data.
Arguments bucket_ok {T} e.
Arguments members {T} batch_size bucket nb i.
Arguments label_of {T Lbl} all_tgt_tags member v.
Arguments tags_of {T Lbl} fwtt members tags.
Arguments labels_available {T Lbl} fwtt data.
Arguments batch_of {T Lbl} fwtt tot members b.

(** A bucket the batch loop can process: it is not empty, its tuples have
    [tot] elements and their feature labels can be read. *)
Definition bucket_ready {T Lbl : Type}
  (fwtt : option (list (string * list Lbl))) (tot : nat)
  (bucket : list (data_item T)) : Prop :=
  bucket <> []
  /\ Forall (fun item => length item = tot) bucket
  /\ labels_available fwtt bucket.

(** [buckets] splits [data] by exact source length: bucket [k] holds the
    tuples of source length [lens[k]], and no length occurs twice. *)
Definition partition_by_length {T : Type} (data : list (data_item T))
  (lens : list nat) (buckets : list (list (data_item T))) : Prop :=
  NoDup lens
  /\ Forall2 (fun n bucket => bucket <> [] /\ Forall (has_src_len n) bucket)
       lens buckets
  /\ Permutation (concat buckets) data.

(** A deterministic stand-in for [np.random.shuffle] in examples: it
    reverses the list and counts its calls. *)
Definition reversing_shuffle (A : Type) (l : list A) (g : nat)
  : list A * nat :=
  (rev l, S g).

(** [bl] lists the batches of [bucket], in the order of [range(num_batches)]. *)
Definition bucket_batches_of {T Lbl : Type}
  (fwtt : option (list (string * list Lbl))) (batch_size tot : nat)
  (bucket : list (data_item T)) (bl : list (batch T Lbl)) : Prop :=
  Forall2 (fun i b =>
             batch_of fwtt tot
               (members batch_size bucket
                  (ceil_div (length bucket) batch_size) i) b)
          (seq 0 (ceil_div (length bucket) batch_size)) bl.

End Bucket.

(** ** Scorer *)

Module Scorer.

Local Open Scope Z_scope.

(** An unfrozen tag-set and a table of counts per tag. *)
Definition word_tags : Type := list (string * string).
Definition counts : Type := list (string * Z).

Definition str_eqb : string -> string -> bool := String.eqb.

(** [sum(d.values())] *)
Definition sum_values (d : counts) : Z :=
  fold_left Z.add (map snd d) 0.

(** [d[k] += 1] *)
Definition increment (d : counts) (k : string) : result counts :=
  match dict_get str_eqb d k with
  | Some n => Ok (dict_set str_eqb d k (n + 1))
  | None => Err KeyError
  end.

(** [enumerate(l, start=0)] *)
Definition enumerate {A : Type} (l : list A) : list (Z * A) :=
  combine (map Z.of_nat (seq 0 (length l))) l.

(** The body of [for k, v in word_tags.items()] in the loops that count
    for precision ([sentinel = "NULL"], [others = golds]) and for recall
    ([sentinel = "_"], [others = hyps]). *)
Definition tally_entry (sentinel : string) (others : list word_tags) (i : Z)
  (st : counts * counts) (kv : string * string) : result (counts * counts) :=
  let (k, v) := kv in
  if str_eqb v sentinel then Ok st
  else
    let (scores, total) :=
      if dict_mem str_eqb (fst st) k then st
      else (dict_set str_eqb (fst st) k 0, dict_set str_eqb (snd st) k 0) in
    other <- py_index others i ;;
    scores <- (if dict_mem str_eqb other k
               then match dict_get str_eqb other k with
                    | Some w => if str_eqb v w then increment scores k
                                else Ok scores
                    | None => Err KeyError
                    end
               else Ok scores) ;;
    total <- increment total k ;;
    Ok (scores, total).

Definition tally (sentinel : string) (xs others : list word_tags)
  : result (counts * counts) :=
  foldM (fun st iw => foldM (tally_entry sentinel others (fst iw)) (snd iw) st)
        (enumerate xs) ([], []).

(** An entry that the loop counts for tag [k]: its key is [k] and its
    value is not the sentinel. *)
Definition counted (sentinel k : string) (kv : string * string) : bool :=
  str_eqb (fst kv) k && negb (str_eqb (snd kv) sentinel).

(** [k in other and v == other[k]] *)
Definition agrees (other : word_tags) (kv : string * string) : bool :=
  match dict_get str_eqb other (fst kv) with
  | Some w => str_eqb (snd kv) w
  | None => false
  end.

(** The number of counted entries for tag [k] in the tag-sets [xs], and
    the number of those that agree with the parallel tag-set of [others]. *)
Fixpoint support (sentinel k : string) (xs : list word_tags) : Z :=
  match xs with
  | [] => 0
  | x :: xs' =>
      Z.of_nat (length (filter (counted sentinel k) x))
      + support sentinel k xs'
  end.

Fixpoint hits (sentinel k : string) (xs others : list word_tags) : Z :=
  match xs, others with
  | x :: xs', o :: others' =>
      Z.of_nat (length (filter (fun kv => counted sentinel k kv && agrees o kv)
                          x))
      + hits sentinel k xs' others'
  | _, _ => 0
  end.

(** The ratio [hits / support] of a tag, where it has support. *)
Definition ratio (sentinel k : string) (xs others : list word_tags)
  : option Q :=
  if support sentinel k xs =? 0 then None
  else Some (inject_Z (hits sentinel k xs others)
             / inject_Z (support sentinel k xs))%Q.

(** The F1 of a tag: the harmonic mean of its precision and recall, and 0
    when the recall is 0 or the tag has no precision. *)
Definition f1_value (precision : option Q) (recall : Q) : Q :=
  match precision with
  | Some p => if Qeq_bool recall 0 then 0%Q
              else (2 * (p * recall) / (p + recall))%Q
  | None => 0%Q
  end.

(** The tables [st = (scores, total)] hold the counts [m] and [c]: a tag
    is present once it has been counted, with its two counts. *)
Definition represents (st : counts * counts) (m c : string -> Z) : Prop :=
  NoDup (map fst (fst st))
  /\ NoDup (map fst (snd st))
  /\ forall k,
       0 <= m k <= c k
       /\ dict_get str_eqb (snd st) k = (if c k =? 0 then None else Some (c k))
       /\ dict_get str_eqb (fst st) k = (if c k =? 0 then None else Some (m k)).

(** [a / b] on integers (true division), exactly. *)
Definition py_div (a b : Z) : result Q :=
  if b =? 0 then Err ZeroDivisionError else Ok (inject_Z a / inject_Z b)%Q.

(** [x / y] on numbers. *)
Definition py_divQ (x y : Q) : result Q :=
  if Qeq_bool y 0 then Err ZeroDivisionError else Ok (x / y)%Q.

(** [for k in scores.keys(): scores[k] = scores[k] / total[k]] *)
Definition per_tag (scores total : counts) : result (list (string * Q)) :=
  mapM (fun ks =>
          match dict_get str_eqb total (fst ks) with
          | Some t => q <- py_div (snd ks) t ;; Ok (fst ks, q)
          | None => Err KeyError
          end) scores.

(** [2 * (p * r) / (p + r)] *)
Definition harmonic (p r : Q) : result Q :=
  py_divQ (2 * (p * r))%Q (p + r)%Q.

(** The F1 of one tag, from its recall and the precision table. *)
Definition tag_f1 (f1_precision_scores : list (string * Q)) (k : string)
  (recall : Q) : result Q :=
  if Qeq_bool recall 0 || negb (dict_mem str_eqb f1_precision_scores k)
  then Ok 0%Q
  else match dict_get str_eqb f1_precision_scores k with
       | Some p => harmonic p recall
       | None => Err KeyError
       end.

Record f1_state : Type := mkF1 {
  f1_recall_scores : list (string * Q);
  f1_scores : list (string * Q);
  f1_average : Q
}.

(** The body of [for k in f1_recall_scores.keys()]. *)
Definition f1_step (f1_precision_scores : list (string * Q))
  (f1_recall_total : counts) (st : f1_state) (ks : string * Z)
  : result f1_state :=
  let k := fst ks in
  match dict_get str_eqb f1_recall_total k with
  | None => Err KeyError
  | Some t =>
      r <- py_div (snd ks) t ;;
      f <- tag_f1 f1_precision_scores k r ;;
      Ok (mkF1 (f1_recall_scores st ++ [(k, r)])
               (dict_set str_eqb (f1_scores st) k f)
               (f1_average st + inject_Z t * f)%Q)
  end.

Definition f1_loop (f1_precision_scores : list (string * Q))
  (recall_scores f1_recall_total : counts) : result f1_state :=
  foldM (f1_step f1_precision_scores f1_recall_total) recall_scores
        (mkF1 [] [] 0%Q).

(** [computeF1(hyps, golds, prefix)] on unfrozen tag-sets, without the
    optional write of the two scores to the result file. *)
Definition computeF1 (hyps golds : list word_tags) : result (Q * Q) :=
  p <- tally "NULL" hyps golds ;;
  f1_micro_precision <- py_div (sum_values (fst p)) (sum_values (snd p)) ;;
  f1_precision_scores <- per_tag (fst p) (snd p) ;;
  r <- tally "_" golds hyps ;;
  f1_micro_recall <- py_div (sum_values (fst r)) (sum_values (snd r)) ;;
  st <- f1_loop f1_precision_scores (fst r) (snd r) ;;
  f1_average <- py_divQ (f1_average st) (inject_Z (sum_values (snd r))) ;;
  f1_micro_score <- py_divQ (2 * (f1_micro_precision * f1_micro_recall))%Q
                            (f1_micro_precision + f1_micro_recall)%Q ;;
  Ok (f1_average, f1_micro_score).

End Scorer.

(** ** Log-space kernel

    Arrays of reals in exact arithmetic: a 2-D array is the list of its
    rows, all of one length. *)

Module LogSpace.

Local Open Scope R_scope.

Definition matrix : Type := list (list R).

(** [a.shape == (n, k)] *)
Definition shape (a : matrix) (n k : nat) : Prop :=
  length a = n /\ Forall (fun row => length row = k) a.

Definition nrows (a : matrix) : nat := length a.

Definition ncols (a : matrix) : nat :=
  match a with
  | [] => 0%nat
  | row :: _ => length row
  end.

(** Column [j] of [a]. *)
Definition col (j : nat) (a : matrix) : list R :=
  map (fun row => nth j row 0) a.

(** [a.transpose()] *)
Definition transpose (a : matrix) : matrix :=
  map (fun j => col j a) (seq 0 (ncols a)).

(** [np.amax(a)]: the maximum of all the entries; a zero-size array has
    none. *)
Definition amax (a : matrix) : result R :=
  match concat a with
  | [] => Err ValueError
  | x :: xs => Ok (fold_left Rmax xs x)
  end.

(** [a - c], [np.exp(a)], [np.log(a)], [a + c], entry by entry. *)
Definition sub_scalar (a : matrix) (c : R) : matrix :=
  map (map (fun x => x - c)) a.

Definition mexp (a : matrix) : matrix := map (map exp) a.

Definition mlog (a : matrix) : matrix := map (map ln) a.

Definition add_scalar (a : matrix) (c : R) : matrix :=
  map (map (fun x => x + c)) a.

(** The sum of the products of the entries of a row and a column. *)
Fixpoint dot_product (r c : list R) : R :=
  match r, c with
  | x :: r', y :: c' => x * y + dot_product r' c'
  | _, _ => 0
  end.

(** The matrix product [a . b]. *)
Definition matmul (a b : matrix) : matrix :=
  map (fun row => map (fun j => dot_product row (col j b)) (seq 0 (ncols b)))
      a.

(** [np.dot(a, b)] on 2-D arrays: the shapes must be aligned. *)
Definition dot (a b : matrix) : result matrix :=
  if (ncols a =? nrows b)%nat then Ok (matmul a b) else Err ValueError.

(** [redAxis == 1] *)
Definition is_one (redAxis : option Z) : bool :=
  match redAxis with
  | Some z => (z =? 1)%Z
  | None => false
  end.

Definition logDot (a b : matrix) (redAxis : option Z) : result matrix :=
  let b := if is_one redAxis then transpose b else b in
  max_a <- amax a ;;
  max_b <- amax b ;;
  C <- dot (mexp (sub_scalar a max_a)) (mexp (sub_scalar b max_b)) ;;
  let C := mlog C in
  let C := add_scalar C (max_a + max_b) in
  Ok (if is_one redAxis then transpose C else C).

(** What the specification says [logDot] computes:
    [log(exp(A) . exp(B))]. *)
Definition log_matmul (a b : matrix) : matrix :=
  mlog (matmul (mexp a) (mexp b)).

(** [np.logaddexp(x, y)] *)
Definition logaddexp (x y : R) : R := ln (exp x + exp y).

(** [np.logaddexp.reduce] along one row. The reduction of no entry is the
    identity of [logaddexp], minus infinity, which is not a real number:
    [None]. *)
Definition logaddexp_reduce (row : list R) : option R :=
  match row with
  | [] => None
  | x :: xs => Some (fold_left logaddexp xs x)
  end.

(** [np.logaddexp.reduce(a, 1)]: one value for every row. *)
Definition reduce_rows (a : matrix) : list (option R) :=
  map logaddexp_reduce a.

(** [x - d] for a real [x]: plus infinity, which is not a real number
    either, when [d] is minus infinity. *)
Definition sub_ext (x : R) (d : option R) : option R :=
  match d with
  | Some r => Some (x - r)
  | None => None
  end.

(** The values of a list when all of them are there. *)
Fixpoint all_some {A : Type} (l : list (option A)) : option (list A) :=
  match l with
  | [] => Some []
  | x :: rest =>
      match x, all_some rest with
      | Some v, Some vs => Some (v :: vs)
      | _, _ => None
      end
  end.

(** [m - denom], [denom] broadcast along the last axis; [None] when an
    entry of the difference is not a real number. *)
Definition sub_broadcast (m : matrix) (denom : list (option R))
  : option matrix :=
  all_some
    (map (fun row =>
            all_some (map (fun p => sub_ext (fst p) (snd p))
                        (combine row denom)))
       m).

(** [m.transpose()] for an array [m] of [c] columns: the list of the rows
    of an array without rows does not tell how many columns it has. *)
Definition transpose_of (c : nat) (m : matrix) : matrix :=
  map (fun j => col j m) (seq 0 c).

(** [logNormalize(a)]. The array [a.transpose() - denom] has one column
    for every row of [a]; for an array [a] with rows and no column it has
    no entry, and the result is [a] again. *)
Definition logNormalize (a : matrix) : option matrix :=
  let denom := reduce_rows a in
  match sub_broadcast (transpose a) denom with
  | Some d => Some (transpose_of (nrows a) d)
  | None => None
  end.

(** The sum of a list, and the log-sum-exp of a row. *)
Definition sum (l : list R) : R := fold_right Rplus 0 l.

Definition logsumexp (row : list R) : R := ln (sum (map exp row)).

End LogSpace.

(** ** Exact-match counter *)

Module Accuracy.

Import Scorer.
Local Open Scope Z_scope.

(** The loop [for k, v in word_tags.items()] of [getCorrectCount] with its
    [break]: the value of [allCorrect] when the loop is left. *)
Fixpoint all_correct (hyps : list word_tags) (i : Z)
  (items : list (string * string)) : result bool :=
  match items with
  | [] => Ok true
  | (k, v) :: rest =>
      hyp <- py_index hyps i ;;
      if dict_mem str_eqb hyp k then
        hyp' <- py_index hyps i ;;
        match dict_get str_eqb hyp' k with
        | Some w =>
            if negb (str_eqb v w) then Ok false
            else all_correct hyps i rest
        | None => Err KeyError
        end
      else all_correct hyps i rest
  end.

Definition getCorrectCount (golds hyps : list word_tags) : result Z :=
  foldM (fun correct iw =>
           allCorrect <- all_correct hyps (fst iw) (snd iw) ;;
           Ok (if allCorrect then correct + 1 else correct))
        (enumerate golds) 0.

(** The entry [kv] of one tag-set is contradicted by [other]: its key is
    there with another value. *)
Definition contradicts (other : word_tags) (kv : string * string) : bool :=
  match dict_get str_eqb other (fst kv) with
  | Some w => negb (str_eqb (snd kv) w)
  | None => false
  end.

(** No entry of [gold] is contradicted by [hyp]. *)
Definition compatible (gold hyp : word_tags) : bool :=
  negb (existsb (contradicts hyp) gold).

(** The number of leading pairs of [golds] and [hyps] that are
    compatible. *)
Definition compatible_pairs (golds hyps : list word_tags) : Z :=
  Z.of_nat (length (filter (fun p => compatible (fst p) (snd p))
                      (combine golds hyps))).

(** A tag-set is a dictionary: no key twice. *)
Definition is_dict (w : word_tags) : Prop := NoDup (map fst w).

End Accuracy.

(** ** Vocabulary lookup *)

Module Vocab.

Local Open Scope Z_scope.

(** [to_ix] is a dictionary from words to indices or a list of words. *)
Inductive vocabulary : Type :=
| Mapping (d : list (string * Z))
| Listing (l : list string).

(** A [torch.LongTensor], of signed 64-bit integers, and the device that
    holds it. *)
Inductive device : Type :=
| Cpu
| Cuda.

Record tensor : Type := mkTensor {
  device_of : device;
  values : list Z
}.

(** [x.cuda()] *)
Definition cuda (x : tensor) : tensor := mkTensor Cuda (values x).

Definition get_var (x : tensor) (gpu : bool) : tensor :=
  if gpu then cuda x else x.

(** [d[k]] *)
Definition getitem (d : list (string * Z)) (k : string) : result Z :=
  match dict_get String.eqb d k with
  | Some v => Ok v
  | None => Err KeyError
  end.

(** [w in l] and [l.index(w)] on a list: the first position that holds
    [w]. *)
Definition contains (l : list string) (w : string) : bool :=
  existsb (fun x => String.eqb x w) l.

Fixpoint index (l : list string) (w : string) : result Z :=
  match l with
  | [] => Err ValueError
  | x :: xs => if String.eqb x w then Ok 0 else i <- index xs w ;; Ok (i + 1)
  end.

(** The range of a signed 64-bit integer. *)
Definition int64 (i : Z) : bool :=
  (- 2 ^ 63 <=? i) && (i <? 2 ^ 63).

(** [torch.LongTensor(idxs)] on a list of Python integers: torch raises
    [RuntimeError] on an integer that does not fit in 64 bits. *)
Definition LongTensor (idxs : list Z) : result tensor :=
  if forallb int64 idxs then Ok (mkTensor Cpu idxs) else Err RuntimeError.

(** The positions of a Python list are below its length, itself below
    [2 ^ 63]: the tensor of positions is built without the test of the
    range, which only a value of a dictionary can fail. *)
Definition prepare_sequence (seq : list string) (to_ix : vocabulary)
  (gpu : bool) : result tensor :=
  match to_ix with
  | Mapping d =>
      idxs <- mapM (fun w => if dict_mem String.eqb d w then getitem d w
                             else getitem d "UNK") seq ;;
      tensor <- LongTensor idxs ;;
      Ok (get_var tensor gpu)
  | Listing l =>
      idxs <- mapM (fun w => if contains l w then index l w
                             else index l "UNK") seq ;;
      Ok (get_var (mkTensor Cpu idxs) gpu)
  end.

(** The word an index stands for: the word itself when the vocabulary
    knows it, ["UNK"] otherwise. *)
Definition known (to_ix : vocabulary) (w : string) : bool :=
  match to_ix with
  | Mapping d => dict_mem String.eqb d w
  | Listing l => contains l w
  end.

Definition word_or_unk (to_ix : vocabulary) (w : string) : string :=
  if known to_ix w then w else "UNK"%string.

(** The device [get_var] leaves a CPU tensor on. *)
Definition target (gpu : bool) : device := if gpu then Cuda else Cpu.

End Vocab.

(** ** Log-sum-exp of two numbers *)

Module LogSum.

Local Open Scope R_scope.

(** [logSumExp(a, b)] on numbers; on arrays of one shape numpy applies the
    same operations entry by entry. *)
Definition logSumExp (a b : R) : R :=
  let maxi := Rmax a b in
  let aexp := a - maxi in
  let bexp := b - maxi in
  let sumOfExp := exp aexp + exp bexp in
  maxi + ln sumOfExp.

(** [logSumExpTensors(a, b)]: the same body on torch tensors. *)
Definition logSumExpTensors (a b : R) : R :=
  let maxi := Rmax a b in
  let aexp := a - maxi in
  let bexp := b - maxi in
  let sumOfExp := exp aexp + exp bexp in
  maxi + ln sumOfExp.

End LogSum.

(** ** Log-space normalisation of torch tensors

    A call that makes torch raise has the result [None]. *)

Module TensorLog.

Import LogSpace.
Local Open Scope R_scope.

(** A torch tensor of two or of three dimensions, in exact arithmetic:
    the list of its slices along the first dimension. *)
Inductive tensor : Type :=
| Dim2 (rows : list (list R))
| Dim3 (slices : list (list (list R))).

(** [vec.view(batch_size, -1)] with [batch_size = vec.size()[0]]: every
    slice is flattened to one row. torch refuses to infer the [-1] when
    the batch is empty. *)
Definition view_rows (vec : tensor) : option matrix :=
  let rows := match vec with
              | Dim2 rows => rows
              | Dim3 slices => map (@concat R) slices
              end in
  match rows with
  | [] => None
  | _ :: _ => Some rows
  end.

(** [torch.max(vec, 1)[0]]: the maximum of every row; a row without
    entries has none and torch raises. *)
Definition row_max (row : list R) : option R :=
  match row with
  | [] => None
  | x :: xs => Some (fold_left Rmax xs x)
  end.

Fixpoint max_rows (vec : matrix) : option (list R) :=
  match vec with
  | [] => Some []
  | row :: rest =>
      match row_max row, max_rows rest with
      | Some m, Some ms => Some (m :: ms)
      | _, _ => None
      end
  end.

(** An operation applied entry by entry to two arrays of one shape. *)
Definition zip_with {A B C : Type} (f : A -> B -> C) (l1 : list A)
  (l2 : list B) : list C :=
  map (fun p => f (fst p) (snd p)) (combine l1 l2).

(** [v.view(-1, 1).expand(-1, k)]: row [i] repeats [v[i]]. *)
Definition expand_cols (v : list R) (k : nat) : matrix :=
  map (fun x => repeat x k) v.

(** [v.view(n, 1, 1).expand(-1, s1, s2)] *)
Definition expand_slices (v : list R) (s1 s2 : nat) : list matrix :=
  map (fun x => repeat (repeat x s2) s1) v.

Definition logSumExpTensor (vec : tensor) : option (list R) :=
  match view_rows vec with
  | None => None
  | Some vec =>
      match max_rows vec with
      | None => None
      | Some max_score =>
          let max_score_broadcast := expand_cols max_score (ncols vec) in
          Some (zip_with Rplus max_score
                  (map ln
                     (map sum
                        (map (map exp)
                           (zip_with (zip_with Rminus) vec
                              max_score_broadcast)))))
      end
  end.

Definition logNormalizeTensor (a : tensor) : option tensor :=
  match logSumExpTensor a with
  | None => None
  | Some denom =>
      match a with
      | Dim2 rows =>
          let denom := expand_cols denom (ncols rows) in
          Some (Dim2 (zip_with (zip_with Rminus) rows denom))
      | Dim3 slices =>
          let denom :=
            expand_slices denom (nrows (hd [] slices))
              (ncols (hd [] slices)) in
          Some (Dim3 (zip_with (zip_with (zip_with Rminus)) slices denom))
      end
  end.

(** [a.size() == (n, s1, s2)] *)
Definition shape3 (a : list matrix) (n s1 s2 : nat) : Prop :=
  length a = n /\ Forall (fun slice => shape slice s1 s2) a.

End TensorLog.

(** ** Log-space max-product kernel *)

Module MaxProduct.

Import LogSpace.
Local Open Scope R_scope.

(** The length two axes are broadcast to: equal lengths, or one of them
    1; anything else is a [ValueError]. *)
Definition broadcast_len (k k' : nat) : result nat :=
  if (k =? k')%nat then Ok k
  else if (k =? 1)%nat then Ok k'
  else if (k' =? 1)%nat then Ok k
  else Err ValueError.

(** The position read on an axis of length [size] for the index [l] of
    the broadcast axis: an axis of length 1 is repeated. *)
Definition pick (size l : nat) : nat :=
  if (size =? 1)%nat then 0%nat else l.

(** [a[:, :, None] * b[None, :, :]]: entry [(i, l, j)] is [a[i][l] * b[l][j]],
    the axis of [l] being broadcast. The result is the list over [i] of
    its slices. *)
Definition outer_product (a b : matrix) : result (list matrix) :=
  K <- broadcast_len (ncols a) (nrows b) ;;
  Ok (map (fun row =>
             map (fun l =>
                    map (fun y => nth (pick (ncols a) l) row 0 * y)
                        (nth (pick (nrows b) l) b []))
                 (seq 0 K))
          a).

(** The maximum of a list; [np.max] raises on a zero-size reduction. *)
Definition list_max (l : list R) : result R :=
  match l with
  | [] => Err ValueError
  | x :: xs => Ok (fold_left Rmax xs x)
  end.

(** [np.max(P, axis=1)] on the slices [P], each with [m] columns. *)
Definition max_axis1 (m : nat) (P : list matrix) : result matrix :=
  mapM (fun slice => mapM (fun j => list_max (col j slice)) (seq 0 m)) P.

Definition logMax (a b : matrix) (redAxis : option Z) : result matrix :=
  let b := if is_one redAxis then transpose b else b in
  max_a <- amax a ;;
  max_b <- amax b ;;
  P <- outer_product (mexp (sub_scalar a max_a)) (mexp (sub_scalar b max_b)) ;;
  C <- max_axis1 (ncols b) P ;;
  let C := mlog C in
  let C := add_scalar C (max_a + max_b) in
  Ok (if is_one redAxis then transpose C else C).

(** The largest entry of a list that has one. *)
Definition maxl (l : list R) : R :=
  match l with
  | [] => 0
  | x :: xs => fold_left Rmax xs x
  end.

(** The max-plus product: entry [(i, j)] is the largest [a[i][l] + b[l][j]]. *)
Definition max_plus (a b : matrix) : matrix :=
  map (fun row =>
         map (fun j =>
                maxl (map (fun p => fst p + snd p) (combine row (col j b))))
             (seq 0 (ncols b)))
      a.

End MaxProduct.

(** ** Null labels for absent tags *)

Module NullLabels.

Import Codec.

(** [sub in s] on strings: [sub] occurs in [s]. *)
Fixpoint occurs_in (sub s : string) : bool :=
  String.prefix sub s
  || match s with
     | EmptyString => false
     | String _ s' => occurs_in sub s'
     end.

(** [name not in tag_dict]: a key of a dictionary, an element of a tuple,
    a part of a string; a boolean is not a container. *)
Definition not_in (tag_dict : pyobj) (name : string) : result bool :=
  match tag_dict with
  | PDict items => Ok (negb (dict_mem py_eqb items (PStr name)))
  | PTuple elems => Ok (negb (existsb (fun e => py_eqb e (PStr name)) elems))
  | PStr s => Ok (negb (occurs_in name s))
  | PBool _ => Err TypeError
  end.

(** [tag_dict[name] = "NULL"]: only a dictionary takes an item. *)
Definition set_null (tag_dict : pyobj) (name : string) : result pyobj :=
  match tag_dict with
  | PDict items => Ok (PDict (dict_set py_eqb items (PStr name) (PStr "NULL")))
  | _ => Err TypeError
  end.

(** The body of [for tag in unique_tags], [name] being [tag.name]. *)
Definition add_missing (tag_dict : pyobj) (name : string) : result pyobj :=
  missing <- not_in tag_dict name ;;
  if missing then set_null tag_dict name else Ok tag_dict.

(** The body of [for tags in m]: the element appended to [new_tags].
    [unique_tags] is the list of the names of the tags the iteration over
    the tag collection yields. *)
Definition null_tags (unique_tags : list string) (tags : pyobj)
  : result pyobj :=
  tag_dict <- unfreeze_dict tags ;;
  tag_dict <- foldM add_missing unique_tags tag_dict ;;
  Ok (freeze_dict tag_dict).

Section Sentences.

(** The words of a sentence are not looked at. *)
Variable W : Type.

Definition sentence : Type := W * list pyobj.

(** The body of [for w, m in annot_sents[lang]]: the pair written back to
    [annot_sents[lang][i]]. *)
Definition null_sentence (unique_tags : list string) (wm : sentence)
  : result sentence :=
  new_tags <- mapM (null_tags unique_tags) (snd wm) ;;
  Ok (fst wm, new_tags).

(** The body of [for lang in langs]; every sentence of the language is
    replaced in place. When a sentence raises, the exception is the
    result: the sentences replaced before it in the caller's dictionary
    are not kept track of. *)
Definition null_language (unique_tags : list string)
  (annot_sents : list (string * list sentence)) (lang : string)
  : result (list (string * list sentence)) :=
  match dict_get String.eqb annot_sents lang with
  | None => Err KeyError
  | Some sents =>
      sents' <- mapM (null_sentence unique_tags) sents ;;
      Ok (dict_set String.eqb annot_sents lang sents')
  end.

Definition addNullLabels (annot_sents : list (string * list sentence))
  (langs : list string) (unique_tags : list string)
  : result (list (string * list sentence)) :=
  foldM (null_language unique_tags) langs annot_sents.

(** [tags'] is the frozen tag-set [tags] with an entry ["NULL"] appended
    for every tag of [names] it lacked, so that it has all of them. *)
Definition completes (names : list string) (tags tags' : pyobj) : Prop :=
  exists items extra,
    tags = freeze_dict (PDict items)
    /\ tags' = freeze_dict (PDict (items ++ extra))
    /\ tag_mapping (PDict (items ++ extra))
    /\ Forall (fun kv => snd kv = PStr "NULL"
                         /\ exists n, In n names /\ fst kv = PStr n) extra
    /\ Forall (fun n => dict_mem py_eqb (items ++ extra) (PStr n) = true)
              names.

(** The same sentence, its tag-sets completed. *)
Definition completed (names : list string) (s s' : sentence) : Prop :=
  fst s' = fst s /\ Forall2 (completes names) (snd s) (snd s').

(** The annotations [cur] once the languages [processed] have been dealt
    with: their sentences are completed, the others are as in [annot]. *)
Definition after (names processed : list string)
  (annot cur : list (string * list sentence)) : Prop :=
  Forall2 (fun e e' =>
             fst e' = fst e
             /\ (In (fst e) processed ->
                 Forall2 (completed names) (snd e) (snd e'))
             /\ (~ In (fst e) processed -> snd e' = snd e))
          annot cur.

(** A frozen tag-set as the reader builds it. *)
Definition frozen_tags (tags : pyobj) : Prop :=
  exists items, tags = freeze_dict (PDict items) /\ tag_mapping (PDict items).

End Sentences.

Arguments null_sentence {W} unique_tags wm.
Arguments null_language {W} unique_tags annot_sents lang.
Arguments addNullLabels {W} annot_sents langs unique_tags.
Arguments completed {W} names s s'.
Arguments after {W} names processed annot cur.

End NullLabels.

(** ** Scorer: totals over all the tags *)

Module ScorerTotals.

Import Scorer.
Local Open Scope Z_scope.

(** An entry the loops count, whatever its tag: its value is not the
    sentinel. *)
Definition scored (sentinel : string) (kv : string * string) : bool :=
  negb (str_eqb (snd kv) sentinel).

(** The number of counted entries of the tag-sets [xs], and the number of
    those that agree with the parallel tag-set of [others]. *)
Fixpoint total_support (sentinel : string) (xs : list word_tags) : Z :=
  match xs with
  | [] => 0
  | x :: xs' =>
      Z.of_nat (length (filter (scored sentinel) x))
      + total_support sentinel xs'
  end.

Fixpoint total_hits (sentinel : string) (xs others : list word_tags) : Z :=
  match xs, others with
  | x :: xs', o :: others' =>
      Z.of_nat (length (filter (fun kv => scored sentinel kv && agrees o kv)
                          x))
      + total_hits sentinel xs' others'
  | _, _ => 0
  end.

(** The F1 of tag [k]: [f1_value] of its precision and its recall. *)
Definition tag_score (hyps golds : list word_tags) (k : string) : Q :=
  f1_value (ratio "NULL" k hyps golds)
           (inject_Z (hits "_" k golds hyps)
            / inject_Z (support "_" k golds))%Q.

(** The sum, over [tags], of the F1 of a tag weighted by the number of
    gold entries of the tag. *)
Definition weighted_f1 (hyps golds : list word_tags) (tags : list string)
  : Q :=
  fold_left (fun acc k =>
               (acc + inject_Z (support "_" k golds)
                      * tag_score hyps golds k)%Q)
            tags 0%Q.

End ScorerTotals.

(** ** Frozen tag-set codec: the reserved key *)

Module CodecReserved.

Import Codec.

(** The mapping without its entries under [FROZEN_TAG], at every level. *)
Fixpoint strip_reserved (obj : pyobj) : pyobj :=
  match obj with
  | PDict items =>
      PDict (filter (fun kv => negb (py_eqb (fst kv) (PStr FROZEN_TAG)))
               (map (fun kv => (fst kv, strip_reserved (snd kv))) items))
  | _ => obj
  end.

End CodecReserved.

(** ** Bucket batch scheduler: reading the tuples back *)

Module BucketRows.

Import Bucket.

(** The tuples of a batch read back from its first [tot] elements, the
    columns: tuple [j] takes entry [j] of every column. *)
Definition batch_rows {T Lbl : Type} (tot : nat) (b : batch T Lbl)
  : list (data_item T) :=
  map (fun j =>
         map (fun k =>
                match nth k b (Column []) with
                | Column col => nth j col (Idx 0)
                | TgtTags _ => Idx 0
                end)
             (seq 0 tot))
      (seq 0 (batch_len b)).

End BucketRows.

(** ** Language names and codes *)

Module LangCodes.

(** The characters of a Python 3 [str], for code points below 256. *)
Definition char : Type := Ascii.ascii.

(** [str.isspace] on such a character. *)
Definition is_space (c : char) : bool :=
  let n := Ascii.nat_of_ascii c in
  ((9 <=? n) && (n <=? 13)) || ((28 <=? n) && (n <=? 32))
  || (n =? 133) || (n =? 160).

(** [s.split(sep)] for a separator of one character. *)
Fixpoint split_on (sep : char) (s : string) : list string :=
  match s with
  | EmptyString => [EmptyString]
  | String c s' =>
      if Ascii.eqb c sep then EmptyString :: split_on sep s'
      else match split_on sep s' with
           | cur :: rest => String c cur :: rest
           | [] => [String c EmptyString]
           end
  end.

(** [s.split()]: the fields between runs of whitespace. *)
Fixpoint split (s : string) : list string :=
  match s with
  | EmptyString => []
  | String c s' =>
      if is_space c then split s'
      else match s' with
           | EmptyString => [String c EmptyString]
           | String c' _ =>
               if is_space c' then String c EmptyString :: split s'
               else match split s' with
                    | cur :: rest => String c cur :: rest
                    | [] => [String c EmptyString]
                    end
           end
  end.

(** The characters of the class [[,'']]: the comma and the apostrophe. *)
Definition bad_char (c : char) : bool :=
  Ascii.eqb c (Ascii.ascii_of_nat 44) || Ascii.eqb c (Ascii.ascii_of_nat 39).

(** [rgx.sub("", s)] *)
Fixpoint rgx_sub (s : string) : string :=
  match s with
  | EmptyString => EmptyString
  | String c s' => if bad_char c then rgx_sub s' else String c (rgx_sub s')
  end.

(** [l[:-2]] *)
Definition but_last_two {A : Type} (l : list A) : list A :=
  firstn (length l - 2) l.

(** The body of [for line in split_line[:-2]]. *)
Definition add_line (lang_to_code : list (string * string))
  (line : list string) : result (list (string * string)) :=
  field0 <- py_index line 0 ;;
  let lang := rgx_sub field0 in
  field2 <- py_index line 2 ;;
  let code := rgx_sub field2 in
  Ok (dict_set String.eqb lang_to_code lang code).

(** [{v: k for k, v in d.items()}] *)
Definition invert (d : list (string * string)) : list (string * string) :=
  fold_left (fun out kv => dict_set String.eqb out (snd kv) (fst kv)) d [].

(** [get_lang_code_dicts()], [data] being what [f.read()] returns for
    the file of the language codes. *)
Definition get_lang_code_dicts (data : string)
  : result (list (string * string) * list (string * string)) :=
  let lines := split_on (Ascii.ascii_of_nat 10) data in
  let split_line := map split lines in
  lang_to_code <- foldM add_line (but_last_two split_line) [] ;;
  let code_to_lang := invert lang_to_code in
  Ok (lang_to_code, code_to_lang).

(** No comma and no apostrophe. *)
Fixpoint clean (s : string) : Prop :=
  match s with
  | EmptyString => True
  | String c s' => bad_char c = false /\ clean s'
  end.

End LangCodes.

(* ================================================================== *)
(** * Part II: properties *)
(* ================================================================== *)

(** ** Dictionaries: facts *)

Module DictFacts.

Section Facts.

Context {K V : Type}.
Variable eqb : K -> K -> bool.
Hypothesis eqb_eq : forall a b, eqb a b = true <-> a = b.

Lemma eqb_refl : forall a, eqb a a = true.
Proof. intros a. apply eqb_eq. reflexivity. Qed.

Lemma eqb_neq : forall a b, eqb a b = false <-> a <> b.
Proof.
  intros a b. split.
  - intros H Heq. apply eqb_eq in Heq. congruence.
  - intros H. destruct (eqb a b) eqn:E; [|reflexivity].
    apply eqb_eq in E. contradiction.
Qed.

Lemma dict_get_set :
  forall (d : list (K * V)) k v k',
    dict_get eqb (dict_set eqb d k v) k' =
    if eqb k k' then Some v else dict_get eqb d k'.
Proof.
  intros d k v k'; induction d as [|[k0 v0] d IH]; simpl.
  - reflexivity.
  - destruct (eqb k0 k) eqn:E0; simpl.
    + apply eqb_eq in E0. subst k0.
      destruct (eqb k k'); reflexivity.
    + destruct (eqb k0 k') eqn:E1.
      * apply eqb_eq in E1. subst k0.
        destruct (eqb k k') eqn:E2; [|reflexivity].
        apply eqb_eq in E2. subst k'. rewrite eqb_refl in E0. discriminate.
      * exact IH.
Qed.

Lemma dict_get_notin :
  forall (d : list (K * V)) k,
    dict_get eqb d k = None <-> ~ In k (map fst d).
Proof.
  intros d k; induction d as [|[k0 v0] d IH]; simpl.
  - tauto.
  - destruct (eqb k0 k) eqn:E.
    + apply eqb_eq in E. split; [discriminate|]. intros H. exfalso. auto.
    + apply eqb_neq in E. rewrite IH. tauto.
Qed.

Lemma dict_get_app :
  forall (d e : list (K * V)) k,
    dict_get eqb (d ++ e) k =
    match dict_get eqb d k with
    | Some v => Some v
    | None => dict_get eqb e k
    end.
Proof.
  intros d e k; induction d as [|[k0 v0] d IH]; simpl.
  - reflexivity.
  - destruct (eqb k0 k); [reflexivity|exact IH].
Qed.

Lemma dict_set_keys :
  forall (d : list (K * V)) k v,
    map fst (dict_set eqb d k v) =
    if dict_mem eqb d k then map fst d else map fst d ++ [k].
Proof.
  intros d k v. unfold dict_mem.
  induction d as [|[k0 v0] d IH]; simpl.
  - reflexivity.
  - destruct (eqb k0 k) eqn:E; simpl; [reflexivity|].
    rewrite IH. destruct (dict_get eqb d k); reflexivity.
Qed.

Lemma dict_set_NoDup :
  forall (d : list (K * V)) k v,
    NoDup (map fst d) -> NoDup (map fst (dict_set eqb d k v)).
Proof.
  intros d k v Hnd. rewrite dict_set_keys. unfold dict_mem.
  destruct (dict_get eqb d k) eqn:E; [exact Hnd|].
  apply dict_get_notin in E.
  apply Permutation_NoDup with (l := k :: map fst d).
  - apply Permutation_cons_append.
  - constructor; assumption.
Qed.

Lemma dict_get_in :
  forall (d : list (K * V)) k v,
    NoDup (map fst d) -> In (k, v) d -> dict_get eqb d k = Some v.
Proof.
  intros d k v; induction d as [|[k0 v0] d IH]; intros Hnd Hin; simpl.
  - contradiction.
  - inversion Hnd as [|? ? Hnin Hnd']; subst.
    destruct Hin as [Heq|Hin].
    + injection Heq as -> ->. rewrite eqb_refl. reflexivity.
    + destruct (eqb k0 k) eqn:E.
      * apply eqb_eq in E. subst k0. exfalso. apply Hnin.
        apply (in_map fst) in Hin. exact Hin.
      * apply IH; assumption.
Qed.

Lemma dict_get_map_values :
  forall (W : Type) (f : K -> V -> W) (d : list (K * V)) k,
    dict_get eqb (map (fun kv => (fst kv, f (fst kv) (snd kv))) d) k =
    option_map (f k) (dict_get eqb d k).
Proof.
  intros W f d k; induction d as [|[k0 v0] d IH]; simpl.
  - reflexivity.
  - destruct (eqb k0 k) eqn:E; [|exact IH].
    apply eqb_eq in E. subst k0. reflexivity.
Qed.

End Facts.

Lemma dict_set_fresh :
  forall (K V : Type) (eqb : K -> K -> bool) (d : list (K * V)) (k : K) (v : V),
    Forall (fun kv => eqb (fst kv) k = false) d ->
    dict_set eqb d k v = d ++ [(k, v)].
Proof.
  intros K V eqb d k v H; induction H as [|[k' v'] d Hk _ IH]; simpl.
  - reflexivity.
  - simpl in Hk. rewrite Hk, IH. reflexivity.
Qed.

Lemma dict_del_last :
  forall (K V : Type) (eqb : K -> K -> bool) (d : list (K * V)) (k : K) (v : V),
    eqb k k = true ->
    Forall (fun kv => eqb (fst kv) k = false) d ->
    dict_del eqb (d ++ [(k, v)]) k = Ok d.
Proof.
  intros K V eqb d k v Hrefl H; induction H as [|[k' v'] d Hk _ IH]; simpl.
  - rewrite Hrefl. reflexivity.
  - simpl in Hk. rewrite Hk, IH. reflexivity.
Qed.

End DictFacts.

(** ** The error monad and list indexing *)

Module PyFacts.

Local Open Scope Z_scope.

Lemma mapM_map_ok :
  forall (A B C : Type) (f : B -> result C) (g : A -> B) (h : A -> C)
         (l : list A),
    (forall a, In a l -> f (g a) = Ok (h a)) ->
    mapM f (map g l) = Ok (map h l).
Proof.
  intros A B C f g h l; induction l as [|x xs IH]; intros Hok; simpl.
  - reflexivity.
  - rewrite (Hok x) by (left; reflexivity). simpl.
    rewrite IH by (intros a Ha; apply Hok; right; assumption).
    reflexivity.
Qed.

Lemma py_index_nth_error :
  forall (A : Type) (l : list A) (i : nat) (x : A),
    nth_error l i = Some x -> py_index l (Z.of_nat i) = Ok x.
Proof.
  intros A l i x Hnth. unfold py_index.
  assert (Hlt : (i < length l)%nat)
    by (apply nth_error_Some; congruence).
  destruct (Z.of_nat i <? 0) eqn:Hneg; [apply Z.ltb_lt in Hneg; lia|].
  destruct (Z.of_nat i <? 0) eqn:Hneg'; [discriminate|].
  destruct (Z.of_nat (length l) <=? Z.of_nat i) eqn:Hge;
    [apply Z.leb_le in Hge; lia|].
  simpl. rewrite Nat2Z.id, Hnth. reflexivity.
Qed.

Lemma py_index_nth :
  forall (A : Type) (l : list A) (i : nat) (d : A),
    (i < length l)%nat -> py_index l (Z.of_nat i) = Ok (nth i l d).
Proof.
  intros A l i d Hlt. apply py_index_nth_error.
  apply nth_error_nth'. exact Hlt.
Qed.

Lemma py_index_last :
  forall (A : Type) (l : list A) (d : A),
    l <> [] -> py_index l (-1) = Ok (last l d).
Proof.
  intros A l d Hne.
  destruct (exists_last Hne) as [l' [x ->]].
  rewrite last_last. unfold py_index.
  rewrite length_app. simpl length.
  change (-1 <? 0) with true. cbv iota.
  destruct (-1 + Z.of_nat (length l' + 1) <? 0) eqn:H1;
    [apply Z.ltb_lt in H1; lia|].
  destruct (Z.of_nat (length l' + 1) <=? -1 + Z.of_nat (length l' + 1)) eqn:H2;
    [apply Z.leb_le in H2; lia|].
  simpl orb. cbv iota.
  replace (Z.to_nat (-1 + Z.of_nat (length l' + 1))) with (length l') by lia.
  rewrite nth_error_app2, Nat.sub_diag by lia. reflexivity.
Qed.

Lemma nth_skipn_add :
  forall (A : Type) (off j : nat) (l : list A) (d : A),
    nth j (skipn off l) d = nth (off + j) l d.
Proof.
  intros A off; induction off as [|off IH]; intros j l d.
  - reflexivity.
  - destruct l as [|x l]; simpl.
    + destruct j; reflexivity.
    + apply IH.
Qed.

Lemma map_nth_firstn :
  forall (A : Type) (l : list A) (c : nat) (d : A),
    (c <= length l)%nat ->
    map (fun j => nth j l d) (seq 0 c) = firstn c l.
Proof.
  intros A l; induction l as [|x l IH]; intros c d Hc.
  - simpl in Hc. replace c with 0%nat by lia. reflexivity.
  - destruct c as [|c]; [reflexivity|].
    cbn [seq map firstn nth]. f_equal.
    rewrite <- seq_shift, map_map. apply IH. simpl in Hc. lia.
Qed.

Lemma map_nth_chunk :
  forall (A : Type) (l : list A) (off c : nat) (d : A),
    (off + c <= length l)%nat ->
    map (fun j => nth (off + j) l d) (seq 0 c) = firstn c (skipn off l).
Proof.
  intros A l off c d Hc.
  rewrite <- map_nth_firstn with (d := d) by (rewrite length_skipn; lia).
  apply map_ext. intros j. symmetry. apply nth_skipn_add.
Qed.

Lemma map_nth_all :
  forall (A : Type) (l : list A) (d : A),
    map (fun j => nth j l d) (seq 0 (length l)) = l.
Proof.
  intros A l d. rewrite map_nth_firstn by lia. apply firstn_all.
Qed.

Lemma mapM_ok_length :
  forall (A B : Type) (f : A -> result B) (l : list A) (r : list B),
    mapM f l = Ok r -> length r = length l.
Proof.
  intros A B f l; induction l as [|x xs IH]; intros r H; simpl in H.
  - injection H as <-. reflexivity.
  - destruct (f x) as [y|e]; [|discriminate]. simpl in H.
    destruct (mapM f xs) as [ys|e]; [|discriminate]. simpl in H.
    injection H as <-. simpl. f_equal. apply IH. reflexivity.
Qed.

End PyFacts.

(** ** Contiguous batch scheduler: proofs *)

Module TrainOrderProofs.

Import TrainOrder.
Local Open Scope Z_scope.

Lemma last_cons :
  forall (A : Type) (l : list A) (a d : A), last (a :: l) d = last l a.
Proof.
  intros A l; induction l as [|x xs IH]; intros a d; [reflexivity|].
  change (last (a :: x :: xs) d) with (last (x :: xs) d).
  rewrite (IH x d), (IH x a). reflexivity.
Qed.

Lemma combine_snoc :
  forall (A B : Type) (xs : list A) (ys : list B) (x : A) (y : B),
    length xs = length ys ->
    combine (xs ++ [x]) (ys ++ [y]) = combine xs ys ++ [(x, y)].
Proof.
  intros A B xs; induction xs as [|a xs IH]; intros [|b ys] x y Hlen;
    simpl in *; try discriminate; auto.
  f_equal. apply IH. lia.
Qed.

Lemma enumerate_loop_ranges :
  forall bs lengths ss cur es prev c i fin,
    length ss = length es ->
    0 <= prev ->
    Forall (fun l => 0 <= l) lengths ->
    let st := enumerate_loop bs (mkLoop (ss ++ [cur]) es prev c) i lengths in
    combine (start_idxs st) (end_idxs st ++ [fin]) =
    combine ss es ++ ranges_from bs prev c cur i lengths fin.
Proof.
  intros bs lengths; induction lengths as [|l rest IH];
    intros ss cur es prev c i fin Hlen Hprev Hall; simpl.
  - apply combine_snoc; assumption.
  - inversion Hall as [|? ? Hl Hrest]; subst.
    unfold loop_body; simpl.
    destruct (negb (l =? prev) || (bs <? c)) eqn:Hnew; simpl.
    + assert (Hp : (prev =? -1) = false) by (apply Z.eqb_neq; lia).
      rewrite Hp; simpl.
      rewrite (IH (ss ++ [cur]) i (es ++ [i - 1]) l 2 (i + 1) fin);
        try assumption.
      * rewrite combine_snoc by assumption.
        rewrite <- app_assoc. reflexivity.
      * rewrite !length_app; simpl; lia.
    + apply IH; assumption.
Qed.

Lemma train_order_of_lengths_cons :
  forall bs l rest startIdx,
    Forall (fun l => 0 <= l) (l :: rest) ->
    train_order_of_lengths (l :: rest) bs startIdx =
    ranges_from bs l 2 startIdx (startIdx + 1) rest
      (startIdx + Z.of_nat (length (l :: rest)) - 1).
Proof.
  intros bs l rest startIdx Hall.
  inversion Hall as [|? ? Hl Hrest]; subst.
  unfold train_order_of_lengths.
  cbn [enumerate_loop]. unfold loop_body, initial_state.
  cbn [prev_length batch_counter start_idxs end_idxs].
  assert (Hne : negb (l =? -1) = true)
    by (apply negb_true_iff, Z.eqb_neq; lia).
  rewrite Hne. cbn [orb negb Z.eqb app].
  cbn [prev_length batch_counter start_idxs end_idxs].
  change (1 + 1) with 2.
  apply (enumerate_loop_ranges bs rest [] startIdx [] l 2 (startIdx + 1));
    auto.
Qed.

Lemma map_seq_from :
  forall b a s,
    map (fun k => s + Z.of_nat k) (seq a b) =
    map (fun k => s + Z.of_nat a + Z.of_nat k) (seq 0 b).
Proof.
  induction b as [|b IH]; intros a s; simpl.
  - reflexivity.
  - f_equal; [lia|].
    rewrite (IH (S a) s), (IH 1%nat (s + Z.of_nat a)).
    apply map_ext. intros; lia.
Qed.

Lemma span_app :
  forall s a b, span s (a + b) = span s a ++ span (s + Z.of_nat a) b.
Proof.
  intros s a b. unfold span.
  rewrite seq_app, map_app. f_equal.
  apply map_seq_from.
Qed.

Lemma in_span :
  forall s n j, In j (span s n) <-> s <= j < s + Z.of_nat n.
Proof.
  intros s n j. unfold span. rewrite in_map_iff. split.
  - intros [k [Hk Hin]]. apply in_seq in Hin. lia.
  - intros H. exists (Z.to_nat (j - s)). split; [lia|].
    apply in_seq. lia.
Qed.

Lemma ranges_from_head :
  forall bs lengths prev c cur i fin,
    exists e rest, ranges_from bs prev c cur i lengths fin = (cur, e) :: rest.
Proof.
  intros bs lengths; induction lengths as [|l rest IH]; intros; simpl.
  - eauto.
  - destruct (negb (l =? prev) || (bs <? c)); eauto.
Qed.

Section RangesFrom.

Variable bs : Z.
Hypothesis bs_pos : 0 < bs.

(** The ranges cover what is left of the span, in order. *)
Lemma ranges_from_partition :
  forall lengths prev c cur i fin,
    cur < i ->
    fin = i + Z.of_nat (length lengths) - 1 ->
    flat_map range_elems (ranges_from bs prev c cur i lengths fin) =
      range_elems (cur, fin)
    /\ Forall (fun r => fst r <= snd r)
         (ranges_from bs prev c cur i lengths fin).
Proof.
  intros lengths; induction lengths as [|l rest IH];
    intros prev c cur i fin Hlt Hfin.
  - simpl in *. rewrite app_nil_r. split; [reflexivity|].
    constructor; [simpl; lia|constructor].
  - cbn [ranges_from].
    destruct (negb (l =? prev) || (bs <? c)).
    + destruct (IH l 2 i (i + 1) fin) as [Hp Hne];
        [lia|simpl length in Hfin; lia|].
      split.
      * cbn [flat_map]. rewrite Hp. unfold range_elems; cbn [fst snd].
        replace (Z.to_nat (fin - cur + 1))
          with (Z.to_nat (i - 1 - cur + 1) + Z.to_nat (fin - i + 1))%nat
          by (simpl length in Hfin; lia).
        rewrite span_app. do 2 f_equal. lia.
      * constructor; [simpl; lia|assumption].
    + apply IH; [lia|simpl length in Hfin; lia].
Qed.

(** No range holds more than [batch_size] sentences. *)
Lemma ranges_from_size :
  forall lengths prev c cur i fin,
    c = i - cur + 1 ->
    c <= bs + 1 ->
    fin = i + Z.of_nat (length lengths) - 1 ->
    Forall (fun r => snd r - fst r + 1 <= bs)
      (ranges_from bs prev c cur i lengths fin).
Proof.
  intros lengths; induction lengths as [|l rest IH];
    intros prev c cur i fin Hc Hle Hfin.
  - simpl in *. constructor; [simpl; lia|constructor].
  - cbn [ranges_from]. simpl length in Hfin.
    destruct (negb (l =? prev) || (bs <? c)) eqn:Hnew.
    + constructor; [simpl; lia|].
      apply IH; lia.
    + apply orb_false_iff in Hnew. destruct Hnew as [_ Hnew].
      apply Z.ltb_ge in Hnew.
      apply IH; lia.
Qed.

Variable lenfn : Z -> Z.

(** Inside a range every sentence has the length of the one before it. *)
Lemma ranges_from_uniform :
  forall lengths prev c cur i fin,
    (forall k, (k < length lengths)%nat ->
               lenfn (i + Z.of_nat k) = nth k lengths (-1)) ->
    (forall j, cur <= j < i -> lenfn j = prev) ->
    fin = i + Z.of_nat (length lengths) - 1 ->
    Forall (fun r => forall j, fst r < j <= snd r -> lenfn j = lenfn (j - 1))
      (ranges_from bs prev c cur i lengths fin).
Proof.
  intros lengths; induction lengths as [|l rest IH];
    intros prev c cur i fin Hnth Hprev Hfin.
  - simpl in *. constructor; [|constructor].
    simpl. intros j Hj. rewrite !Hprev by lia. reflexivity.
  - cbn [ranges_from]. simpl length in Hfin.
    assert (Hi : lenfn i = l).
    { specialize (Hnth 0%nat). simpl in Hnth.
      rewrite Z.add_0_r in Hnth. apply Hnth. lia. }
    assert (Hnth' : forall k, (k < length rest)%nat ->
                      lenfn (i + 1 + Z.of_nat k) = nth k rest (-1)).
    { intros k Hk. specialize (Hnth (S k)). simpl in Hnth.
      rewrite <- Hnth by lia. f_equal. lia. }
    destruct (negb (l =? prev) || (bs <? c)) eqn:Hnew.
    + constructor.
      * simpl. intros j Hj. rewrite !Hprev by lia. reflexivity.
      * apply IH; try assumption; [|lia].
        intros j Hj. replace j with i by lia. assumption.
    + apply orb_false_iff in Hnew. destruct Hnew as [Hnew _].
      apply negb_false_iff, Z.eqb_eq in Hnew. subst prev.
      apply IH; try assumption; [|lia].
      intros j Hj. destruct (Z.eq_dec j i) as [->|Hne]; [assumption|].
      apply Hprev. lia.
Qed.

(** A range is closed only at a change of length or when it is full. *)
Lemma ranges_from_adjacent :
  forall lengths prev c cur i fin,
    (forall k, (k < length lengths)%nat ->
               lenfn (i + Z.of_nat k) = nth k lengths (-1)) ->
    (forall j, cur <= j < i -> lenfn j = prev) ->
    cur < i ->
    c = i - cur + 1 ->
    c <= bs + 1 ->
    adjacent (fun r1 r2 => lenfn (fst r2) <> lenfn (snd r1)
                           \/ snd r1 - fst r1 + 1 = bs)
      (ranges_from bs prev c cur i lengths fin).
Proof.
  intros lengths; induction lengths as [|l rest IH];
    intros prev c cur i fin Hnth Hprev Hlt Hc Hle.
  - simpl. exact I.
  - cbn [ranges_from].
    assert (Hi : lenfn i = l).
    { specialize (Hnth 0%nat). simpl in Hnth.
      rewrite Z.add_0_r in Hnth. apply Hnth. simpl; lia. }
    assert (Hnth' : forall k, (k < length rest)%nat ->
                      lenfn (i + 1 + Z.of_nat k) = nth k rest (-1)).
    { intros k Hk. specialize (Hnth (S k)). simpl in Hnth.
      rewrite <- Hnth by lia. f_equal. lia. }
    destruct (negb (l =? prev) || (bs <? c)) eqn:Hnew.
    + assert (IH' := IH l 2 i (i + 1) fin Hnth').
      destruct (ranges_from_head bs rest l 2 i (i + 1) fin) as [e [tl Heq]].
      rewrite Heq in *. split.
      * cbn [fst snd]. rewrite Hi, (Hprev (i - 1)) by lia.
        apply orb_true_iff in Hnew. destruct Hnew as [Hnew|Hnew].
        -- left. apply negb_true_iff, Z.eqb_neq in Hnew. assumption.
        -- right. apply Z.ltb_lt in Hnew. lia.
      * apply IH'; try lia.
        intros j Hj. replace j with i by lia. assumption.
    + apply orb_false_iff in Hnew. destruct Hnew as [Hnew Hfull].
      apply negb_false_iff, Z.eqb_eq in Hnew. subst prev.
      apply Z.ltb_ge in Hfull.
      apply IH; try assumption; try lia.
      intros j Hj. destruct (Z.eq_dec j i) as [->|Hne]; [assumption|].
      apply Hprev. lia.
Qed.

(** A change of length closes the current range whatever the counter is, so
    the scheduler treats what follows independently of what came before. *)
Lemma ranges_from_app :
  forall l1 prev c cur i h t fin m,
    m = i + Z.of_nat (length l1) ->
    last l1 prev <> h ->
    ranges_from bs prev c cur i (l1 ++ h :: t) fin =
    ranges_from bs prev c cur i l1 (m - 1) ++
    ranges_from bs h 2 m (m + 1) t fin.
Proof.
  intros l1; induction l1 as [|l rest IH];
    intros prev c cur i h t fin m Hm Hlast.
  - simpl in *. replace m with i by lia.
    assert (Hne : negb (h =? prev) = true)
      by (apply negb_true_iff, Z.eqb_neq; congruence).
    rewrite Hne. reflexivity.
  - assert (Hlast' : last rest l <> h)
      by (rewrite <- (last_cons _ rest l prev); assumption).
    simpl length in Hm. cbn [app ranges_from].
    destruct (negb (l =? prev) || (bs <? c)).
    + rewrite (IH l 2 i (i + 1) h t fin m) by (assumption || lia).
      reflexivity.
    + apply IH; [lia|assumption].
Qed.

(** A run of equal lengths is cut into full ranges and a remainder. *)
Lemma ranges_from_repeat :
  forall m L c cur i fin,
    2 <= c <= bs + 1 ->
    Z.of_nat (length (ranges_from bs L c cur i (repeat L m) fin)) =
    ceil_div (c - 1 + Z.of_nat m) bs.
Proof.
  unfold ceil_div.
  induction m as [|m IH]; intros L c cur i fin Hc.
  - simpl.
    apply (Z.div_unique_pos _ _ 1 (c - 2)); lia.
  - cbn [repeat ranges_from]. rewrite Z.eqb_refl. cbn [negb orb].
    destruct (bs <? c) eqn:Hfull.
    + apply Z.ltb_lt in Hfull. simpl length.
      rewrite Nat2Z.inj_succ, <- Z.add_1_l, IH by lia.
      replace (c - 1 + Z.of_nat (S m) + bs - 1)
        with (2 - 1 + Z.of_nat m + bs - 1 + 1 * bs) by lia.
      rewrite Z.div_add by lia. lia.
    + apply Z.ltb_ge in Hfull.
      rewrite IH by lia. f_equal. lia.
Qed.

End RangesFrom.

Lemma train_order_of_lengths_app :
  forall bs l1 l2 startIdx,
    Forall (fun l => 0 <= l) (l1 ++ l2) ->
    (forall p x h t, l1 = p ++ [x] -> l2 = h :: t -> x <> h) ->
    train_order_of_lengths (l1 ++ l2) bs startIdx =
    train_order_of_lengths l1 bs startIdx ++
    train_order_of_lengths l2 bs (startIdx + Z.of_nat (length l1)).
Proof.
  intros bs l1 l2 startIdx Hall Hcut.
  destruct l1 as [|a l1'].
  - simpl. rewrite Z.add_0_r. reflexivity.
  - destruct l2 as [|h t].
    + rewrite app_nil_r. unfold train_order_of_lengths at 3. simpl.
      rewrite app_nil_r. reflexivity.
    + assert (Hall1 : Forall (fun l => 0 <= l) (a :: l1'))
        by (apply Forall_app in Hall; tauto).
      assert (Hall2 : Forall (fun l => 0 <= l) (h :: t))
        by (apply Forall_app in Hall; tauto).
      change ((a :: l1') ++ h :: t) with (a :: (l1' ++ h :: t)).
      rewrite !train_order_of_lengths_cons by assumption.
      rewrite (ranges_from_app bs l1' a 2 startIdx (startIdx + 1) h t _
                 (startIdx + Z.of_nat (length (a :: l1')))).
      * f_equal. f_equal.
        simpl length. rewrite length_app. simpl length. lia.
      * simpl length. lia.
      * destruct (exists_last (l := a :: l1')) as [p [x Hpx]];
          [discriminate|].
        assert (Hx : last l1' a = x)
          by (rewrite <- (last_cons _ l1' a a), Hpx; apply last_last).
        rewrite Hx. eapply Hcut; eauto.
Qed.


Lemma src_len_nonneg :
  forall (A B : Type) (data : list (list A * B)),
    Forall (fun l => 0 <= l) (map src_len data).
Proof.
  intros A B data. apply Forall_forall. intros l Hin.
  apply in_map_iff in Hin. destruct Hin as [e [<- _]].
  unfold src_len. lia.
Qed.

Lemma map_snoc_inv :
  forall (A B : Type) (f : A -> B) (l : list A) (p : list B) (x : B),
    map f l = p ++ [x] ->
    exists l' a, l = l' ++ [a] /\ f a = x.
Proof.
  intros A B f l p x Heq.
  destruct (exists_last (l := l)) as [l' [a Hl]].
  - intro Hnil. subst l. destruct p; discriminate.
  - exists l', a. split; [assumption|].
    subst l. rewrite map_app in Heq. simpl in Heq.
    apply app_inj_tail in Heq. tauto.
Qed.

Lemma map_const_repeat :
  forall (A : Type) (f : A -> Z) (l : list A) (L : Z),
    Forall (fun e => f e = L) l -> map f l = repeat L (length l).
Proof.
  intros A f l L Hall. induction Hall as [|e l He _ IH]; simpl.
  - reflexivity.
  - rewrite He, IH. reflexivity.
Qed.

(** ** C2: the ranges of [get_train_order] *)

(** C2. For a dataset of at least one sentence and a positive batch size,
    the ranges returned by [get_train_order] (1) list, in order and without
    gap or overlap, exactly the indices [startIdx .. startIdx + n - 1], each
    range being non-empty; (2) keep one length inside a range and never hold
    more than [batch_size] sentences, so that (3) every index whose length
    differs from the one before starts a range; (4) a range is closed only
    where the length changes or where it already holds [batch_size]
    sentences; and (5) a maximal run of [s] sentences of one length is
    scheduled on its own and is cut into exactly [ceil(s / batch_size)]
    consecutive ranges. *)
Theorem get_train_order_partition :
  forall (A B : Type) (training_data : list (list A * B))
         (batch_size startIdx : Z),
    training_data <> [] ->
    0 < batch_size ->
    let rs := get_train_order training_data batch_size startIdx in
    let len := length_at training_data startIdx in
    let n := Z.of_nat (length training_data) in
    flat_map range_elems rs = span startIdx (length training_data)
    /\ Forall (fun r => fst r <= snd r) rs
    /\ Forall (fun r => (forall j, fst r < j <= snd r -> len j = len (j - 1))
                       /\ snd r - fst r + 1 <= batch_size) rs
    /\ (forall j, startIdx <= j < startIdx + n ->
                  j = startIdx \/ len j <> len (j - 1) ->
                  In j (map fst rs))
    /\ adjacent (fun r1 r2 => len (fst r2) <> len (snd r1)
                              \/ snd r1 - fst r1 + 1 = batch_size) rs
    /\ (forall pre run post L,
          training_data = pre ++ run ++ post ->
          run <> [] ->
          Forall (fun e => src_len e = L) run ->
          (forall p x, pre = p ++ [x] -> src_len x <> L) ->
          (forall y q, post = y :: q -> src_len y <> L) ->
          let s := Z.of_nat (length run) in
          let at_run := startIdx + Z.of_nat (length pre) in
          rs = get_train_order pre batch_size startIdx
               ++ get_train_order run batch_size at_run
               ++ get_train_order post batch_size (at_run + s)
          /\ Z.of_nat (length (get_train_order run batch_size at_run))
             = ceil_div s batch_size).
Proof.
  intros A B data bs start Hne Hbs rs len n.
  assert (Hall := src_len_nonneg A B data).
  destruct data as [|e rest]; [contradiction|].
  assert (Hrs : rs = ranges_from bs (src_len e) 2 start (start + 1)
                       (map src_len rest)
                       (start + 1 + Z.of_nat (length (map src_len rest)) - 1)).
  { unfold rs, get_train_order. cbn [map].
    rewrite train_order_of_lengths_cons by exact Hall.
    f_equal. simpl length. lia. }
  assert (Hnth : forall k, (k < length (map src_len rest))%nat ->
                   len (start + 1 + Z.of_nat k) = nth k (map src_len rest) (-1)).
  { intros k Hk. unfold len, length_at.
    replace (Z.to_nat (start + 1 + Z.of_nat k - start)) with (S k) by lia.
    reflexivity. }
  assert (Hprev : forall j, start <= j < start + 1 -> len j = src_len e).
  { intros j Hj. unfold len, length_at.
    replace (Z.to_nat (j - start)) with 0%nat by lia. reflexivity. }
  destruct (ranges_from_partition bs (map src_len rest) (src_len e) 2 start
              (start + 1) _ ltac:(lia) eq_refl) as [Hpart Hnonempty].
  rewrite <- Hrs in Hpart, Hnonempty.
  assert (Hpart' : flat_map range_elems rs = span start (length (e :: rest))).
  { rewrite Hpart. unfold range_elems; cbn [fst snd]. f_equal.
    rewrite length_map. simpl length. lia. }
  assert (Hsize : Forall (fun r => snd r - fst r + 1 <= bs) rs).
  { rewrite Hrs. apply ranges_from_size; lia. }
  assert (Hunif : Forall (fun r => forall j, fst r < j <= snd r ->
                                   len j = len (j - 1)) rs).
  { rewrite Hrs. apply ranges_from_uniform; auto. }
  split; [exact Hpart'|]. split; [exact Hnonempty|].
  split.
  { apply Forall_forall. intros r Hr. split.
    - exact (proj1 (Forall_forall _ _) Hunif r Hr).
    - exact (proj1 (Forall_forall _ _) Hsize r Hr). }
  split.
  { intros j Hj Hstart.
    assert (Hin : In j (flat_map range_elems rs)).
    { rewrite Hpart'. apply in_span. unfold n in Hj. lia. }
    apply in_flat_map in Hin. destruct Hin as [r [Hr Hjr]].
    apply in_span in Hjr.
    destruct (Z.eq_dec j (fst r)) as [->|Hnej]; [apply in_map; assumption|].
    exfalso.
    assert (Hfirst : start <= fst r).
    { assert (Hin : In (fst r) (flat_map range_elems rs)).
      { apply in_flat_map. exists r. split; [assumption|].
        apply in_span. lia. }
      rewrite Hpart' in Hin. apply in_span in Hin. lia. }
    destruct Hstart as [->|Hdiff]; [lia|].
    apply Hdiff.
    apply (proj1 (Forall_forall _ _) Hunif r Hr). lia. }
  split.
  { rewrite Hrs. apply ranges_from_adjacent; auto; lia. }
  intros pre run post L Hdata Hrun HL Hpre Hpost s at_run.
  assert (Hrun_len : map src_len run = repeat L (length run))
    by (apply map_const_repeat; assumption).
  assert (Hhead : exists m, length run = S m).
  { destruct run; [contradiction|]. simpl; eauto. }
  destruct Hhead as [m Hm].
  split.
  - unfold rs, get_train_order. rewrite Hdata, !map_app.
    rewrite Hdata, !map_app in Hall.
    rewrite train_order_of_lengths_app; try assumption.
    + f_equal. rewrite length_map.
      rewrite train_order_of_lengths_app.
      * rewrite length_map. reflexivity.
      * apply Forall_app in Hall. tauto.
      * intros p x h t Hp Hh.
        rewrite Hrun_len, Hm in Hp.
        assert (Hx : In x (repeat L (S m)))
          by (rewrite Hp; apply in_or_app; right; left; reflexivity).
        apply repeat_spec in Hx. subst x.
        destruct post as [|y q]; [discriminate|].
        simpl in Hh. injection Hh as <- _.
        intro Heq. apply (Hpost y q eq_refl). auto.
    + intros p x h t Hp Hh.
      apply map_snoc_inv in Hp. destruct Hp as [p' [a [Hp' Ha]]].
      rewrite Hrun_len, Hm in Hh. simpl in Hh. injection Hh as <- _.
      rewrite <- Ha. eapply Hpre; eauto.
  - unfold get_train_order. rewrite Hrun_len, Hm.
    cbn [repeat].
    assert (HL0 : 0 <= L).
    { destruct run as [|r run']; [contradiction|].
      inversion HL as [|? ? Hr _]; subst. unfold src_len. lia. }
    rewrite train_order_of_lengths_cons.
    + rewrite ranges_from_repeat by lia.
      unfold s. rewrite Hm. f_equal. lia.
    + constructor; [assumption|].
      apply Forall_forall. intros x Hx. apply repeat_spec in Hx. lia.
Qed.

Lemma get_train_order_partition_witness :
  let data := [([1; 2; 3], tt); ([4; 5; 6], tt); ([7; 8; 9], tt); ([1; 2], tt)] in
  get_train_order data 2 10 = [(10, 11); (12, 12); (13, 13)]
  /\ flat_map range_elems (get_train_order data 2 10) = span 10 4.
Proof.
  intro data. split; [reflexivity|].
  apply (get_train_order_partition Z unit data 2 10); [discriminate|lia].
Defined.

End TrainOrderProofs.

(** ** Length sort and filter: proofs *)

Module LengthSortProofs.

Import LengthSort PyFacts.
Local Open Scope Z_scope.

Section Sorted.

Context {A : Type}.
Variable key : A -> Z.

Lemma insert_by_key_perm :
  forall x l, Permutation (insert_by_key key x l) (x :: l).
Proof.
  intros x l; induction l as [|y ys IH]; simpl.
  - apply Permutation_refl.
  - destruct (key x <=? key y).
    + apply Permutation_refl.
    + eapply perm_trans; [apply perm_skip, IH|apply perm_swap].
Qed.

Lemma sorted_perm : forall l, Permutation (sorted key l) l.
Proof.
  induction l as [|x xs IH]; simpl.
  - constructor.
  - eapply perm_trans; [apply insert_by_key_perm|]. apply perm_skip, IH.
Qed.

Lemma insert_by_key_sorted :
  forall x l, StronglySorted (key_le key) l ->
              StronglySorted (key_le key) (insert_by_key key x l).
Proof.
  intros x l Hs; induction Hs as [|y ys Hys IH Hall]; simpl.
  - constructor; constructor.
  - destruct (key x <=? key y) eqn:Hle.
    + apply Z.leb_le in Hle.
      constructor; [constructor; assumption|].
      constructor; [exact Hle|].
      eapply Forall_impl; [|exact Hall].
      unfold key_le. intros; lia.
    + apply Z.leb_gt in Hle.
      constructor; [assumption|].
      apply Forall_forall. intros z Hz.
      apply (Permutation_in _ (insert_by_key_perm x ys)) in Hz.
      destruct Hz as [<-|Hz].
      * unfold key_le; lia.
      * exact (proj1 (Forall_forall _ _) Hall z Hz).
Qed.

Lemma sorted_sorted : forall l, StronglySorted (key_le key) (sorted key l).
Proof.
  induction l as [|x xs IH]; simpl.
  - constructor.
  - apply insert_by_key_sorted, IH.
Qed.

(** Stability: the elements of one key keep their order. *)
Lemma insert_by_key_filter :
  forall k x l,
    filter (fun a => key a =? k) (insert_by_key key x l) =
    filter (fun a => key a =? k) (x :: l).
Proof.
  intros k x l; induction l as [|y ys IH]; [reflexivity|].
  cbn [insert_by_key].
  destruct (key x <=? key y) eqn:Hle; [reflexivity|].
  apply Z.leb_gt in Hle.
  cbn [filter] in *. rewrite IH.
  destruct (key x =? k) eqn:Hx; destruct (key y =? k) eqn:Hy;
    try reflexivity.
  apply Z.eqb_eq in Hx, Hy. lia.
Qed.

Lemma sorted_stable :
  forall k l,
    filter (fun a => key a =? k) (sorted key l) =
    filter (fun a => key a =? k) l.
Proof.
  intros k l; induction l as [|x xs IH]; [reflexivity|].
  cbn [sorted]. rewrite insert_by_key_filter.
  cbn [filter]. rewrite IH. reflexivity.
Qed.

(** A sorted list is determined by its classes of equal key: two stable
    sorts of one list agree. *)
Lemma stable_sort_unique :
  forall l1 l2,
    StronglySorted (key_le key) l1 ->
    StronglySorted (key_le key) l2 ->
    (forall k, filter (fun a => key a =? k) l1 =
               filter (fun a => key a =? k) l2) ->
    l1 = l2.
Proof.
  intros l1; induction l1 as [|x xs IH]; intros l2 Hs1 Hs2 Hcls.
  - destruct l2 as [|y ys]; [reflexivity|].
    specialize (Hcls (key y)). simpl in Hcls.
    rewrite Z.eqb_refl in Hcls. discriminate.
  - destruct l2 as [|y ys].
    + specialize (Hcls (key x)). simpl in Hcls.
      rewrite Z.eqb_refl in Hcls. discriminate.
    + inversion Hs1 as [|? ? Hxs Hx]; subst.
      inversion Hs2 as [|? ? Hys Hy]; subst.
      assert (Hxin : In x (y :: ys)).
      { assert (H : In x (filter (fun a => key a =? key x) (y :: ys))).
        { rewrite <- Hcls. simpl. rewrite Z.eqb_refl. left; reflexivity. }
        apply filter_In in H. tauto. }
      assert (Hyin : In y (x :: xs)).
      { assert (H : In y (filter (fun a => key a =? key y) (x :: xs))).
        { rewrite Hcls. simpl. rewrite Z.eqb_refl. left; reflexivity. }
        apply filter_In in H. tauto. }
      assert (Hkey : key x = key y).
      { assert (key y <= key x).
        { destruct Hxin as [->|Hin]; [lia|].
          exact (proj1 (Forall_forall _ _) Hy x Hin). }
        assert (key x <= key y).
        { destruct Hyin as [->|Hin]; [lia|].
          exact (proj1 (Forall_forall _ _) Hx y Hin). }
        lia. }
      assert (Hhead := Hcls (key x)). simpl in Hhead.
      rewrite Z.eqb_refl, <- Hkey, Z.eqb_refl in Hhead.
      injection Hhead as Hxy Htl. subst y.
      f_equal. apply IH; try assumption.
      intros k. specialize (Hcls k). simpl in Hcls.
      destruct (key x =? k); [injection Hcls; auto|assumption].
Qed.

End Sorted.

Lemma insert_by_key_map :
  forall (A B : Type) (f : A -> B) (key : B -> Z) (x : A) (l : list A),
    map f (insert_by_key (fun a => key (f a)) x l) =
    insert_by_key key (f x) (map f l).
Proof.
  intros A B f key x l; induction l as [|y ys IH]; simpl.
  - reflexivity.
  - destruct (key (f x) <=? key (f y)); simpl; [reflexivity|].
    rewrite IH. reflexivity.
Qed.

(** Sorting looks at the keys only. *)
Lemma sorted_map :
  forall (A B : Type) (f : A -> B) (key : B -> Z) (l : list A),
    map f (sorted (fun a => key (f a)) l) = sorted key (map f l).
Proof.
  intros A B f key l; induction l as [|x xs IH]; simpl.
  - reflexivity.
  - rewrite insert_by_key_map, IH. reflexivity.
Qed.

Lemma Permutation_filter :
  forall (A : Type) (p : A -> bool) (l1 l2 : list A),
    Permutation l1 l2 -> Permutation (filter p l1) (filter p l2).
Proof.
  intros A p l1 l2 H; induction H as [|x l1 l2 _ IH|x y l|l1 l2 l3 _ IH1 _ IH2];
    simpl.
  - constructor.
  - destruct (p x); [apply perm_skip|]; assumption.
  - destruct (p x), (p y); try apply Permutation_refl. apply perm_swap.
  - eapply perm_trans; eassumption.
Qed.

Lemma StronglySorted_filter :
  forall (A : Type) (R : A -> A -> Prop) (p : A -> bool) (l : list A),
    StronglySorted R l -> StronglySorted R (filter p l).
Proof.
  intros A R p l H; induction H as [|x l _ IH Hall]; simpl.
  - constructor.
  - destruct (p x); [|assumption].
    constructor; [assumption|].
    apply Forall_forall. intros y Hy. apply filter_In in Hy.
    exact (proj1 (Forall_forall _ _) Hall y (proj1 Hy)).
Qed.

Lemma StronglySorted_impl :
  forall (A : Type) (R R' : A -> A -> Prop) (l : list A),
    (forall a b, R a b -> R' a b) ->
    StronglySorted R l -> StronglySorted R' l.
Proof.
  intros A R R' l Himp H; induction H as [|x l _ IH Hall].
  - constructor.
  - constructor; [assumption|].
    eapply Forall_impl; [|exact Hall]. intros b; apply Himp.
Qed.

Lemma StronglySorted_map :
  forall (A B : Type) (R : B -> B -> Prop) (f : A -> B) (l : list A),
    StronglySorted (fun a b => R (f a) (f b)) l ->
    StronglySorted R (map f l).
Proof.
  intros A B R f l H; induction H as [|x l _ IH Hall]; simpl.
  - constructor.
  - constructor; [assumption|].
    apply Forall_forall. intros y Hy. apply in_map_iff in Hy.
    destruct Hy as [a [<- Ha]].
    exact (proj1 (Forall_forall _ _) Hall a Ha).
Qed.

Lemma filter_comm :
  forall (A : Type) (p q : A -> bool) (l : list A),
    filter p (filter q l) = filter q (filter p l).
Proof.
  intros A p q l; induction l as [|x xs IH]; simpl; [reflexivity|].
  destruct (p x) eqn:Hp, (q x) eqn:Hq; simpl; rewrite ?Hp, ?Hq, IH;
    reflexivity.
Qed.

Lemma in_combine_seq :
  forall (A : Type) (l : list A) (a i : nat) (x : A),
    In (i, x) (combine (seq a (length l)) l) ->
    (a <= i)%nat /\ nth_error l (i - a) = Some x.
Proof.
  intros A l; induction l as [|y ys IH]; intros a i x Hin; simpl in Hin.
  - contradiction.
  - destruct Hin as [Heq|Hin].
    + injection Heq as <- <-. rewrite Nat.sub_diag. split; [lia|reflexivity].
    + apply IH in Hin. destruct Hin as [Hle Hnth]. split; [lia|].
      replace (i - a)%nat with (S (i - S a)) by lia. exact Hnth.
Qed.

Lemma nth_error_combine :
  forall (A B : Type) (l1 : list A) (l2 : list B) (i : nat) (a : A) (b : B),
    nth_error (combine l1 l2) i = Some (a, b) ->
    nth_error l1 i = Some a /\ nth_error l2 i = Some b.
Proof.
  intros A B l1; induction l1 as [|x xs IH]; intros [|y ys] [|i] a b H;
    simpl in *; try discriminate.
  - injection H as <- <-. auto.
  - apply IH; assumption.
Qed.

Lemma combine_map_r :
  forall (A B C : Type) (g : B -> C) (l1 : list A) (l2 : list B),
    combine l1 (map g l2) = map (fun t => (fst t, g (snd t))) (combine l1 l2).
Proof.
  intros A B C g l1; induction l1 as [|x xs IH]; intros [|y ys]; simpl;
    try reflexivity.
  rewrite IH. reflexivity.
Qed.

Lemma map_fst_combine :
  forall (A B : Type) (l1 : list A) (l2 : list B),
    length l1 = length l2 -> map fst (combine l1 l2) = l1.
Proof.
  intros A B l1; induction l1 as [|x xs IH]; intros [|y ys] Hlen;
    simpl in *; try discriminate; [reflexivity|].
  rewrite IH by lia. reflexivity.
Qed.

Lemma map_snd_combine :
  forall (A B : Type) (l1 : list A) (l2 : list B),
    length l1 = length l2 -> map snd (combine l1 l2) = l2.
Proof.
  intros A B l1; induction l1 as [|x xs IH]; intros [|y ys] Hlen;
    simpl in *; try discriminate; [reflexivity|].
  rewrite IH by lia. reflexivity.
Qed.

Lemma combine_fst_snd :
  forall (A B : Type) (l : list (A * B)),
    combine (map fst l) (map snd l) = l.
Proof.
  intros A B l; induction l as [|[a b] l IH]; simpl; [reflexivity|].
  rewrite IH. reflexivity.
Qed.

(** What [sortbylength] computes, on the sentences zipped with their
    language identifiers: sort the pairs by descending source length, then
    drop the long ones. *)
Lemma sortbylength_pairs :
  forall (S T L : Type) (pairs : list ((list S * T) * L)) (maxlen : Z),
    sortbylength (map fst pairs) (map snd pairs) maxlen =
    let out := filter (fun p => short_enough maxlen (fst p))
                 (sorted (fun p => - src_length (fst p)) pairs) in
    Ok (map fst out, map snd out).
Proof.
  intros S T L pairs maxlen.
  unfold sortbylength.
  rewrite !map_map, length_map, combine_map_r.
  set (triples := combine (seq 0 (length pairs)) pairs).
  set (h := fun t : nat * ((list S * T) * L) => (fst t, fst (fst (snd t)))).
  rewrite <- (sorted_map _ _ h (fun x => - len (snd x))).
  rewrite filter_map_swap, !map_map.
  cbn [h fst snd].
  set (kept := filter _ _).
  assert (Hkept : forall t, In t kept -> nth_error pairs (fst t) = Some (snd t)).
  { intros [i x] Hin. unfold kept in Hin.
    apply filter_In in Hin. destruct Hin as [Hin _].
    apply (Permutation_in _ (sorted_perm _ _)) in Hin.
    apply in_combine_seq in Hin. rewrite Nat.sub_0_r in Hin.
    simpl. tauto. }
  rewrite (mapM_map_ok _ _ _ _ _ (fun t => snd (fst (snd t)))).
  2:{ intros t Ht. apply py_index_nth_error.
      rewrite nth_error_map, (Hkept t Ht). reflexivity. }
  cbn [bind].
  rewrite (mapM_map_ok _ _ _ _ _ (fun t => snd (snd t))).
  2:{ intros t Ht. apply py_index_nth_error.
      rewrite nth_error_map, (Hkept t Ht). reflexivity. }
  cbn [bind].
  assert (Hout : filter (fun p => short_enough maxlen (fst p))
                   (sorted (fun p => - src_length (fst p)) pairs) =
                 map snd kept).
  { assert (Hpairs : pairs = map snd triples).
    { unfold triples. rewrite map_snd_combine; [reflexivity|].
      apply length_seq. }
    rewrite Hpairs at 1.
    rewrite <- sorted_map, filter_map_swap. reflexivity. }
  cbv zeta. rewrite Hout, !map_map.
  do 2 f_equal.
  rewrite <- (combine_fst_snd _ _ (map (fun t => fst (snd t)) kept)) at 1.
  rewrite !map_map. reflexivity.
Qed.

Lemma sortbylength_eq :
  forall (S T L : Type) (data : list (list S * T)) (lang_ids : list L)
         (maxlen : Z),
    length lang_ids = length data ->
    sortbylength data lang_ids maxlen =
    let out := filter (fun p => short_enough maxlen (fst p))
                 (sorted (fun p => - src_length (fst p))
                    (combine data lang_ids)) in
    Ok (map fst out, map snd out).
Proof.
  intros S T L data lang_ids maxlen Hlen.
  rewrite <- sortbylength_pairs.
  rewrite map_fst_combine, map_snd_combine by lia.
  reflexivity.
Qed.

(** ** C5: the contract of [sortbylength] *)

(** C5. With a language-identifier list index-aligned with the data,
    [sortbylength] returns; the sentences it returns, paired with the
    identifiers it returns, are a rearrangement of exactly the input pairs
    whose source length is below [maxlen] (so the returned sentences are
    exactly the short-enough ones, and each keeps its own identifier at its
    new index); the returned sentences are in non-increasing order of
    source length; and for every length the pairs of that length come out
    in the order they came in (stable tie-break). *)
Theorem sortbylength_spec :
  forall (S T L : Type) (data : list (list S * T)) (lang_ids : list L)
         (maxlen : Z),
    length lang_ids = length data ->
    exists sorted_data sorted_lang_ids,
      sortbylength data lang_ids maxlen = Ok (sorted_data, sorted_lang_ids)
      /\ length sorted_lang_ids = length sorted_data
      /\ Permutation (combine sorted_data sorted_lang_ids)
           (filter (fun p => short_enough maxlen (fst p))
              (combine data lang_ids))
      /\ Permutation sorted_data (filter (short_enough maxlen) data)
      /\ Forall (fun e => src_length e < maxlen) sorted_data
      /\ StronglySorted (fun a b => src_length b <= src_length a) sorted_data
      /\ (forall n,
            filter (fun p => src_length (fst p) =? n)
              (combine sorted_data sorted_lang_ids) =
            filter (fun p => src_length (fst p) =? n)
              (filter (fun p => short_enough maxlen (fst p))
                 (combine data lang_ids))).
Proof.
  intros S T L data lang_ids maxlen Hlen.
  rewrite sortbylength_eq by assumption. cbv zeta.
  set (key := fun p : (list S * T) * L => - src_length (fst p)).
  set (keep := fun p : (list S * T) * L => short_enough maxlen (fst p)).
  set (out := filter keep (sorted key (combine data lang_ids))).
  exists (map fst out), (map snd out).
  assert (Hperm : Permutation out (filter keep (combine data lang_ids)))
    by (apply Permutation_filter, sorted_perm).
  split; [reflexivity|].
  split; [rewrite !length_map; reflexivity|].
  rewrite combine_fst_snd.
  split; [exact Hperm|].
  split.
  { assert (Hd : filter (short_enough maxlen) data =
                  map fst (filter keep (combine data lang_ids))).
    { unfold keep.
      rewrite <- (filter_map_swap (short_enough maxlen) fst).
      rewrite map_fst_combine by lia. reflexivity. }
    rewrite Hd. apply Permutation_map. exact Hperm. }
  split.
  { apply Forall_forall. intros e He. apply in_map_iff in He.
    destruct He as [p [<- Hp]]. apply filter_In in Hp.
    destruct Hp as [_ Hp]. apply Z.ltb_lt in Hp. exact Hp. }
  split.
  { apply StronglySorted_map, StronglySorted_filter.
    apply (StronglySorted_impl _ (key_le key)); [|apply sorted_sorted].
    intros a b Hab. unfold key_le, key in Hab. lia. }
  intros n.
  rewrite (filter_comm _ _ keep (combine data lang_ids)).
  unfold out. rewrite (filter_comm _ _ keep).
  f_equal.
  assert (Hkey : forall p : (list S * T) * L,
             (src_length (fst p) =? n) = (key p =? - n)).
  { intros p. unfold key.
    destruct (src_length (fst p) =? n) eqn:H1;
      destruct (- src_length (fst p) =? - n) eqn:H2; try reflexivity;
      rewrite ?Z.eqb_eq, ?Z.eqb_neq in *; lia. }
  rewrite !(filter_ext _ _ Hkey).
  apply sorted_stable.
Qed.

Lemma sortbylength_spec_witness :
  sortbylength [([1; 2], 10); ([1; 2; 3], 20); ([4; 5], 30); ([6; 7; 8; 9], 40)]
               [0; 1; 2; 3] 4
  = Ok ([([1; 2; 3], 20); ([1; 2], 10); ([4; 5], 30)], [1; 0; 2])
  /\ exists sorted_data sorted_lang_ids,
       sortbylength
         [([1; 2], 10); ([1; 2; 3], 20); ([4; 5], 30); ([6; 7; 8; 9], 40)]
         [0; 1; 2; 3] 4 = Ok (sorted_data, sorted_lang_ids)
       /\ length sorted_lang_ids = length sorted_data.
Proof.
  split; [reflexivity|].
  destruct (sortbylength_spec Z Z Z
              [([1; 2], 10); ([1; 2; 3], 20); ([4; 5], 30); ([6; 7; 8; 9], 40)]
              [0; 1; 2; 3] 4 eq_refl)
    as [sd [sl [Heq [Hlen _]]]].
  exists sd, sl. split; assumption.
Defined.

End LengthSortProofs.

(** ** Frozen tag-set codec: proofs *)

Module CodecProofs.

Import Codec DictFacts.

(** Induction on a value together with the values it holds. *)
Lemma pyobj_nested_ind :
  forall P : pyobj -> Prop,
    (forall s, P (PStr s)) ->
    (forall b, P (PBool b)) ->
    (forall items, Forall (fun kv => P (fst kv) /\ P (snd kv)) items ->
                   P (PDict items)) ->
    (forall elems, Forall P elems -> P (PTuple elems)) ->
    forall o, P o.
Proof.
  intros P Hstr Hbool Hdict Htuple.
  fix IH 1. intros [s|b|items|elems].
  - apply Hstr.
  - apply Hbool.
  - apply Hdict. induction items as [|[k v] items IHitems].
    + constructor.
    + constructor; [split; apply IH|exact IHitems].
  - apply Htuple. induction elems as [|e elems IHelems].
    + constructor.
    + constructor; [apply IH|exact IHelems].
Qed.

Lemma tag_mapping_items :
  forall items,
    tag_mapping (PDict items) <->
    NoDup (map fst items)
    /\ Forall (fun kv => plain_key (fst kv)
                         /\ (is_str (snd kv) \/ tag_mapping (snd kv))) items.
Proof.
  intros items. cbn [tag_mapping].
  apply and_iff_compat_l.
  induction items as [|kv rest IH].
  - split; [constructor|trivial].
  - rewrite Forall_cons_iff, <- IH. tauto.
Qed.

Lemma freeze_dict_items :
  forall items,
    freeze_dict (PDict items) =
    PTuple (map (fun kv => PTuple [fst kv; freeze_dict (snd kv)])
              (items ++ [(PStr FROZEN_TAG, PBool true)])).
Proof.
  intros items. rewrite map_app. reflexivity.
Qed.

Lemma py_eqb_str :
  forall a b, py_eqb (PStr a) (PStr b) = false <-> a <> b.
Proof.
  intros a b. simpl. apply String.eqb_neq.
Qed.

(** Thawing the frozen entries of a mapping rebuilds its entries in order. *)
Lemma build_dict_frozen_items :
  forall items done rest,
    NoDup (map fst (done ++ items)) ->
    Forall (fun kv => is_str (fst kv)) (done ++ items) ->
    Forall (fun kv => unfreeze_dict (freeze_dict (snd kv)) = Ok (snd kv))
      items ->
    build_dict unfreeze_dict
      (map (fun kv => PTuple [fst kv; freeze_dict (snd kv)]) items ++ rest)
      done =
    build_dict unfreeze_dict rest (done ++ items).
Proof.
  intros items; induction items as [|[k v] items IH];
    intros done rest Hnodup Hkeys Hvals.
  - rewrite app_nil_r. reflexivity.
  - inversion Hvals as [|? ? Hv Hvals']; subst. simpl in Hv.
    cbn [map app build_dict store_entry fst snd].
    rewrite Hv. cbn [bind].
    assert (Hk : is_str k).
    { apply Forall_app in Hkeys. destruct Hkeys as [_ Hkeys].
      inversion Hkeys; assumption. }
    destruct Hk as [s ->].
    unfold py_setitem. cbn [hashable].
    rewrite dict_set_fresh.
    + cbn [bind]. fold (build_dict unfreeze_dict).
      rewrite (IH (done ++ [(PStr s, v)]) rest).
      * rewrite <- app_assoc. reflexivity.
      * rewrite <- app_assoc. exact Hnodup.
      * rewrite <- app_assoc. exact Hkeys.
      * exact Hvals'.
    + apply Forall_forall. intros [k' v'] Hin. cbn [fst].
      assert (Hstr : is_str k').
      { apply Forall_app in Hkeys. destruct Hkeys as [Hdone _].
        exact (proj1 (Forall_forall _ _) Hdone (k', v') Hin). }
      destruct Hstr as [s' Hs']. cbn [fst] in Hs'. subst k'.
      apply py_eqb_str. intros ->.
      rewrite map_app in Hnodup. cbn [map fst] in Hnodup.
      apply NoDup_remove_2 in Hnodup. apply Hnodup.
      apply in_or_app. left.
      apply (in_map fst) in Hin. exact Hin.
Qed.

(** ** C4: the round trip *)

(** C4 (as the code has it). For every mapping whose keys, at every level,
    are distinct strings other than the reserved marker key ["__frozen__"],
    and whose values are strings or such mappings again, the empty mapping
    included, [unfreeze_dict (freeze_dict m)] returns [m]. *)
Theorem unfreeze_freeze_roundtrip :
  forall m, tag_mapping m -> unfreeze_dict (freeze_dict m) = Ok m.
Proof.
  intros m; induction m as [s|b|items IH|elems _] using pyobj_nested_ind;
    intros Hm; try contradiction.
  apply tag_mapping_items in Hm. destruct Hm as [Hnodup Hitems].
  cbn [freeze_dict unfreeze_dict].
  assert (Hmark : existsb (fun e => py_eqb e frozen_marker)
                    (map (fun kv => PTuple [fst kv; freeze_dict (snd kv)]) items
                     ++ [PTuple [PStr FROZEN_TAG; PBool true]]) = true).
  { rewrite existsb_app. apply orb_true_iff. right. reflexivity. }
  rewrite Hmark.
  rewrite (build_dict_frozen_items items [] _).
  - cbn [app build_dict store_entry unfreeze_dict bind].
    unfold py_setitem. cbn [hashable].
    assert (Hfresh : Forall (fun kv => py_eqb (fst kv) (PStr FROZEN_TAG) = false)
                       items).
    { eapply Forall_impl; [|exact Hitems].
      intros [k v] [[s [Hk Hs]] _]. cbn [fst] in *. subst k.
      apply py_eqb_str. exact Hs. }
    rewrite dict_set_fresh by exact Hfresh. cbn [bind].
    rewrite dict_del_last; [reflexivity|reflexivity|exact Hfresh].
  - exact Hnodup.
  - eapply Forall_impl; [|exact Hitems].
    intros [k v] [[s [Hk _]] _]. exists s. exact Hk.
  - apply Forall_forall. intros [k v] Hin. cbn [snd].
    assert (Hkv := proj1 (Forall_forall _ _) Hitems (k, v) Hin).
    assert (IHkv := proj1 (Forall_forall _ _) IH (k, v) Hin).
    cbn [fst snd] in Hkv, IHkv.
    destruct Hkv as [_ [[s ->]|Hv]]; [reflexivity|].
    apply IHkv. exact Hv.
Qed.

Ltac prove_tag_mapping :=
  repeat match goal with
    | |- tag_mapping _ => apply tag_mapping_items
    | |- _ /\ _ => split
    | |- NoDup _ => constructor
    | |- Forall _ _ => constructor
    | |- ~ In _ _ => simpl; intuition discriminate
    | |- plain_key _ => eexists; split; [reflexivity|discriminate]
    | |- is_str (snd _) \/ _ => cbn [snd]
    | |- is_str _ \/ tag_mapping (PDict _) => right
    | |- is_str (PStr _) \/ _ => left; eexists; reflexivity
    end.

Lemma unfreeze_freeze_roundtrip_witness :
  unfreeze_dict
    (freeze_dict
       (PDict [(PStr "POS", PStr "NOUN");
               (PStr "Feats", PDict [(PStr "Case", PStr "Nom")]);
               (PStr "Empty", PDict [])]))
  = Ok (PDict [(PStr "POS", PStr "NOUN");
               (PStr "Feats", PDict [(PStr "Case", PStr "Nom")]);
               (PStr "Empty", PDict [])])
  /\ unfreeze_dict (freeze_dict (PDict [])) = Ok (PDict []).
Proof.
  split; apply unfreeze_freeze_roundtrip; prove_tag_mapping.
Defined.

(** C4 (as the claim has it) fails: a mapping that uses the marker key
    ["__frozen__"] itself is a finite mapping from strings to strings, and
    it comes back empty. *)
Lemma roundtrip_loses_reserved_key :
  str_mapping (PDict [(PStr "__frozen__", PStr "x")])
  /\ freeze_dict (PDict [(PStr "__frozen__", PStr "x")])
     = PTuple [PTuple [PStr "__frozen__"; PStr "x"];
               PTuple [PStr "__frozen__"; PBool true]]
  /\ unfreeze_dict (freeze_dict (PDict [(PStr "__frozen__", PStr "x")]))
     = Ok (PDict [])
  /\ unfreeze_dict (freeze_dict (PDict [(PStr "__frozen__", PStr "x")]))
     <> Ok (PDict [(PStr "__frozen__", PStr "x")]).
Proof.
  split.
  - simpl. split.
    + constructor; [simpl; tauto|constructor].
    + split; [eexists; reflexivity|].
      split; [left; eexists; reflexivity|exact I].
  - split; [reflexivity|]. split; [reflexivity|discriminate].
Qed.

End CodecProofs.

(** ** Bucket batch scheduler: proofs *)

Module BucketProofs.

Import Bucket PyFacts.
Local Open Scope Z_scope.

(** *** [defaultdict(list)] *)

Section DefaultDict.

Context {K V : Type}.
Variable eqb : K -> K -> bool.
Hypothesis eqb_eq : forall a b, eqb a b = true <-> a = b.

Lemma dd_append_cons_ne :
  forall (d : list (K * list V)) k' l k v,
    eqb k' k = false ->
    dd_append eqb ((k', l) :: d) k v = (k', l) :: dd_append eqb d k v.
Proof.
  intros d k' l k v Hne. unfold dd_append. simpl. rewrite Hne. reflexivity.
Qed.

Lemma dd_append_cons_eq :
  forall (d : list (K * list V)) k' l k v,
    eqb k' k = true ->
    dd_append eqb ((k', l) :: d) k v = (k', l ++ [v]) :: d.
Proof.
  intros d k' l k v Heq. unfold dd_append. simpl. rewrite Heq. reflexivity.
Qed.

(** Appending under a key either extends the list stored under it, in
    place, or opens a new entry at the end. *)
Lemma dd_append_spec :
  forall (d : list (K * list V)) k v,
    (exists d1 l d2,
        d = d1 ++ (k, l) :: d2 /\ ~ In k (map fst d1)
        /\ dd_append eqb d k v = d1 ++ (k, l ++ [v]) :: d2)
    \/ (~ In k (map fst d) /\ dd_append eqb d k v = d ++ [(k, [v])]).
Proof.
  intros d k v; induction d as [|[k' l] d IH].
  - right. split; [simpl; tauto|reflexivity].
  - destruct (eqb k' k) eqn:Hk.
    + left. apply eqb_eq in Hk as Hkk. subst k'.
      exists [], l, d. split; [reflexivity|]. split; [simpl; tauto|].
      apply dd_append_cons_eq. exact Hk.
    + assert (Hne : k' <> k).
      { intros ->. assert (H : eqb k k = true) by (apply eqb_eq; reflexivity).
        congruence. }
      rewrite dd_append_cons_ne by exact Hk.
      destruct IH as [[d1 [l' [d2 [Hd [Hnin Happ]]]]]|[Hnin Happ]].
      * left. exists ((k', l) :: d1), l', d2.
        split; [rewrite Hd; reflexivity|].
        split; [simpl; intros [H|H]; [exact (Hne H)|exact (Hnin H)]|].
        rewrite Happ. reflexivity.
      * right. split; [simpl; intros [H|H]; [exact (Hne H)|exact (Hnin H)]|].
        rewrite Happ. reflexivity.
Qed.

Lemma dd_append_fresh :
  forall (d : list (K * list V)) k v,
    ~ In k (map fst d) -> dd_append eqb d k v = d ++ [(k, [v])].
Proof.
  intros d k v Hnin.
  destruct (dd_append_spec d k v) as [[d1 [l [d2 [Hd _]]]]|[_ H]];
    [|exact H].
  exfalso. apply Hnin. rewrite Hd, map_app. apply in_or_app.
  right. left. reflexivity.
Qed.

Lemma dd_append_last :
  forall (d : list (K * list V)) k l v,
    ~ In k (map fst d) ->
    dd_append eqb (d ++ [(k, l)]) k v = d ++ [(k, l ++ [v])].
Proof.
  intros d k l v; induction d as [|[k' l'] d IH]; intros Hnin.
  - simpl. apply dd_append_cons_eq. apply eqb_eq. reflexivity.
  - simpl app. rewrite dd_append_cons_ne.
    + rewrite IH; [reflexivity|]. simpl in Hnin. tauto.
    + destruct (eqb k' k) eqn:Hk; [|reflexivity].
      apply eqb_eq in Hk. subst k'. simpl in Hnin. tauto.
Qed.

End DefaultDict.

(** *** Cutting a bucket into batches *)

Lemma ceil_div_bounds :
  forall n bs : nat,
    (0 < bs)%nat -> (0 < n)%nat ->
    (1 <= ceil_div n bs /\ bs * (ceil_div n bs - 1) < n <= bs * ceil_div n bs)%nat.
Proof.
  intros n bs Hbs Hn. unfold ceil_div.
  assert (H := Nat.div_mod_eq (n + bs - 1) bs).
  assert (Hr := Nat.mod_upper_bound (n + bs - 1) bs ltac:(lia)).
  set (q := ((n + bs - 1) / bs)%nat) in *.
  set (r := ((n + bs - 1) mod bs)%nat) in *.
  assert (1 <= q)%nat by nia.
  split; [assumption|]. nia.
Qed.

Lemma num_batches_ceil :
  forall n bs : nat,
    (0 < bs)%nat ->
    num_batches (Z.of_nat n) (Z.of_nat bs) = Ok (Z.of_nat (ceil_div n bs)).
Proof.
  intros n bs Hbs. unfold num_batches, ceil_div.
  destruct (Z.of_nat bs =? 0) eqn:H0; [apply Z.eqb_eq in H0; lia|].
  f_equal.
  rewrite Nat2Z.inj_div, Nat2Z.inj_sub, Nat2Z.inj_add by lia.
  set (m := Z.of_nat n). set (b := Z.of_nat bs).
  assert (Hb : 0 < b) by (unfold b; lia).
  assert (H1 := Z.div_mod (m + b - Z.of_nat 1) b ltac:(lia)).
  assert (H2 := Z.mod_pos_bound (m + b - Z.of_nat 1) b Hb).
  set (q := (m + b - Z.of_nat 1) / b) in *.
  set (r := (m + b - Z.of_nat 1) mod b) in *.
  assert (Hq : - m / b = - q).
  { symmetry. apply (Z.div_unique_pos _ _ _ (b * q - m)); lia. }
  rewrite Hq. lia.
Qed.

Section Members.

Context {T : Type}.
Variables (bs : nat) (bs_pos : (0 < bs)%nat).

Lemma members_length :
  forall (bucket : list (data_item T)) i,
    bucket <> [] ->
    (i < ceil_div (length bucket) bs)%nat ->
    length (members bs bucket (ceil_div (length bucket) bs) i) =
    cur_batch_size bs (length bucket) (ceil_div (length bucket) bs) i
    /\ (0 < cur_batch_size bs (length bucket) (ceil_div (length bucket) bs) i
         <= bs)%nat
    /\ (i * bs + cur_batch_size bs (length bucket)
                   (ceil_div (length bucket) bs) i <= length bucket)%nat.
Proof.
  intros bucket i Hne Hi.
  assert (Hn : (0 < length bucket)%nat)
    by (destruct bucket; [contradiction|simpl; lia]).
  destruct (ceil_div_bounds (length bucket) bs bs_pos Hn) as [H1 H2].
  set (nb := ceil_div (length bucket) bs) in *.
  unfold members, cur_batch_size. fold nb.
  rewrite length_firstn, length_skipn.
  destruct (i <? nb - 1)%nat eqn:Hlt.
  - apply Nat.ltb_lt in Hlt. nia.
  - apply Nat.ltb_ge in Hlt. assert (i = nb - 1)%nat by lia. subst i. nia.
Qed.

(** The batches of a bucket hold its tuples, in order, each once. *)
Lemma members_concat_gen :
  forall nb (bucket : list (data_item T)),
    (1 <= nb)%nat ->
    (bs * (nb - 1) < length bucket <= bs * nb)%nat ->
    concat (map (members bs bucket nb) (seq 0 nb)) = bucket.
Proof.
  induction nb as [|nb IH]; intros bucket Hnb Hlen; [lia|].
  destruct nb as [|nb].
  - cbn [seq map concat]. unfold members, cur_batch_size. simpl.
    rewrite app_nil_r, Nat.mul_0_r, Nat.sub_0_r. apply firstn_all.
  - change (seq 0 (S (S nb))) with (0%nat :: seq 1 (S nb)).
    rewrite <- seq_shift. cbn [map concat]. rewrite map_map.
    transitivity (firstn bs bucket ++ skipn bs bucket);
      [|apply firstn_skipn].
    apply f_equal2; [reflexivity|].
    etransitivity; [|apply (IH (skipn bs bucket));
                     [lia|rewrite length_skipn; nia]].
    f_equal. apply map_ext_in. intros i Hi. apply in_seq in Hi.
    unfold members, cur_batch_size.
    rewrite length_skipn, skipn_skipn.
    replace (i * bs + bs)%nat with (S i * bs)%nat by lia.
    f_equal.
    destruct (S i <? S (S nb) - 1)%nat eqn:H1;
      destruct (i <? S nb - 1)%nat eqn:H2; try reflexivity;
      rewrite ?Nat.ltb_lt, ?Nat.ltb_ge in *; try lia.
Qed.

Lemma members_concat :
  forall bucket : list (data_item T),
    bucket <> [] ->
    concat (map (members bs bucket (ceil_div (length bucket) bs))
              (seq 0 (ceil_div (length bucket) bs))) = bucket.
Proof.
  intros bucket Hne.
  assert (Hn : (0 < length bucket)%nat)
    by (destruct bucket; [contradiction|simpl; lia]).
  destruct (ceil_div_bounds (length bucket) bs bs_pos Hn) as [H1 H2].
  apply members_concat_gen; assumption.
Qed.

Lemma members_incl :
  forall (bucket : list (data_item T)) nb i m,
    In m (members bs bucket nb i) -> In m bucket.
Proof.
  intros bucket nb i m Hin. unfold members in Hin.
  rewrite <- (firstn_skipn (i * bs) bucket).
  apply in_or_app. right.
  rewrite <- (firstn_skipn (cur_batch_size bs (length bucket) nb i)
                (skipn (i * bs) bucket)).
  apply in_or_app. left. exact Hin.
Qed.

End Members.

Section WithRandom.

Variables T Lbl rng : Type.
Variable shuffle : forall A : Type, list A -> rng -> list A * rng.
Hypothesis shuffle_perm :
  forall (A : Type) (l : list A) (g : rng), Permutation (fst (shuffle A l g)) l.

Local Abbreviation data_item := (data_item T).
Local Abbreviation batch := (batch T Lbl).

(** *** The first loop: buckets by source length *)

Lemma has_src_len_fill :
  forall (item : data_item) n,
    has_src_len n item ->
    (src <- py_index item 0 ;; field_len src) = Ok n.
Proof.
  intros item n [xs [rest [-> Hlen]]]. simpl. rewrite Hlen. reflexivity.
Qed.

Lemma fill_buckets_ok :
  forall (data : list data_item) buckets,
    Forall (fun item => exists n, has_src_len n item) data ->
    NoDup (map fst buckets) ->
    Forall bucket_ok buckets ->
    exists buckets',
      fill_buckets data buckets = Ok buckets'
      /\ NoDup (map fst buckets')
      /\ Forall bucket_ok buckets'
      /\ Permutation (concat (map snd buckets'))
           (concat (map snd buckets) ++ data).
Proof.
  intros data; induction data as [|item data IH];
    intros buckets Hdata Hnodup Hok.
  - exists buckets. simpl. rewrite app_nil_r. auto using Permutation_refl.
  - inversion Hdata as [|? ? [n Hn] Hdata']; subst.
    cbn [fill_buckets].
    destruct Hn as [xs [rest [-> Hlen]]].
    cbn [py_index length Z.of_nat]. simpl. rewrite Hlen.
    set (item := Seq xs :: rest).
    assert (Hitem : has_src_len n item) by (exists xs, rest; auto).
    destruct (dd_append_spec Nat.eqb Nat.eqb_eq buckets n item)
      as [[d1 [l [d2 [Hd [Hnin Happ]]]]]|[Hnin Happ]].
    + destruct (IH (dd_append Nat.eqb buckets n item)) as [b' [Hfill [H1 [H2 H3]]]].
      * exact Hdata'.
      * rewrite Happ. rewrite Hd in Hnodup.
        rewrite map_app in *. exact Hnodup.
      * rewrite Happ. rewrite Hd in Hok.
        apply Forall_app in Hok. destruct Hok as [Hok1 Hok2].
        inversion Hok2 as [|? ? [Hne Hall] Hok2']; subst.
        apply Forall_app. split; [exact Hok1|].
        constructor; [|exact Hok2'].
        split; cbn [fst snd] in *.
        -- destruct l; discriminate.
        -- apply Forall_app. split; [exact Hall|]. constructor; auto.
      * exists b'. split; [exact Hfill|]. split; [exact H1|].
        split; [exact H2|].
        eapply perm_trans; [exact H3|].
        rewrite Happ, Hd, !map_app, !concat_app. cbn [map concat snd].
        rewrite <- !app_assoc.
        apply Permutation_app_head.
        apply Permutation_app_head. cbn [app].
        apply Permutation_middle.
    + destruct (IH (dd_append Nat.eqb buckets n item)) as [b' [Hfill [H1 [H2 H3]]]].
      * exact Hdata'.
      * rewrite Happ, map_app. cbn [map fst].
        apply NoDup_app_remove_l with (l := []).
        simpl. apply Permutation_NoDup with (l := n :: map fst buckets).
        -- apply Permutation_cons_append.
        -- constructor; assumption.
      * rewrite Happ. apply Forall_app. split; [exact Hok|].
        constructor; [|constructor].
        split; cbn [fst snd]; [discriminate|constructor; auto].
      * exists b'. split; [exact Hfill|]. split; [exact H1|].
        split; [exact H2|].
        eapply perm_trans; [exact H3|].
        rewrite Happ, map_app, concat_app. cbn [map concat snd].
        rewrite app_nil_r, <- app_assoc. apply Permutation_refl.
Qed.

(** *** One batch *)

Lemma range_of_nat : forall n, range (Z.of_nat n) = map Z.of_nat (seq 0 n).
Proof. intros n. unfold range. rewrite Nat2Z.id. reflexivity. Qed.

Lemma nth_pred_last :
  forall (A : Type) (l : list A) (d : A),
    nth (length l - 1) l d = last l d.
Proof.
  intros A l d; induction l as [|x l IH]; [reflexivity|].
  destruct l as [|y l]; [reflexivity|].
  change (last (x :: y :: l) d) with (last (y :: l) d).
  rewrite <- IH. simpl. rewrite Nat.sub_0_r. reflexivity.
Qed.

Lemma batch_columns_ok :
  forall (bucket : list data_item) (bs tot i : nat),
    (0 < bs)%nat ->
    bucket <> [] ->
    Forall (fun item => length item = tot) bucket ->
    (i < ceil_div (length bucket) bs)%nat ->
    batch_columns (Lbl := Lbl) bucket (Z.of_nat bs) (Z.of_nat tot)
      (Z.of_nat i) (Z.of_nat (ceil_div (length bucket) bs)) =
    Ok (map (column_of (members bs bucket (ceil_div (length bucket) bs) i))
            (seq 0 tot)).
Proof.
  intros bucket bs tot i Hbs Hne Htot Hi.
  destruct (members_length bs Hbs bucket i Hne Hi) as [Hlen [Hcur Hfit]].
  set (nb := ceil_div (length bucket) bs) in *.
  set (c := cur_batch_size bs (length bucket) nb i) in *.
  unfold batch_columns.
  assert (Hc : (if Z.of_nat i <? Z.of_nat nb - 1 then Z.of_nat bs
                else Z.of_nat (length bucket) - Z.of_nat bs * Z.of_nat i)
               = Z.of_nat c).
  { unfold c, cur_batch_size.
    destruct (i <? nb - 1)%nat eqn:Hlt.
    - apply Nat.ltb_lt in Hlt.
      destruct (Z.of_nat i <? Z.of_nat nb - 1) eqn:Hz; [reflexivity|].
      apply Z.ltb_ge in Hz. lia.
    - unfold c, cur_batch_size in Hfit. rewrite Hlt in Hfit.
      apply Nat.ltb_ge in Hlt.
      destruct (Z.of_nat i <? Z.of_nat nb - 1) eqn:Hz;
        [apply Z.ltb_lt in Hz; lia|].
      nia. }
  rewrite Hc, !range_of_nat.
  apply mapM_map_ok. intros k Hk. apply in_seq in Hk.
  rewrite (mapM_map_ok _ _ _ _ _
             (fun j => nth k (nth (i * bs + j) bucket []) (Idx 0))).
  - cbn [bind]. unfold column_of. do 2 f_equal.
    unfold members. fold nb. fold c.
    rewrite <- (map_nth_chunk _ bucket (i * bs) c []) by lia.
    rewrite map_map. reflexivity.
  - intros j Hj. apply in_seq in Hj.
    replace (Z.of_nat i * Z.of_nat bs + Z.of_nat j)
      with (Z.of_nat (i * bs + j)) by lia.
    rewrite (py_index_nth _ bucket (i * bs + j) []) by lia.
    cbn [bind]. apply py_index_nth.
    assert (Hin : In (nth (i * bs + j) bucket []) bucket)
      by (apply nth_In; lia).
    rewrite (proj1 (Forall_forall _ _) Htot _ Hin). lia.
Qed.

(** *** The feature labels of a batch *)

Lemma add_feature_ok :
  forall (tot : nat) (entry : string * list Lbl) (ms : list data_item)
         (d : list (string * list Lbl)) (vs : list Lbl),
    ~ In (fst entry) (map fst d) ->
    Forall (fun m => length m = tot) ms ->
    Forall (fun m => exists v, label_of (snd entry) m v) ms ->
    exists vals,
      foldM (add_label (T := T) entry)
        (map (fun m => nth (tot - 1) m (Idx 0)) ms) (d ++ [(fst entry, vs)])
      = Ok (d ++ [(fst entry, vs ++ vals)])
      /\ Forall2 (label_of (snd entry)) ms vals.
Proof.
  intros tot entry ms; induction ms as [|m ms IH];
    intros d vs Hnin Htot Hlab.
  - exists []. rewrite app_nil_r. split; [reflexivity|constructor].
  - inversion Htot as [|? ? Hm Htot']; subst.
    inversion Hlab as [|? ? [v Hv] Hlab']; subst.
    destruct (IH d (vs ++ [v]) Hnin Htot' Hlab') as [vals [Hfold Hvals]].
    exists (v :: vals). split.
    + cbn [map foldM]. unfold add_label at 1.
      rewrite nth_pred_last.
      destruct Hv as [i [Hlast Hidx]] eqn:Hveq. rewrite Hlast.
      cbn [as_index bind]. rewrite Hidx. cbn [bind].
      rewrite (dd_append_last String.eqb String.eqb_eq) by exact Hnin.
      rewrite Hfold, <- app_assoc. reflexivity.
    + constructor; assumption.
Qed.

Lemma last_column :
  forall (tot : nat) (ms : list data_item),
    (0 < tot)%nat ->
    py_index (map (column_of (Lbl := Lbl) ms) (seq 0 tot)) (-1)
    = Ok (column_of ms (tot - 1)).
Proof.
  intros tot ms Htot.
  rewrite (py_index_last _ _ (column_of ms 0)).
  - destruct tot as [|t]; [lia|].
    rewrite seq_S, map_app. cbn [map]. rewrite last_last.
    do 2 f_equal. lia.
  - destruct tot; [lia|]. discriminate.
Qed.

Lemma batch_tgt_tags_fold :
  forall (tot : nat) (ms : list data_item) (fwtt d : list (string * list Lbl)),
    (0 < tot)%nat ->
    ms <> [] ->
    Forall (fun m => length m = tot) ms ->
    NoDup (map fst d ++ map fst fwtt) ->
    Forall (fun m => Forall (fun entry => exists v, label_of (snd entry) m v)
                       fwtt) ms ->
    exists tags,
      foldM (add_feature (map (column_of ms) (seq 0 tot))) fwtt d
      = Ok (d ++ tags)
      /\ tags_of fwtt ms tags.
Proof.
  intros tot ms fwtt; induction fwtt as [|entry fwtt IH];
    intros d Hpos Hne Htot Hnodup Hlab.
  - exists []. rewrite app_nil_r. split; [reflexivity|constructor].
  - assert (Hnin : ~ In (fst entry) (map fst d)).
    { cbn [map] in Hnodup. apply NoDup_remove_2 in Hnodup.
      intro Hin. apply Hnodup. apply in_or_app. left. exact Hin. }
    assert (Hentry : Forall (fun m => exists v, label_of (snd entry) m v) ms).
    { eapply Forall_impl; [|exact Hlab].
      intros m Hm. inversion Hm; assumption. }
    assert (Hrest : Forall (fun m => Forall (fun e => exists v,
                                        label_of (snd e) m v) fwtt) ms).
    { eapply Forall_impl; [|exact Hlab].
      intros m Hm. inversion Hm; assumption. }
    assert (Hstep : exists vals,
               add_feature (map (column_of ms) (seq 0 tot)) d entry
               = Ok (d ++ [(fst entry, vals)])
               /\ Forall2 (label_of (snd entry)) ms vals).
    { unfold add_feature. rewrite (last_column tot ms Hpos). cbn [bind].
      unfold column_of.
      destruct ms as [|m ms]; [contradiction|].
      inversion Htot as [|? ? Hm Htot']; subst.
      inversion Hentry as [|? ? [v Hv] Hentry']; subst.
      destruct (add_feature_ok (length m) entry ms d [v] Hnin Htot' Hentry')
        as [vals [Hfold Hvals]].
      exists (v :: vals). split; [|constructor; assumption].
      cbn [map foldM]. unfold add_label at 1. rewrite nth_pred_last.
      destruct Hv as [i [Hlast Hidx]]. rewrite Hlast.
      cbn [as_index bind]. rewrite Hidx. cbn [bind].
      rewrite (dd_append_fresh String.eqb String.eqb_eq) by exact Hnin.
      exact Hfold. }
    destruct Hstep as [vals [Hstep Hvals]].
    destruct (IH (d ++ [(fst entry, vals)])) as [tags [Hfold' Htags]];
      try assumption.
    + rewrite map_app. cbn [map fst]. rewrite <- app_assoc. exact Hnodup.
    + exists ((fst entry, vals) :: tags). split.
      * cbn [foldM]. rewrite Hstep. cbn [bind].
        rewrite Hfold', <- app_assoc. reflexivity.
      * constructor; [|exact Htags]. split; [reflexivity|exact Hvals].
Qed.

Lemma attach_tgt_tags_ok :
  forall (fwtt : option (list (string * list Lbl))) (tot : nat)
         (ms : list data_item),
    (0 < tot)%nat ->
    ms <> [] ->
    Forall (fun m => length m = tot) ms ->
    labels_available fwtt ms ->
    exists b,
      attach_tgt_tags fwtt (map (column_of ms) (seq 0 tot)) = Ok b
      /\ batch_of fwtt tot ms b.
Proof.
  intros [m|] tot ms Htot Hne Hlen Hlab; cbn [attach_tgt_tags batch_of].
  - destruct Hlab as [Hnodup Hlab]. unfold batch_tgt_tags.
    destruct (batch_tgt_tags_fold tot ms m [] Htot Hne Hlen Hnodup Hlab)
      as [tags [Hfold Htags]].
    rewrite Hfold. cbn [bind app].
    eexists. split; [reflexivity|]. exists tags. split; [reflexivity|assumption].
  - eexists. split; reflexivity.
Qed.

(** *** The batches of one bucket, and of all of them *)

Lemma mapM_map_Forall2 :
  forall (A B C : Type) (f : B -> result C) (g : A -> B)
         (R : A -> C -> Prop) (l : list A),
    (forall a, In a l -> exists y, f (g a) = Ok y /\ R a y) ->
    exists ys, mapM f (map g l) = Ok ys /\ Forall2 R l ys.
Proof.
  intros A B C f g R l; induction l as [|a l IH]; intros H.
  - exists []. split; [reflexivity|constructor].
  - destruct (H a (or_introl eq_refl)) as [y [Hy HR]].
    destruct IH as [ys [Hys HRs]];
      [intros a' Ha'; apply H; right; exact Ha'|].
    exists (y :: ys). split; [|constructor; assumption].
    cbn [map mapM]. rewrite Hy. cbn [bind]. rewrite Hys. reflexivity.
Qed.

Lemma labels_available_incl :
  forall (fwtt : option (list (string * list Lbl))) (l1 l2 : list data_item),
    incl l1 l2 -> labels_available fwtt l2 -> labels_available fwtt l1.
Proof.
  intros [m|] l1 l2 Hincl; cbn [labels_available]; [|trivial].
  intros [Hnodup Hall]. split; [exact Hnodup|].
  apply Forall_forall. intros x Hx.
  exact (proj1 (Forall_forall _ _) Hall x (Hincl x Hx)).
Qed.

Lemma bucket_ready_perm :
  forall (fwtt : option (list (string * list Lbl))) tot (b b' : list data_item),
    Permutation b' b -> bucket_ready fwtt tot b -> bucket_ready fwtt tot b'.
Proof.
  intros fwtt tot b b' Hperm [Hne [Hlen Hlab]]. split; [|split].
  - intros ->. apply Permutation_nil in Hperm. contradiction.
  - apply Forall_forall. intros x Hx.
    apply (proj1 (Forall_forall _ _) Hlen).
    exact (Permutation_in _ Hperm Hx).
  - apply (labels_available_incl fwtt b' b); [|exact Hlab].
    intros x Hx. exact (Permutation_in _ Hperm Hx).
Qed.

Lemma bucket_batches_ok :
  forall (fwtt : option (list (string * list Lbl))) (bs tot : nat) (flag : bool) (acc : list batch) (g : rng)
         (entry : nat * list data_item),
    (0 < bs)%nat ->
    (0 < tot)%nat ->
    bucket_ready fwtt tot (snd entry) ->
    exists bucket' new g',
      bucket_batches shuffle fwtt (Z.of_nat bs) (Z.of_nat tot) flag (acc, g)
        entry = Ok (acc ++ new, g')
      /\ Permutation bucket' (snd entry)
      /\ (flag = false -> bucket' = snd entry)
      /\ bucket_batches_of fwtt bs tot bucket' new.
Proof.
  intros fwtt bs tot flag acc g entry Hbs Htot Hready.
  unfold bucket_batches. cbn [fst snd].
  set (sh := if flag then shuffle data_item (snd entry) g else (snd entry, g)).
  assert (Hperm : Permutation (fst sh) (snd entry)).
  { unfold sh. destruct flag; [apply shuffle_perm|apply Permutation_refl]. }
  assert (Hid : flag = false -> fst sh = snd entry).
  { intros ->. reflexivity. }
  destruct sh as [bucket' g1]. cbn [fst] in Hperm, Hid.
  destruct (bucket_ready_perm fwtt tot _ _ Hperm Hready) as [Hne [Hlen Hlab]].
  rewrite num_batches_ceil by exact Hbs. cbn [bind].
  rewrite range_of_nat.
  destruct (mapM_map_Forall2 _ _ _
              (fun i : Z =>
                 b <- batch_columns bucket' (Z.of_nat bs) (Z.of_nat tot) i
                        (Z.of_nat (ceil_div (length bucket') bs)) ;;
                 attach_tgt_tags fwtt b)
              Z.of_nat
              (fun i b => batch_of fwtt tot
                            (members bs bucket'
                               (ceil_div (length bucket') bs) i) b)
              (seq 0 (ceil_div (length bucket') bs)))
    as [new [Hnew Hall]].
  - intros i Hi. apply in_seq in Hi.
    rewrite batch_columns_ok by (assumption || lia). cbn [bind].
    destruct (members_length bs Hbs bucket' i Hne ltac:(lia))
      as [Hml [Hcur _]].
    apply attach_tgt_tags_ok.
    + exact Htot.
    + intros Hnil. rewrite Hnil in Hml. simpl in Hml. lia.
    + apply Forall_forall. intros m Hm.
      apply (proj1 (Forall_forall _ _) Hlen).
      exact (members_incl bs _ _ _ _ Hm).
    + apply (labels_available_incl fwtt _ bucket'); [|exact Hlab].
      intros m Hm. exact (members_incl bs _ _ _ _ Hm).
  - exists bucket', new, g1. rewrite Hnew. cbn [bind].
    split; [reflexivity|]. split; [exact Hperm|]. split; assumption.
Qed.

Lemma bucket_loop_ok :
  forall (fwtt : option (list (string * list Lbl))) (bs tot : nat) (flag : bool)
         (buckets : list (nat * list data_item)) (acc : list batch) (g : rng),
    (0 < bs)%nat ->
    (0 < tot)%nat ->
    Forall (fun e => bucket_ready fwtt tot (snd e)) buckets ->
    exists buckets' per_bucket g',
      foldM (bucket_batches shuffle fwtt (Z.of_nat bs) (Z.of_nat tot) flag)
        buckets (acc, g) = Ok (acc ++ concat per_bucket, g')
      /\ Forall2 (fun e b' => Permutation b' (snd e)
                              /\ (flag = false -> b' = snd e))
           buckets buckets'
      /\ Forall2 (bucket_batches_of fwtt bs tot) buckets' per_bucket.
Proof.
  intros fwtt bs tot flag buckets; induction buckets as [|entry buckets IH];
    intros acc g Hbs Htot Hready.
  - exists [], [], g. cbn [foldM concat]. rewrite app_nil_r.
    split; [reflexivity|]. split; constructor.
  - inversion Hready as [|? ? He Hready']; subst.
    destruct (bucket_batches_ok fwtt bs tot flag acc g entry Hbs Htot He)
      as [b' [new [g1 [Hstep [Hperm [Hid Hof]]]]]].
    destruct (IH (acc ++ new) g1 Hbs Htot Hready')
      as [bs' [pb [g2 [Hfold [Hperms Hofs]]]]].
    exists (b' :: bs'), (new :: pb), g2.
    cbn [foldM]. rewrite Hstep. cbn [bind]. rewrite Hfold.
    cbn [concat]. rewrite app_assoc.
    split; [reflexivity|]. split; constructor; auto.
Qed.

Lemma Forall2_in_r :
  forall (A B : Type) (R : A -> B -> Prop) (l1 : list A) (l2 : list B) (y : B),
    Forall2 R l1 l2 -> In y l2 -> exists x, In x l1 /\ R x y.
Proof.
  intros A B R l1 l2 y H; induction H as [|a b l1 l2 Hab _ IH]; intros Hin.
  - contradiction.
  - destruct Hin as [<-|Hin].
    + exists a. split; [left; reflexivity|assumption].
    + destruct (IH Hin) as [x [Hx HR]]. exists x. split; [right|]; assumption.
Qed.

Lemma Forall2_perm_concat :
  forall (A X : Type) (f : X -> list A) (l1 : list X) (l2 : list (list A)),
    Forall2 (fun e b => Permutation b (f e)) l1 l2 ->
    Permutation (concat l2) (concat (map f l1)).
Proof.
  intros A X f l1 l2 H; induction H as [|e b l1 l2 Heb _ IH]; simpl.
  - constructor.
  - apply Permutation_app; assumption.
Qed.

(** The batches the function returns, bucket by bucket. *)
Lemma make_bucket_batches_char :
  forall (data : list data_item) (fwtt : option (list (string * list Lbl)))
         (batch_size : Z) (flag : bool) (g : rng)
         (tot : nat),
    data <> [] ->
    uniform_tuples tot data ->
    0 < batch_size ->
    labels_available fwtt data ->
    exists batches g' lens buckets per_bucket,
      make_bucket_batches shuffle data fwtt batch_size flag g
      = Ok (batches, g')
      /\ (0 < tot)%nat
      /\ partition_by_length data lens buckets
      /\ Forall (bucket_ready fwtt tot) buckets
      /\ Forall2 (bucket_batches_of fwtt (Z.to_nat batch_size) tot)
           buckets per_bucket
      /\ Permutation batches (concat per_bucket)
      /\ (flag = false -> batches = concat per_bucket).
Proof.
  intros data fwtt bs flag g tot Hne Hunif Hbs Hlab.
  destruct data as [|first rest]; [contradiction|].
  assert (Htot : (0 < tot)%nat /\ length first = tot).
  { inversion Hunif as [|? ? [Hlen [n [xs [r [Hx _]]]]] _]; subst.
    simpl. split; [lia|reflexivity]. }
  destruct Htot as [Htot Hfirst].
  set (data := first :: rest) in *.
  unfold make_bucket_batches.
  change (py_index data 0) with (Ok (A := data_item) first). cbn [bind].
  rewrite Hfirst.
  destruct (fill_buckets_ok data []) as [buckets0 [Hfill [Hnodup [Hok Hperm]]]].
  - eapply Forall_impl; [|exact Hunif]. intros item [_ H]. exact H.
  - constructor.
  - constructor.
  - rewrite Hfill. cbn [bind]. simpl in Hperm.
    assert (Hready : Forall (fun e => bucket_ready fwtt tot (snd e)) buckets0).
    { apply Forall_forall. intros e He.
      assert (Hincl : incl (snd e) data).
      { intros x Hx. apply (Permutation_in _ Hperm).
        apply in_concat. exists (snd e). split; [|exact Hx].
        apply in_map. exact He. }
      destruct (proj1 (Forall_forall _ _) Hok e He) as [Hnil _].
      split; [exact Hnil|]. split.
      - apply Forall_forall. intros x Hx.
        exact (proj1 (proj1 (Forall_forall _ _) Hunif x (Hincl x Hx))).
      - exact (labels_available_incl fwtt _ _ Hincl Hlab). }
    destruct (bucket_loop_ok fwtt (Z.to_nat bs) tot flag buckets0 [] g
                ltac:(lia) Htot Hready)
      as [buckets [per_bucket [g1 [Hfold [Hperms Hofs]]]]].
    rewrite Z2Nat.id in Hfold by lia.
    rewrite Hfold. cbn [bind app fst snd].
    set (out := if flag then shuffle batch (concat per_bucket) g1
                else (concat per_bucket, g1)).
    exists (fst out), (snd out), (map fst buckets0), buckets, per_bucket.
    split; [destruct out; reflexivity|].
    split; [exact Htot|].
    split; [|split; [|split; [exact Hofs|split]]].
    + split; [exact Hnodup|]. split.
      * clear - Hok Hperms.
        induction Hperms as [|e b l1 l2 [Hp _] _ IH]; [constructor|].
        inversion Hok as [|? ? [Hnil Hlen] Hok']; subst.
        constructor; [|apply IH; exact Hok'].
        split.
        -- intros ->. apply Permutation_nil in Hp. contradiction.
        -- apply Forall_forall. intros x Hx.
           apply (proj1 (Forall_forall _ _) Hlen).
           exact (Permutation_in _ Hp Hx).
      * eapply perm_trans; [|exact Hperm].
        apply Forall2_perm_concat.
        eapply Forall2_impl; [|exact Hperms]. intros e b [Hp _]. exact Hp.
    + clear - Hready Hperms.
      induction Hperms as [|e b l1 l2 [Hp _] _ IH]; [constructor|].
      inversion Hready as [|? ? He Hready']; subst.
      constructor; [|apply IH; exact Hready'].
      exact (bucket_ready_perm fwtt tot _ _ Hp He).
    + unfold out. destruct flag; [apply shuffle_perm|apply Permutation_refl].
    + intros ->. reflexivity.
Qed.

Lemma Forall2_seq_nth :
  forall (B : Type) (R : nat -> B -> Prop) (d : B) (n a : nat) (bl : list B),
    Forall2 R (seq a n) bl ->
    length bl = n /\ forall i, (i < n)%nat -> R (a + i)%nat (nth i bl d).
Proof.
  intros B R d n; induction n as [|n IH]; intros a bl H.
  - inversion H; subst. split; [reflexivity|]. intros i Hi. lia.
  - cbn [seq] in H. inversion H as [|? b ? bl' Hb Hrest]; subst.
    destruct (IH (S a) bl' Hrest) as [Hlen Hnth].
    split; [simpl; lia|].
    intros [|i] Hi.
    + rewrite Nat.add_0_r. exact Hb.
    + replace (a + S i)%nat with (S a + i)%nat by lia.
      apply Hnth. lia.
Qed.

Lemma batch_of_first_column :
  forall (fwtt : option (list (string * list Lbl))) (tot : nat)
         (ms : list data_item) (b : batch),
    (0 < tot)%nat ->
    batch_of fwtt tot ms b ->
    first_column b = map (fun m => nth 0 m (Idx 0)) ms.
Proof.
  intros fwtt tot ms b Htot Hb.
  destruct tot as [|tot]; [lia|].
  destruct fwtt as [m|]; cbn [batch_of] in Hb.
  - destruct Hb as [tags [-> _]]. reflexivity.
  - subst b. reflexivity.
Qed.

(** The batches of one bucket: their number, their sizes, what they hold. *)
Lemma bucket_batches_of_facts :
  forall (fwtt : option (list (string * list Lbl))) (bs tot : nat)
         (bucket : list data_item) (bl : list batch),
    (0 < bs)%nat ->
    (0 < tot)%nat ->
    bucket <> [] ->
    bucket_batches_of fwtt bs tot bucket bl ->
    let nb := ceil_div (length bucket) bs in
    length bl = nb
    /\ (forall i, (i < nb - 1)%nat -> batch_len (nth i bl []) = bs)
    /\ batch_len (last bl []) = (length bucket - bs * (nb - 1))%nat
    /\ list_sum (map batch_len bl) = length bucket
    /\ (forall n, Forall (has_src_len n) bucket -> Forall (same_src_len n) bl).
Proof.
  intros fwtt bs tot bucket bl Hbs Htot Hne Hof nb.
  unfold Bucket.batch in *.
  destruct (Forall2_seq_nth _ _ [] _ _ _ Hof) as [Hlen Hnth].
  fold nb in Hlen, Hnth.
  assert (Hn : (0 < length bucket)%nat)
    by (destruct bucket; [contradiction|simpl; lia]).
  destruct (ceil_div_bounds (length bucket) bs Hbs Hn) as [Hnb Hbounds].
  fold nb in Hnb, Hbounds.
  assert (Hsize : forall i, (i < nb)%nat ->
            batch_len (nth i bl []) =
            cur_batch_size bs (length bucket) nb i).
  { intros i Hi. specialize (Hnth i Hi). cbn [Nat.add] in Hnth.
    unfold batch_len.
    rewrite (batch_of_first_column _ _ _ _ Htot Hnth), length_map.
    apply (members_length bs Hbs bucket i Hne Hi). }
  split; [exact Hlen|]. split; [|split; [|split]].
  - intros i Hi. rewrite Hsize by lia. unfold cur_batch_size.
    destruct (i <? nb - 1)%nat eqn:Hlt; [reflexivity|].
    apply Nat.ltb_ge in Hlt. lia.
  - rewrite <- nth_pred_last, Hlen, Hsize by lia. unfold cur_batch_size.
    rewrite Nat.ltb_irrefl. reflexivity.
  - rewrite <- (members_concat bs Hbs bucket Hne) at 1.
    rewrite length_concat, map_map. fold nb. f_equal.
    clear - Hof Htot. unfold bucket_batches_of in Hof. fold nb in Hof.
    induction Hof as [|i b l1 l2 Hb _ IH]; [reflexivity|].
    cbn [map]. rewrite IH. f_equal.
    unfold batch_len.
    rewrite (batch_of_first_column _ _ _ _ Htot Hb), length_map. reflexivity.
  - intros n Hsrc. apply Forall_forall. intros b Hb.
    destruct (Forall2_in_r _ _ _ _ _ _ Hof Hb) as [i [_ Hbi]].
    unfold same_src_len.
    rewrite (batch_of_first_column _ _ _ _ Htot Hbi).
    apply Forall_forall. intros f Hf. apply in_map_iff in Hf.
    destruct Hf as [m [<- Hm]].
    apply (members_incl bs) in Hm.
    destruct (proj1 (Forall_forall _ _) Hsrc m Hm) as [xs [r [-> Hxs]]].
    simpl. rewrite Hxs. reflexivity.
Qed.

(** ** C3: what [make_bucket_batches] emits *)


(** ** C6: the feature labels attached to a batch *)

(** C6. When [feature_wise_tgt_tags] is supplied - a dictionary whose
    arrays can be read at every sentence identifier - every batch that
    [make_bucket_batches] emits consists of the [tot] columns of its members
    followed by one final element, a mapping that holds, for each feature
    in the order of [feature_wise_tgt_tags], the list whose [j]-th entry is
    that feature's array read at the sentence identifier of the batch's
    [j]-th member, the last element of that member's tuple. *)
Theorem make_bucket_batches_tgt_tags :
  forall (data : list data_item) (fwtt : list (string * list Lbl))
         (batch_size : Z) (do_shuffle : bool) (g : rng) (tot : nat),
    data <> [] ->
    uniform_tuples tot data ->
    0 < batch_size ->
    labels_available (Some fwtt) data ->
    exists batches g',
      make_bucket_batches shuffle data (Some fwtt) batch_size do_shuffle g
      = Ok (batches, g')
      /\ Forall (fun b =>
                   exists members tags,
                     incl members data
                     /\ b = map (column_of members) (seq 0 tot)
                            ++ [TgtTags tags]
                     /\ last b (TgtTags []) = TgtTags tags
                     /\ tags_of fwtt members tags)
           batches.
Proof.
  intros data fwtt bs flag g tot Hne Hunif Hbs Hlab.
  destruct (make_bucket_batches_char data (Some fwtt) bs flag g tot
              Hne Hunif Hbs Hlab)
    as [batches [g' [lens [buckets [per_bucket
         [Hrun [Htot [Hpart [Hready [Hofs [Hperm Hid]]]]]]]]]]].
  destruct Hpart as [_ [_ Hdata]].
  exists batches, g'. split; [exact Hrun|].
  apply Forall_forall. intros b Hb.
  apply (Permutation_in _ Hperm) in Hb. apply in_concat in Hb.
  destruct Hb as [bl [Hbl Hb]].
  destruct (Forall2_in_r _ _ _ _ _ _ Hofs Hbl) as [bucket [Hbucket Hof]].
  destruct (Forall2_in_r _ _ _ _ _ _ Hof Hb) as [i [_ Hbi]].
  cbn [batch_of] in Hbi. destruct Hbi as [tags [-> Htags]].
  eexists. exists tags. split; [|split; [reflexivity|split]].
  - intros m Hm. apply (members_incl (Z.to_nat bs)) in Hm.
    apply (Permutation_in _ Hdata). apply in_concat.
    exists bucket. split; assumption.
  - apply last_last.
  - exact Htags.
Qed.

End WithRandom.

Lemma reversing_shuffle_perm :
  forall (A : Type) (l : list A) (g : nat),
    Permutation (fst (reversing_shuffle A l g)) l.
Proof.
  intros A l g. simpl. apply Permutation_sym, Permutation_rev.
Qed.

Ltac prove_tuples :=
  repeat match goal with
    | |- uniform_tuples _ _ => unfold uniform_tuples
    | |- labels_available _ _ => unfold labels_available
    | |- Forall _ _ => constructor
    | |- NoDup _ => constructor
    | |- ~ In _ _ => simpl; intuition discriminate
    | |- _ /\ _ => split
    | |- _ = _ => reflexivity
    | |- exists n, has_src_len n _ => eexists; eexists; eexists
    | |- exists v, label_of _ _ v => eexists; eexists
    | |- True => exact I
    end.


Lemma make_bucket_batches_tgt_tags_witness :
  let data := [[Seq [1; 2]; Idx 0]; [Seq [3]; Idx 1]; [Seq [4; 5]; Idx 2];
               [Seq [6; 7]; Idx 3]; [Seq [8]; Idx 4]] in
  let fwtt := [("POS", [10; 11; 12; 13; 14]); ("Case", [20; 21; 22; 23; 24])]
              %string in
  make_bucket_batches reversing_shuffle data (Some fwtt) 2 false 0%nat
  = Ok ([[Column [Seq [1; 2]; Seq [4; 5]]; Column [Idx 0; Idx 2];
          TgtTags [("POS", [10; 12]); ("Case", [20; 22])]%string];
         [Column [Seq [6; 7]]; Column [Idx 3];
          TgtTags [("POS", [13]); ("Case", [23])]%string];
         [Column [Seq [3]; Seq [8]]; Column [Idx 1; Idx 4];
          TgtTags [("POS", [11; 14]); ("Case", [21; 24])]%string]], 0%nat)
  /\ exists batches g',
       make_bucket_batches reversing_shuffle data (Some fwtt) 2 true 0%nat
       = Ok (batches, g')
       /\ Forall (fun b => exists (members : list (data_item Z)) tags,
                    last b (TgtTags []) = TgtTags tags
                    /\ tags_of fwtt members tags) batches.
Proof.
  intros data fwtt. split; [reflexivity|].
  destruct (make_bucket_batches_tgt_tags Z Z nat reversing_shuffle
              reversing_shuffle_perm data fwtt 2 true 0%nat 2%nat)
    as [batches [g' [Hrun Hall]]].
  - discriminate.
  - unfold data. prove_tuples.
  - lia.
  - unfold data, fwtt. prove_tuples.
  - exists batches, g'. split; [exact Hrun|].
    eapply Forall_impl; [|exact Hall].
    intros b [members [tags [_ [_ [Hlast Htags]]]]].
    exists members, tags. auto.
Defined.


End BucketProofs.


(** ** Scorer: proofs *)

Module ScorerProofs.

Import Scorer PyFacts DictFacts.
Local Open Scope Z_scope.

Lemma str_eqb_eq : forall a b, str_eqb a b = true <-> a = b.
Proof. exact String.eqb_eq. Qed.

Lemma represents_ext :
  forall st m c m' c',
    (forall k, m k = m' k) -> (forall k, c k = c' k) ->
    represents st m c -> represents st m' c'.
Proof.
  intros st m c m' c' Hm Hc [H1 [H2 H3]].
  split; [exact H1|]. split; [exact H2|].
  intros k. rewrite <- Hm, <- Hc. apply H3.
Qed.

Lemma b2z_range : forall b : bool, 0 <= (if b then 1 else 0) <= 1.
Proof. intros []; lia. Qed.

(** One entry: the tables follow the counts. *)
Lemma tally_entry_ok :
  forall sentinel others i other st m c kv,
    py_index others i = Ok other ->
    represents st m c ->
    exists st',
      tally_entry sentinel others i st kv = Ok st'
      /\ represents st'
           (fun k => m k + (if counted sentinel k kv && agrees other kv
                            then 1 else 0))
           (fun k => c k + (if counted sentinel k kv then 1 else 0)).
Proof.
  intros sentinel others i other [scores total] m c [k0 v] Hother Hrep.
  unfold tally_entry, counted, agrees. cbn [fst snd].
  destruct (str_eqb v sentinel) eqn:Hsent.
  - exists (scores, total). split; [reflexivity|].
    apply (represents_ext _ m c); [| |exact Hrep]; intros k;
      rewrite andb_false_r; simpl; lia.
  - destruct Hrep as [Hnd1 [Hnd2 Hrep]]. cbn [fst snd] in *.
    destruct (Hrep k0) as [Hm0 [Ht0 Hs0]].
    set (st1 := if dict_mem str_eqb scores k0 then (scores, total)
                else (dict_set str_eqb scores k0 0,
                      dict_set str_eqb total k0 0)).
    assert (Hst1 : NoDup (map fst (fst st1)) /\ NoDup (map fst (snd st1))
                   /\ dict_get str_eqb (fst st1) k0 = Some (m k0)
                   /\ dict_get str_eqb (snd st1) k0 = Some (c k0)
                   /\ forall k, k <> k0 ->
                        dict_get str_eqb (fst st1) k = dict_get str_eqb scores k
                        /\ dict_get str_eqb (snd st1) k
                           = dict_get str_eqb total k).
    { unfold st1, dict_mem. rewrite Hs0.
      destruct (c k0 =? 0) eqn:Hc0; cbn [fst snd].
      - apply Z.eqb_eq in Hc0.
        split; [apply (dict_set_NoDup _ str_eqb_eq); exact Hnd1|].
        split; [apply (dict_set_NoDup _ str_eqb_eq); exact Hnd2|].
        rewrite !(dict_get_set _ str_eqb_eq), (eqb_refl _ str_eqb_eq).
        split; [f_equal; lia|]. split; [f_equal; lia|].
        intros k Hk. rewrite !(dict_get_set _ str_eqb_eq).
        assert (Hne : str_eqb k0 k = false)
          by (apply (eqb_neq _ str_eqb_eq); congruence).
        rewrite Hne. auto.
      - repeat split; auto. }
    destruct st1 as [scores1 total1]. cbn [fst snd] in Hst1.
    destruct Hst1 as [Hnd1' [Hnd2' [Hs1 [Ht1 Hrest]]]].
    rewrite Hother. cbn [bind].
    set (agree := match dict_get str_eqb other k0 with
                  | Some w => str_eqb v w
                  | None => false
                  end).
    assert (Hscores :
              (if dict_mem str_eqb other k0
               then match dict_get str_eqb other k0 with
                    | Some w => if str_eqb v w then increment scores1 k0
                                else Ok scores1
                    | None => Err KeyError
                    end
               else Ok scores1)
              = Ok (if agree then dict_set str_eqb scores1 k0 (m k0 + 1)
                    else scores1)).
    { unfold agree, dict_mem, increment.
      destruct (dict_get str_eqb other k0) as [w|]; [|reflexivity].
      destruct (str_eqb v w); [|reflexivity].
      rewrite Hs1. reflexivity. }
    rewrite Hscores. cbn [bind].
    unfold increment. rewrite Ht1. cbn [bind].
    eexists. split; [reflexivity|].
    split; [|split]; cbn [fst snd].
    + destruct agree; [apply (dict_set_NoDup _ str_eqb_eq)|]; exact Hnd1'.
    + apply (dict_set_NoDup _ str_eqb_eq); exact Hnd2'.
    + intros k. rewrite Bool.andb_true_r.
      destruct (Hrep k) as [Hmk [Htk Hsk]].
      rewrite (dict_get_set _ str_eqb_eq).
      destruct (str_eqb k0 k) eqn:Hk.
      * apply str_eqb_eq in Hk. subst k. cbn [andb].
        assert (Hnz : (c k0 + 1 =? 0) = false) by (apply Z.eqb_neq; lia).
        rewrite Hnz. fold agree.
        split; [destruct agree; lia|]. split; [reflexivity|].
        destruct agree.
        -- rewrite (dict_get_set _ str_eqb_eq), (eqb_refl _ str_eqb_eq).
           reflexivity.
        -- rewrite Hs1. f_equal. lia.
      * cbn [andb]. rewrite !Z.add_0_r.
        assert (Hne : k <> k0)
          by (apply (eqb_neq _ str_eqb_eq) in Hk; congruence).
        destruct (Hrest k Hne) as [Hr1 Hr2].
        split; [exact Hmk|]. split; [rewrite Hr2; exact Htk|].
        destruct agree.
        -- rewrite (dict_get_set _ str_eqb_eq), Hk, Hr1. exact Hsk.
        -- rewrite Hr1. exact Hsk.
Qed.

Lemma filter_length_cons :
  forall (A : Type) (p : A -> bool) (x : A) (l : list A),
    Z.of_nat (length (filter p (x :: l))) =
    (if p x then 1 else 0) + Z.of_nat (length (filter p l)).
Proof.
  intros A p x l. simpl. destruct (p x); simpl length; lia.
Qed.

(** One tag-set. *)
Lemma tally_word_ok :
  forall sentinel others i other x st m c,
    py_index others i = Ok other ->
    represents st m c ->
    exists st',
      foldM (tally_entry sentinel others i) x st = Ok st'
      /\ represents st'
           (fun k => m k + Z.of_nat (length
                      (filter (fun kv => counted sentinel k kv
                                         && agrees other kv) x)))
           (fun k => c k + Z.of_nat (length (filter (counted sentinel k) x))).
Proof.
  intros sentinel others i other x; induction x as [|kv x IH];
    intros st m c Hother Hrep.
  - exists st. split; [reflexivity|].
    apply (represents_ext _ m c); [| |exact Hrep]; intros k; simpl; lia.
  - destruct (tally_entry_ok sentinel others i other st m c kv Hother Hrep)
      as [st1 [Hstep Hrep1]].
    destruct (IH st1 _ _ Hother Hrep1) as [st2 [Hfold Hrep2]].
    exists st2. split.
    + cbn [foldM]. rewrite Hstep. exact Hfold.
    + eapply represents_ext; [| |exact Hrep2]; intros k;
        cbv beta; rewrite filter_length_cons; cbv beta; lia.
Qed.

Lemma skipn_cons_inv :
  forall (A : Type) (a : nat) (l : list A) (o : A) (os : list A),
    skipn a l = o :: os -> nth_error l a = Some o /\ skipn (S a) l = os.
Proof.
  intros A a; induction a as [|a IH]; intros l o os H.
  - destruct l; [discriminate|]. simpl in H. injection H as -> ->. auto.
  - destruct l as [|x l]; [discriminate|]. simpl in H.
    apply IH in H. exact H.
Qed.

(** All the tag-sets. *)
Lemma tally_loop_ok :
  forall sentinel others xs a os st m c,
    skipn a others = os ->
    (length xs <= length os)%nat ->
    represents st m c ->
    exists st',
      foldM (fun st iw =>
               foldM (tally_entry sentinel others (fst iw)) (snd iw) st)
            (combine (map Z.of_nat (seq a (length xs))) xs) st = Ok st'
      /\ represents st'
           (fun k => m k + hits sentinel k xs os)
           (fun k => c k + support sentinel k xs).
Proof.
  intros sentinel others xs; induction xs as [|x xs IH];
    intros a os st m c Hos Hlen Hrep.
  - exists st. split; [reflexivity|].
    apply (represents_ext _ m c); [| |exact Hrep]; intros k; simpl; lia.
  - destruct os as [|o os]; [simpl in Hlen; lia|].
    apply skipn_cons_inv in Hos. destruct Hos as [Hnth Hos].
    apply py_index_nth_error in Hnth.
    destruct (tally_word_ok sentinel others _ o x st m c Hnth Hrep)
      as [st1 [Hword Hrep1]].
    destruct (IH (S a) os st1 _ _ Hos ltac:(simpl in Hlen; lia) Hrep1)
      as [st2 [Hfold Hrep2]].
    exists st2. split.
    + cbn [length seq map combine foldM fst snd]. rewrite Hword.
      cbn [bind]. exact Hfold.
    + eapply represents_ext; [| |exact Hrep2]; intros k;
        cbv beta; cbn [hits support]; lia.
Qed.

Lemma tally_ok :
  forall sentinel xs others,
    length others = length xs ->
    exists st,
      tally sentinel xs others = Ok st
      /\ represents st (fun k => hits sentinel k xs others)
                        (fun k => support sentinel k xs).
Proof.
  intros sentinel xs others Hlen.
  assert (Hle : (length xs <= length others)%nat) by lia.
  destruct (tally_loop_ok sentinel others xs 0 others ([], [])
              (fun _ => 0) (fun _ => 0) eq_refl Hle)
    as [st [Hfold Hrep]].
  - split; [constructor|]. split; [constructor|].
    intros k. simpl. split; [lia|auto].
  - exists st. split; [exact Hfold|].
    eapply represents_ext; [| |exact Hrep]; intros k; simpl; lia.
Qed.

(** *** Ratios *)

Lemma py_div_ok :
  forall a b, b <> 0 -> py_div a b = Ok (inject_Z a / inject_Z b)%Q.
Proof.
  intros a b Hb. unfold py_div.
  destruct (b =? 0) eqn:E; [apply Z.eqb_eq in E; contradiction|reflexivity].
Qed.

Lemma ratio_nonneg :
  forall a b, 0 <= a -> 0 < b -> (0 <= inject_Z a / inject_Z b)%Q.
Proof.
  intros a b Ha Hb.
  apply Qle_shift_div_l.
  - change 0%Q with (inject_Z 0). rewrite <- Zlt_Qlt. exact Hb.
  - rewrite Qmult_0_l. change 0%Q with (inject_Z 0).
    rewrite <- Zle_Qle. exact Ha.
Qed.

Lemma tag_f1_ok :
  forall (precision : list (string * Q)) k r,
    (forall p, dict_get str_eqb precision k = Some p -> (0 <= p)%Q) ->
    (0 <= r)%Q ->
    tag_f1 precision k r = Ok (f1_value (dict_get str_eqb precision k) r).
Proof.
  intros precision k r Hp Hr. unfold tag_f1, dict_mem, f1_value.
  destruct (dict_get str_eqb precision k) as [p|].
  - cbn [negb]. rewrite orb_false_r.
    destruct (Qeq_bool r 0) eqn:Hr0; [reflexivity|].
    unfold harmonic, py_divQ.
    destruct (Qeq_bool (p + r) 0) eqn:Hsum; [|reflexivity].
    exfalso. apply Qeq_bool_neq in Hr0. apply Qeq_bool_iff in Hsum.
    specialize (Hp p eq_refl). apply Hr0. Lqa.lra.
  - rewrite orb_true_r. reflexivity.
Qed.

Lemma represents_entry :
  forall scores total m c k s,
    represents (scores, total) m c ->
    In (k, s) scores ->
    s = m k /\ 0 <= m k /\ 0 < c k
    /\ dict_get str_eqb total k = Some (c k).
Proof.
  intros scores total m c k s [Hnd [_ Hrep]] Hin. cbn [fst snd] in *.
  destruct (Hrep k) as [Hm [Ht Hs]].
  rewrite (dict_get_in _ str_eqb_eq _ _ _ Hnd Hin) in Hs.
  destruct (c k =? 0) eqn:Hc; [discriminate|].
  apply Z.eqb_neq in Hc. injection Hs as ->.
  repeat split; try lia. exact Ht.
Qed.

(** The table of per-tag ratios. *)
Lemma per_tag_ok :
  forall scores total m c,
    represents (scores, total) m c ->
    exists table,
      per_tag scores total = Ok table
      /\ forall k,
           dict_get str_eqb table k =
           if c k =? 0 then None
           else Some (inject_Z (m k) / inject_Z (c k))%Q.
Proof.
  intros scores total m c Hrep.
  exists (map (fun ks => (fst ks, (inject_Z (snd ks) / inject_Z (c (fst ks)))%Q))
            scores).
  split.
  - unfold per_tag. rewrite <- (map_id scores) at 1.
    apply mapM_map_ok. intros [k s] Hin. unfold id. cbn [fst snd].
    destruct (represents_entry _ _ _ _ _ _ Hrep Hin) as [_ [_ [Hc Ht]]].
    rewrite Ht, py_div_ok by lia. reflexivity.
  - intros k.
    rewrite (dict_get_map_values _ str_eqb_eq _
               (fun k s => (inject_Z s / inject_Z (c k))%Q)).
    destruct Hrep as [_ [_ Hrep]]. destruct (Hrep k) as [_ [_ Hs]].
    cbn [fst] in Hs. rewrite Hs.
    destruct (c k =? 0); reflexivity.
Qed.

(** The loop over the recall table. *)
Lemma f1_fold_ok :
  forall (precision : list (string * Q)) (total : counts) (c : string -> Z)
         (todo done : counts) (avg : Q),
    (forall k p, dict_get str_eqb precision k = Some p -> (0 <= p)%Q) ->
    NoDup (map fst (done ++ todo)) ->
    (forall ks, In ks todo ->
                0 <= snd ks /\ 0 < c (fst ks)
                /\ dict_get str_eqb total (fst ks) = Some (c (fst ks))) ->
    let gR := fun ks : string * Z =>
                (fst ks, (inject_Z (snd ks) / inject_Z (c (fst ks)))%Q) in
    let gF := fun ks : string * Z =>
                (fst ks, f1_value (dict_get str_eqb precision (fst ks))
                           (inject_Z (snd ks) / inject_Z (c (fst ks)))%Q) in
    exists avg',
      foldM (f1_step precision total) todo
        (mkF1 (map gR done) (map gF done) avg)
      = Ok (mkF1 (map gR (done ++ todo)) (map gF (done ++ todo)) avg').
Proof.
  intros precision total c todo; induction todo as [|[k s] todo IH];
    intros done avg Hprec Hnd Htodo gR gF.
  - exists avg. rewrite app_nil_r. reflexivity.
  - destruct (Htodo (k, s) (or_introl eq_refl)) as [Hs [Hc Ht]].
    cbn [fst snd] in Hs, Hc, Ht.
    destruct (IH (done ++ [(k, s)])
                (avg + inject_Z (c k)
                       * f1_value (dict_get str_eqb precision k)
                           (inject_Z s / inject_Z (c k)))%Q Hprec)
      as [avg' Hfold].
    + rewrite <- app_assoc. exact Hnd.
    + intros ks Hin. apply Htodo. right. exact Hin.
    + exists avg'. cbn [foldM]. unfold f1_step at 1.
      cbn [fst snd f1_recall_scores f1_scores f1_average].
      rewrite Ht, py_div_ok by lia. cbn [bind].
      rewrite tag_f1_ok; [|apply Hprec|apply ratio_nonneg; lia].
      cbn [bind].
      rewrite (dict_set_fresh _ _ str_eqb).
      * rewrite <- app_assoc in Hfold. cbn [app] in Hfold.
        rewrite !map_app in Hfold. cbn [map] in Hfold.
        rewrite !map_app. cbn [map].
        exact Hfold.
      * apply Forall_forall. intros [k' f'] Hin. cbn [fst].
        apply (eqb_neq _ str_eqb_eq). intros ->.
        rewrite map_app in Hnd. cbn [map fst] in Hnd.
        apply NoDup_remove_2 in Hnd. apply Hnd.
        apply in_or_app. left.
        apply in_map_iff in Hin. destruct Hin as [[k0 s0] [Heq Hin]].
        cbn [fst snd] in Heq. injection Heq as -> _.
        apply (in_map fst) in Hin. exact Hin.
Qed.

Lemma f1_loop_ok :
  forall (precision : list (string * Q)) scores total m c,
    (forall k p, dict_get str_eqb precision k = Some p -> (0 <= p)%Q) ->
    represents (scores, total) m c ->
    exists st,
      f1_loop precision scores total = Ok st
      /\ forall k,
           dict_get str_eqb (f1_recall_scores st) k =
             (if c k =? 0 then None
              else Some (inject_Z (m k) / inject_Z (c k))%Q)
           /\ dict_get str_eqb (f1_scores st) k =
             (if c k =? 0 then None
              else Some (f1_value (dict_get str_eqb precision k)
                           (inject_Z (m k) / inject_Z (c k))%Q)).
Proof.
  intros precision scores total m c Hprec Hrep.
  destruct (f1_fold_ok precision total c scores [] 0%Q Hprec) as [avg Hfold].
  - destruct Hrep as [Hnd _]. exact Hnd.
  - intros [k s] Hin. cbn [fst snd].
    destruct (represents_entry _ _ _ _ _ _ Hrep Hin) as [-> [Hm [Hc Ht]]].
    auto.
  - eexists. split; [exact Hfold|].
    intros k. cbn [f1_recall_scores f1_scores app].
    rewrite (dict_get_map_values _ str_eqb_eq _
               (fun k s => (inject_Z s / inject_Z (c k))%Q)).
    rewrite (dict_get_map_values _ str_eqb_eq _
               (fun k s => f1_value (dict_get str_eqb precision k)
                             (inject_Z s / inject_Z (c k))%Q)).
    destruct Hrep as [_ [_ Hrep]]. destruct (Hrep k) as [_ [_ Hs]].
    cbn [fst] in Hs. rewrite Hs.
    destruct (c k =? 0); split; reflexivity.
Qed.

Lemma ratio_some_nonneg :
  forall sentinel k xs others p,
    length others = length xs ->
    ratio sentinel k xs others = Some p -> (0 <= p)%Q.
Proof.
  intros sentinel k xs others p Hlen Hr. unfold ratio in Hr.
  destruct (tally_ok sentinel xs others Hlen) as [st [_ [_ [_ Hrep]]]].
  destruct (Hrep k) as [Hm _].
  destruct (support sentinel k xs =? 0) eqn:Hc; [discriminate|].
  apply Z.eqb_neq in Hc. injection Hr as <-.
  apply ratio_nonneg; lia.
Qed.

(** ** C7: per-tag precision, recall and F1 *)

(** C7. On parallel lists of predicted and gold tag-sets, the three loops
    of [computeF1] run to their end and leave these tables: the precision
    of a tag is (number of predicted entries of the tag whose value is not
    ["NULL"] and equals the gold value) / (number of predicted entries of
    the tag whose value is not ["NULL"]), present when that number is not
    0; its recall is the same ratio over the gold entries whose value is
    not ["_"], compared with the predictions; its F1, present with the
    recall, is [2 * (p * r) / (p + r)], and 0 when the recall is 0 or the
    tag has no precision. [computeF1] is then the four divisions that
    remain, made on these tables. *)
Theorem computeF1_per_tag :
  forall hyps golds : list word_tags,
    length golds = length hyps ->
    exists p r f1_precision_scores st,
      tally "NULL" hyps golds = Ok p
      /\ per_tag (fst p) (snd p) = Ok f1_precision_scores
      /\ tally "_" golds hyps = Ok r
      /\ f1_loop f1_precision_scores (fst r) (snd r) = Ok st
      /\ computeF1 hyps golds =
           (f1_micro_precision <-
              py_div (sum_values (fst p)) (sum_values (snd p)) ;;
            f1_micro_recall <-
              py_div (sum_values (fst r)) (sum_values (snd r)) ;;
            f1_average <-
              py_divQ (f1_average st) (inject_Z (sum_values (snd r))) ;;
            f1_micro_score <-
              py_divQ (2 * (f1_micro_precision * f1_micro_recall))%Q
                      (f1_micro_precision + f1_micro_recall)%Q ;;
            Ok (f1_average, f1_micro_score))
      /\ forall k,
           dict_get str_eqb f1_precision_scores k
           = ratio "NULL" k hyps golds
           /\ dict_get str_eqb (f1_recall_scores st) k
              = ratio "_" k golds hyps
           /\ dict_get str_eqb (f1_scores st) k
              = option_map (f1_value (ratio "NULL" k hyps golds))
                  (ratio "_" k golds hyps).
Proof.
  intros hyps golds Hlen.
  destruct (tally_ok "NULL" hyps golds Hlen) as [[ps pt] [Hp Hprep]].
  destruct (per_tag_ok ps pt _ _ Hprep) as [precision [Hprec Hpget]].
  destruct (tally_ok "_" golds hyps (eq_sym Hlen)) as [[rs rt] [Hr Hrrep]].
  assert (Hnonneg : forall k q, dict_get str_eqb precision k = Some q ->
                                (0 <= q)%Q).
  { intros k q Hq. rewrite Hpget in Hq.
    apply (ratio_some_nonneg "NULL" k hyps golds q Hlen). exact Hq. }
  destruct (f1_loop_ok precision rs rt _ _ Hnonneg Hrrep) as [st [Hloop Hst]].
  exists (ps, pt), (rs, rt), precision, st. cbn [fst snd].
  split; [exact Hp|]. split; [exact Hprec|]. split; [exact Hr|].
  split; [exact Hloop|]. split.
  - unfold computeF1. rewrite Hp. cbn [bind fst snd].
    destruct (py_div (sum_values ps) (sum_values pt)) as [mp|e];
      [|reflexivity].
    cbn [bind]. rewrite Hprec. cbn [bind]. rewrite Hr. cbn [bind fst snd].
    destruct (py_div (sum_values rs) (sum_values rt)) as [mr|e];
      [|reflexivity].
    cbn [bind]. rewrite Hloop. reflexivity.
  - intros k. destruct (Hst k) as [HR HF].
    split; [apply Hpget|]. split; [exact HR|].
    rewrite HF, Hpget. unfold ratio.
    destruct (support "_" k golds =? 0); reflexivity.
Qed.

Lemma computeF1_per_tag_witness :
  computeF1 [[("POS", "NOUN"); ("Case", "Acc"); ("Number", "NULL")]]%string
            [[("POS", "NOUN"); ("Case", "Nom"); ("Number", "_")]]%string
  = Ok ((2 # 4)%Q, (2 * ((1 # 2) * (1 # 2)) / ((1 # 2) + (1 # 2)))%Q)
  /\ exists p r f1_precision_scores st,
       tally "NULL" [[("POS", "NOUN"); ("Case", "Acc"); ("Number", "NULL")]]%string
                    [[("POS", "NOUN"); ("Case", "Nom"); ("Number", "_")]]%string
       = Ok p
       /\ per_tag (fst p) (snd p) = Ok f1_precision_scores
       /\ tally "_" [[("POS", "NOUN"); ("Case", "Nom"); ("Number", "_")]]%string
                    [[("POS", "NOUN"); ("Case", "Acc"); ("Number", "NULL")]]%string
          = Ok r
       /\ f1_loop f1_precision_scores (fst r) (snd r) = Ok st.
Proof.
  split; [vm_compute; reflexivity|].
  destruct (computeF1_per_tag
              [[("POS", "NOUN"); ("Case", "Acc"); ("Number", "NULL")]]%string
              [[("POS", "NOUN"); ("Case", "Nom"); ("Number", "_")]]%string
              eq_refl)
    as [p [r [f1p [st [H1 [H2 [H3 [H4 _]]]]]]]].
  exists p, r, f1p, st. auto.
Defined.

(** ** C8: the unguarded divisions *)

(** C8. [computeF1] divides without looking at the denominator: when every
    predicted value is ["NULL"] the precision tables stay empty and the
    micro-precision is [0 / 0]; when the one shared tag never agrees, the
    micro-precision and the micro-recall are both 0 and the micro F1 is
    [0 / 0]. Either way the call ends in [ZeroDivisionError]; no tag is
    skipped and no score is set to 0. *)
Theorem computeF1_zero_division :
  (tally "NULL" [[("POS", "NULL")]]%string [[("POS", "NOUN")]]%string = Ok ([], [])
   /\ py_div (sum_values []) (sum_values []) = Err ZeroDivisionError
   /\ computeF1 [[("POS", "NULL")]]%string [[("POS", "NOUN")]]%string
      = Err ZeroDivisionError)
  /\ (py_div (sum_values [("Case", 0)]%string) (sum_values [("Case", 1)]%string) = Ok 0%Q
      /\ tally "NULL" [[("Case", "Acc")]]%string [[("Case", "Nom")]]%string
         = Ok ([("Case", 0)], [("Case", 1)])%string
      /\ tally "_" [[("Case", "Nom")]]%string [[("Case", "Acc")]]%string
         = Ok ([("Case", 0)], [("Case", 1)])%string
      /\ py_divQ (2 * (0 * 0))%Q (0 + 0)%Q = Err ZeroDivisionError
      /\ computeF1 [[("Case", "Acc")]]%string [[("Case", "Nom")]]%string
         = Err ZeroDivisionError).
Proof.
  repeat split; reflexivity.
Qed.

End ScorerProofs.

(** ** Log-space kernel: proofs *)

Module LogSpaceProofs.

Import LogSpace PyFacts.
Local Open Scope R_scope.

(** *** Sums of exponentials *)

Lemma dot_product_exp_nonneg :
  forall r c, 0 <= dot_product (map exp r) (map exp c).
Proof.
  induction r as [|x r IH]; intros [|y c]; simpl; try lra.
  specialize (IH c).
  assert (0 < exp x * exp y)
    by (apply Rmult_lt_0_compat; apply exp_pos).
  lra.
Qed.

Lemma dot_product_exp_pos :
  forall r c, r <> [] -> c <> [] -> 0 < dot_product (map exp r) (map exp c).
Proof.
  intros [|x r] [|y c] Hr Hc; try contradiction. simpl.
  assert (0 < exp x * exp y)
    by (apply Rmult_lt_0_compat; apply exp_pos).
  assert (H0 := dot_product_exp_nonneg r c). lra.
Qed.

(** Subtracting the maxima scales every product by one factor. *)
Lemma dot_product_shift :
  forall ma mb r c,
    dot_product (map (fun x => exp (x - ma)) r) (map (fun y => exp (y - mb)) c)
    = exp (- (ma + mb)) * dot_product (map exp r) (map exp c).
Proof.
  intros ma mb; induction r as [|x r IH]; intros [|y c]; simpl;
    try (rewrite Rmult_0_r; reflexivity).
  rewrite IH, Rmult_plus_distr_l. f_equal.
  rewrite <- !exp_plus. f_equal. ring.
Qed.

(** The stabilisation does not change an entry. *)
Lemma stabilised_entry :
  forall ma mb r c,
    r <> [] -> c <> [] ->
    ln (dot_product (map (fun x => exp (x - ma)) r)
                    (map (fun y => exp (y - mb)) c)) + (ma + mb)
    = ln (dot_product (map exp r) (map exp c)).
Proof.
  intros ma mb r c Hr Hc.
  rewrite dot_product_shift.
  rewrite ln_mult; [|apply exp_pos|apply dot_product_exp_pos; assumption].
  rewrite ln_exp. ring.
Qed.

(** *** Shapes *)

Lemma shape_ncols :
  forall a n k, shape a n k -> (1 <= n)%nat -> ncols a = k.
Proof.
  intros [|row a] n k [Hlen Hrows] Hn; simpl in *; [lia|].
  inversion Hrows; assumption.
Qed.

Lemma shape_map :
  forall (f : R -> R) a n k, shape a n k -> shape (map (map f) a) n k.
Proof.
  intros f a n k [Hlen Hrows]. split.
  - rewrite length_map. exact Hlen.
  - apply Forall_forall. intros row Hin. apply in_map_iff in Hin.
    destruct Hin as [row0 [<- Hin0]]. rewrite length_map.
    exact (proj1 (Forall_forall _ _) Hrows row0 Hin0).
Qed.

Lemma col_length : forall j a, length (col j a) = length a.
Proof. intros j a. unfold col. apply length_map. Qed.

Lemma col_map :
  forall (f : R -> R) a n k j,
    shape a n k -> (j < k)%nat ->
    col j (map (map f) a) = map f (col j a).
Proof.
  intros f a n k j [_ Hrows] Hj. unfold col. rewrite !map_map.
  apply map_ext_in. intros row Hin.
  assert (Hrow := proj1 (Forall_forall _ _) Hrows row Hin).
  cbv beta in Hrow.
  rewrite (nth_indep _ 0 (f 0)) by (rewrite length_map; lia).
  apply map_nth.
Qed.

Lemma shape_transpose :
  forall a n k, shape a n k -> (1 <= n)%nat -> shape (transpose a) k n.
Proof.
  intros a n k Hs Hn. unfold transpose.
  rewrite (shape_ncols a n k Hs Hn). destruct Hs as [Hlen _]. split.
  - rewrite length_map, length_seq. reflexivity.
  - apply Forall_forall. intros c Hin. apply in_map_iff in Hin.
    destruct Hin as [j [<- _]]. rewrite col_length. exact Hlen.
Qed.

Lemma amax_ok :
  forall a n k,
    shape a n k -> (1 <= n)%nat -> (1 <= k)%nat -> exists x, amax a = Ok x.
Proof.
  intros [|[|x row] a] n k [Hlen Hrows] Hn Hk; simpl in *; try lia.
  - inversion Hrows as [|? ? H _]; subst. simpl in Hk. lia.
  - unfold amax. simpl. eauto.
Qed.

(** *** [logDot] *)

Lemma logDot_core :
  forall a b n k m ma mb,
    shape a n k -> shape b k m ->
    (1 <= n)%nat -> (1 <= k)%nat -> (1 <= m)%nat ->
    (C <- dot (mexp (sub_scalar a ma)) (mexp (sub_scalar b mb)) ;;
     Ok (add_scalar (mlog C) (ma + mb)))
    = Ok (log_matmul a b).
Proof.
  intros a b n k m ma mb Ha Hb Hn Hk Hm.
  unfold dot, mexp, sub_scalar. rewrite !map_map.
  assert (Ha' := shape_map (fun x => exp (x - ma)) a n k Ha).
  assert (Hb' := shape_map (fun x => exp (x - mb)) b k m Hb).
  assert (Hbe := shape_map exp b k m Hb).
  rewrite !(map_ext (fun row => map exp (map (fun x => x - ma) row))
              (map (fun x => exp (x - ma))))
    by (intros; apply map_map).
  rewrite !(map_ext (fun row => map exp (map (fun x => x - mb) row))
              (map (fun x => exp (x - mb))))
    by (intros; apply map_map).
  rewrite (shape_ncols _ n k Ha' Hn).
  unfold nrows. rewrite (proj1 Hb'), Nat.eqb_refl. cbn [bind].
  f_equal. unfold log_matmul, add_scalar, mlog, matmul, mexp.
  rewrite (shape_ncols _ k m Hb' Hk), (shape_ncols _ k m Hbe Hk).
  rewrite !map_map. apply map_ext_in. intros row Hrow.
  rewrite !map_map. apply map_ext_in. intros j Hj. apply in_seq in Hj.
  rewrite (col_map (fun x => exp (x - mb)) b k m j Hb) by lia.
  rewrite (col_map exp b k m j Hb) by lia.
  apply stabilised_entry.
  - assert (Hlen := proj1 (Forall_forall _ _) (proj2 Ha) row Hrow).
    cbv beta in Hlen. intros ->. simpl in Hlen. lia.
  - intros Hnil. assert (Hlen := col_length j b).
    rewrite Hnil, (proj1 Hb) in Hlen. simpl in Hlen. lia.
Qed.

(** A zero-size array has no maximum: [logDot] needs entries. *)
Lemma logDot_zero_size :
  forall (b : matrix) (redAxis : option Z),
    logDot [] b redAxis = Err ValueError
    /\ logDot [[]] b redAxis = Err ValueError.
Proof. intros b redAxis. split; reflexivity. Qed.

(** The flag off: the product as it is. *)
Lemma logDot_plain :
  forall (a b : matrix) (n k m : nat) (redAxis : option Z),
    (1 <= n)%nat -> (1 <= k)%nat -> (1 <= m)%nat ->
    shape a n k -> shape b k m -> is_one redAxis = false ->
    logDot a b redAxis = Ok (log_matmul a b).
Proof.
  intros a b n k m redAxis Hn Hk Hm Ha Hb Hone.
  unfold logDot; rewrite Hone.
  destruct (amax_ok a n k Ha Hn Hk) as [ma Hma].
  destruct (amax_ok b k m Hb Hk Hm) as [mb Hmb].
  rewrite Hma, Hmb. cbn [bind].
  exact (logDot_core a b n k m ma mb Ha Hb Hn Hk Hm).
Qed.

(** The flag on: [b] is transposed before the product, the result after. *)
Lemma logDot_transposed :
  forall (a b : matrix) (n k m : nat) (redAxis : option Z),
    (1 <= n)%nat -> (1 <= k)%nat -> (1 <= m)%nat ->
    shape a n k -> shape b m k -> is_one redAxis = true ->
    logDot a b redAxis = Ok (transpose (log_matmul a (transpose b))).
Proof.
  intros a b n k m redAxis Hn Hk Hm Ha Hb Hone.
  unfold logDot; rewrite Hone.
  assert (Hbt := shape_transpose b m k Hb Hm).
  destruct (amax_ok a n k Ha Hn Hk) as [ma Hma].
  destruct (amax_ok (transpose b) k m Hbt Hk Hm) as [mb Hmb].
  rewrite Hma, Hmb. cbn [bind].
  assert (Hcore := logDot_core a (transpose b) n k m ma mb Ha Hbt Hn Hk Hm).
  destruct (dot (mexp (sub_scalar a ma))
                (mexp (sub_scalar (transpose b) mb))) as [C|e];
    cbn [bind] in *; [|discriminate].
  injection Hcore as ->. reflexivity.
Qed.

(** ** C1: [logDot] is the matrix product in log space *)

(** C1 (as the code has it). For matrices with at least one row and one
    column and of compatible shapes, in exact real arithmetic: when
    [redAxis] is not 1, [logDot(A, B, redAxis)] is [log(exp(A) . exp(B))];
    when [redAxis] is 1, [B] is transposed before the product and the
    result is transposed after it, so [logDot(A, B, 1)] is the transpose
    of [log(exp(A) . exp(B^T))]. Subtracting the maxima of [A] and [B]
    before the exponentials and adding them back after the logarithm does
    not change the value. *)
Theorem logDot_spec :
  forall (a b : matrix) (n k m : nat) (redAxis : option Z),
    (1 <= n)%nat -> (1 <= k)%nat -> (1 <= m)%nat ->
    shape a n k ->
    (shape b k m -> is_one redAxis = false ->
     logDot a b redAxis = Ok (log_matmul a b))
    /\ (shape b m k -> is_one redAxis = true ->
        logDot a b redAxis = Ok (transpose (log_matmul a (transpose b)))).
Proof.
  intros a b n k m redAxis Hn Hk Hm Ha. split; intros Hb Hone.
  - exact (logDot_plain a b n k m redAxis Hn Hk Hm Ha Hb Hone).
  - exact (logDot_transposed a b n k m redAxis Hn Hk Hm Ha Hb Hone).
Qed.

Ltac prove_shape :=
  split; [reflexivity|repeat constructor].

Lemma logDot_spec_witness :
  logDot [[0; 0]; [0; 0]] [[0; 0]; [1; 1]] None
  = Ok (log_matmul [[0; 0]; [0; 0]] [[0; 0]; [1; 1]])
  /\ logDot [[0; 0]; [0; 0]] [[0; 0]; [1; 1]] (Some 1%Z)
     = Ok (transpose (log_matmul [[0; 0]; [0; 0]]
                        (transpose [[0; 0]; [1; 1]]))).
Proof.
  split;
    apply (logDot_spec [[0; 0]; [0; 0]] [[0; 0]; [1; 1]] 2 2 2);
    try lia; try prove_shape; reflexivity.
Defined.

(** C1 (as the claim has it) fails for [redAxis = 1]: the claim makes the
    flag transpose [B] only, the code transposes the result too. With
    [A] all zeros and [B = [[0, 0], [1, 1]]], entry (0, 1) of
    [log(exp(A) . exp(B^T))] is [ln (2 e)] and entry (0, 1) of what
    [logDot] returns is [ln 2]. *)
Lemma logDot_axis_one_transposes_result :
  logDot [[0; 0]; [0; 0]] [[0; 0]; [1; 1]] (Some 1%Z)
  <> Ok (log_matmul [[0; 0]; [0; 0]] (transpose [[0; 0]; [1; 1]])).
Proof.
  assert (H : logDot [[0; 0]; [0; 0]] [[0; 0]; [1; 1]] (Some 1%Z)
              = Ok (transpose (log_matmul [[0; 0]; [0; 0]]
                                 (transpose [[0; 0]; [1; 1]])))).
  { apply (logDot_transposed [[0; 0]; [0; 0]] [[0; 0]; [1; 1]] 2 2 2);
      try lia; try prove_shape; reflexivity. }
  rewrite H. clear H.
  cbn [log_matmul transpose mlog matmul mexp col ncols map seq nth length
       dot_product].
  intros Heq. injection Heq as Heq _.
  apply ln_inv in Heq.
  - rewrite exp_0 in Heq.
    assert (He := exp_ineq1 1 ltac:(lra)). lra.
  - rewrite exp_0. lra.
  - rewrite exp_0. assert (He := exp_pos 1). lra.
Qed.

(** *** [logNormalize] *)

Lemma sum_exp_nonneg : forall l, 0 <= sum (map exp l).
Proof.
  induction l as [|x l IH]; simpl; [lra|].
  assert (H := exp_pos x). lra.
Qed.

Lemma sum_exp_pos : forall l, l <> [] -> 0 < sum (map exp l).
Proof.
  intros [|x l] Hne; [contradiction|]. simpl.
  assert (H := exp_pos x). assert (H0 := sum_exp_nonneg l). lra.
Qed.

(** Folding [logaddexp] along a row gives the logarithm of the sum of the
    exponentials. *)
Lemma fold_logaddexp :
  forall xs x,
    fold_left logaddexp xs x = ln (exp x + sum (map exp xs)).
Proof.
  induction xs as [|y xs IH]; intros x; simpl.
  - rewrite Rplus_0_r, ln_exp. reflexivity.
  - rewrite IH. unfold logaddexp. rewrite exp_ln.
    + f_equal. ring.
    + assert (H1 := exp_pos x). assert (H2 := exp_pos y). lra.
Qed.

Lemma logaddexp_reduce_logsumexp :
  forall row, row <> [] -> logaddexp_reduce row = Some (logsumexp row).
Proof.
  intros [|x xs] Hne; [contradiction|]. unfold logaddexp_reduce, logsumexp.
  rewrite fold_logaddexp. reflexivity.
Qed.

Lemma reduce_rows_logsumexp :
  forall a,
    Forall (fun row => row <> []) a ->
    reduce_rows a = map Some (map logsumexp a).
Proof.
  intros a H; induction H as [|row a Hrow _ IH]; [reflexivity|].
  unfold reduce_rows in *. cbn [map].
  rewrite (logaddexp_reduce_logsumexp row Hrow), IH. reflexivity.
Qed.

(** Real denominators give a real difference. *)
Lemma sub_broadcast_real :
  forall (m : matrix) (denom : list R),
    sub_broadcast m (map Some denom)
    = Some (map (fun row => map (fun p => fst p - snd p) (combine row denom))
              m).
Proof.
  intros m denom. unfold sub_broadcast.
  assert (Hrow : forall row,
    all_some (map (fun p => sub_ext (fst p) (snd p))
                (combine row (map Some denom)))
    = Some (map (fun p => fst p - snd p) (combine row denom))).
  { intros row. revert denom.
    induction row as [|x row IH]; intros [|d denom]; try reflexivity.
    cbn [map combine all_some fst snd sub_ext]. rewrite IH. reflexivity. }
  induction m as [|row m IH]; [reflexivity|].
  cbn [map all_some]. rewrite Hrow, IH. reflexivity.
Qed.

Lemma shape_rows_nonempty :
  forall a n k,
    shape a n k -> (1 <= k)%nat -> Forall (fun row => row <> []) a.
Proof.
  intros a n k [_ Hrows] Hk. eapply Forall_impl; [|exact Hrows].
  intros row Hlen ->. simpl in Hlen. lia.
Qed.

Lemma nth_map_in :
  forall (A B : Type) (f : A -> B) (l : list A) (i : nat) (d' : B) (d : A),
    (i < length l)%nat -> nth i (map f l) d' = f (nth i l d).
Proof.
  intros A B f l i d' d Hi.
  rewrite (nth_indep _ d' (f d)) by (rewrite length_map; exact Hi).
  apply map_nth.
Qed.

Lemma nth_map_seq :
  forall (A : Type) (f : nat -> A) (n i : nat) (d : A),
    (i < n)%nat -> nth i (map f (seq 0 n)) d = f i.
Proof.
  intros A f n i d Hi.
  rewrite (nth_indep _ d (f 0%nat)) by (rewrite length_map, length_seq; lia).
  rewrite map_nth, seq_nth by lia. reflexivity.
Qed.

(** Transposing, subtracting a vector along the last axis and transposing
    back subtracts from each row its own entry of the vector. *)
Lemma transpose_sub_transpose :
  forall a n k denom,
    shape a n k -> (1 <= k)%nat -> length denom = n ->
    transpose_of n
      (map (fun row => map (fun p => fst p - snd p) (combine row denom))
         (transpose a)) =
    map (fun p => map (fun x => x - snd p) (fst p)) (combine a denom).
Proof.
  intros a n k denom Ha Hk Hd.
  destruct (Nat.eq_dec n 0) as [Hn0|Hn0].
  - destruct Ha as [Hlen _]. subst n.
    destruct a; [rewrite Hn0; reflexivity|simpl in Hn0; lia].
  - assert (Hn : (1 <= n)%nat) by lia.
    assert (Hcols := shape_ncols a n k Ha Hn).
    destruct Ha as [Hlen Hrows].
    assert (Hsub : map (fun row => map (fun p => fst p - snd p)
                                     (combine row denom)) (transpose a) =
                   map (fun j => map (fun p => fst p - snd p)
                                   (combine (col j a) denom)) (seq 0 k)).
    { unfold transpose. rewrite Hcols, map_map. reflexivity. }
    rewrite Hsub. unfold transpose_of.
    rewrite <- (map_nth_all _ (combine a denom) ([], 0)).
    rewrite length_combine, map_map.
    replace (Nat.min (length a) (length denom)) with n by lia.
    apply map_ext_in. intros i Hi. apply in_seq in Hi.
    unfold col at 1. rewrite map_map.
    rewrite combine_nth by lia. cbn [fst snd].
    assert (Hrow : length (nth i a []) = k).
    { apply (proj1 (Forall_forall _ _) Hrows). apply nth_In. lia. }
    rewrite <- (map_nth_all _ (nth i a []) 0) at 1.
    rewrite Hrow, map_map. apply map_ext_in. intros j Hj.
    rewrite (nth_map_in _ _ (fun p : R * R => fst p - snd p) _ i 0 (0, 0))
      by (rewrite length_combine, col_length; lia).
    rewrite combine_nth by (rewrite col_length; lia).
    cbn [fst snd]. f_equal.
    unfold col.
    apply (nth_map_in _ _ (fun row : list R => nth j row 0) a i 0 []). lia.
Qed.

Lemma combine_map_self :
  forall (A B : Type) (f : A -> B) (l : list A),
    combine l (map f l) = map (fun x => (x, f x)) l.
Proof.
  intros A B f l; induction l as [|x l IH]; simpl; [reflexivity|].
  rewrite IH. reflexivity.
Qed.

(** [logNormalize] subtracts from each row its log-sum-exp. *)
Lemma logNormalize_rows :
  forall a n k,
    shape a n k -> (1 <= k)%nat ->
    logNormalize a =
    Some (map (fun row => map (fun x => x - logsumexp row) row) a).
Proof.
  intros a n k Ha Hk. unfold logNormalize. cbv zeta.
  rewrite (reduce_rows_logsumexp a (shape_rows_nonempty a n k Ha Hk)).
  rewrite sub_broadcast_real. unfold nrows. rewrite (proj1 Ha).
  rewrite (transpose_sub_transpose a n k) by
    (assumption || (rewrite length_map; exact (proj1 Ha))).
  rewrite combine_map_self, map_map. reflexivity.
Qed.

(** An array with rows and no column is returned as it is. *)
Lemma logNormalize_no_column :
  forall a n, shape a n 0 -> logNormalize a = Some a.
Proof.
  intros a n [_ Hrows].
  assert (Hnc : ncols a = 0%nat).
  { destruct Hrows as [|row a Hrow _]; [reflexivity|exact Hrow]. }
  unfold logNormalize, transpose. cbv zeta. rewrite Hnc.
  cbn [seq map sub_broadcast all_some]. apply f_equal.
  unfold transpose_of, nrows, col. cbn [map]. clear Hnc.
  generalize 0%nat as s.
  induction Hrows as [|row a Hrow _ IH]; intros s; [reflexivity|].
  cbn [length seq map]. rewrite IH.
  destruct row; [reflexivity|discriminate].
Qed.

Lemma sum_scale :
  forall (f : R -> R) (c : R) (l : list R),
    sum (map (fun x => f x * c) l) = sum (map f l) * c.
Proof.
  intros f c l; induction l as [|x l IH]; simpl; [ring|].
  rewrite IH. ring.
Qed.

(** After normalisation the exponentials of a row add up to 1. *)
Lemma normalised_row_sum :
  forall row,
    row <> [] ->
    sum (map exp (map (fun x => x - logsumexp row) row)) = 1.
Proof.
  intros row Hne. rewrite map_map.
  assert (Hpos := sum_exp_pos row Hne).
  rewrite (map_ext (fun x => exp (x - logsumexp row))
             (fun x => exp x * / sum (map exp row))).
  - rewrite sum_scale. field. lra.
  - intros x. unfold Rminus. rewrite exp_plus, exp_Ropp.
    unfold logsumexp. rewrite exp_ln by exact Hpos. reflexivity.
Qed.

Lemma normalised_shape :
  forall a n k,
    shape a n k ->
    shape (map (fun row => map (fun x => x - logsumexp row) row) a) n k.
Proof.
  intros a n k [Hlen Hrows]. split; [rewrite length_map; exact Hlen|].
  apply Forall_forall. intros row Hin. apply in_map_iff in Hin.
  destruct Hin as [row0 [<- Hin0]]. rewrite length_map.
  exact (proj1 (Forall_forall _ _) Hrows row0 Hin0).
Qed.

Lemma normalised_sums :
  forall a n k,
    shape a n k -> (1 <= k)%nat ->
    Forall (fun row => sum (map exp row) = 1)
      (map (fun row => map (fun x => x - logsumexp row) row) a).
Proof.
  intros a n k Ha Hk.
  apply Forall_forall. intros row Hin. apply in_map_iff in Hin.
  destruct Hin as [row0 [<- Hin0]].
  apply normalised_row_sum.
  exact (proj1 (Forall_forall _ _) (shape_rows_nonempty a n k Ha Hk)
           row0 Hin0).
Qed.

(** ** C9: [logNormalize] makes every row a distribution *)

(** C9 (as the code has it). In exact real arithmetic, [logNormalize(a)]
    is [a] with the log-sum-exp of each row subtracted from the entries of
    that row, and it has the shape of [a]. When [a] has at least one
    column, the exponentials of each row of the result add up to 1; the
    rows of an array without columns have no entry, and they add up
    to 0. *)
Theorem logNormalize_spec :
  forall (a : matrix) (n k : nat),
    shape a n k ->
    exists normalised,
      logNormalize a = Some normalised
      /\ normalised = map (fun row => map (fun x => x - logsumexp row) row) a
      /\ shape normalised n k
      /\ Forall (fun row =>
                   sum (map exp row) = if (1 <=? k)%nat then 1 else 0)
                normalised.
Proof.
  intros a n k Ha.
  exists (map (fun row => map (fun x => x - logsumexp row) row) a).
  destruct (1 <=? k)%nat eqn:Ek.
  - apply Nat.leb_le in Ek.
    split; [exact (logNormalize_rows a n k Ha Ek)|].
    split; [reflexivity|]. split.
    + exact (normalised_shape a n k Ha).
    + exact (normalised_sums a n k Ha Ek).
  - apply Nat.leb_gt in Ek. assert (k = 0%nat) by lia. subst k.
    assert (Hsame : map (fun row => map (fun x => x - logsumexp row) row) a
                    = a).
    { destruct Ha as [_ Hrows].
      induction Hrows as [|row a Hrow _ IH]; [reflexivity|].
      cbn [map]. rewrite IH.
      destruct row; [reflexivity|discriminate]. }
    rewrite Hsame.
    split; [exact (logNormalize_no_column a n Ha)|].
    split; [reflexivity|]. split; [exact Ha|].
    destruct Ha as [_ Hrows].
    eapply Forall_impl; [|exact Hrows].
    intros row Hrow. destruct row; [reflexivity|discriminate].
Qed.

Lemma logNormalize_spec_witness :
  exists normalised,
    logNormalize [[0; 1; 2]; [3; 3; 3]] = Some normalised
    /\ Forall (fun row => sum (map exp row) = 1) normalised.
Proof.
  destruct (logNormalize_spec [[0; 1; 2]; [3; 3; 3]] 2 3)
    as [m [Hrun [_ [_ Hsum]]]].
  - split; [reflexivity|repeat constructor].
  - exists m. split; [exact Hrun|exact Hsum].
Defined.

(** C9, the counterexample: the array of one row and no column is
    returned as it is, and the exponentials of its row do not add up
    to 1. *)
Theorem logNormalize_no_column_sum :
  exists normalised,
    logNormalize [[]] = Some normalised
    /\ ~ Forall (fun row => sum (map exp row) = 1) normalised.
Proof.
  exists [[]]. split; [reflexivity|].
  intros H. inversion H as [|row rest Hrow _]; subst.
  cbn in Hrow. lra.
Qed.

(** ** C10: [logNormalize] is idempotent *)

(** C10 (as the code has it). In exact real arithmetic, normalising once
    more returns the same matrix:
    [logNormalize(logNormalize(a)) = logNormalize(a)]. When [a] has at
    least one column every row of [logNormalize(a)] has log-sum-exp 0 -
    [np.logaddexp.reduce] returns 0 on it; on the rows of an array without
    columns it returns minus infinity. *)
Theorem logNormalize_idempotent :
  forall (a : matrix) (n k : nat),
    shape a n k ->
    exists normalised,
      logNormalize a = Some normalised
      /\ logNormalize normalised = Some normalised
      /\ Forall (fun row =>
                   if (1 <=? k)%nat
                   then logaddexp_reduce row = Some 0 /\ logsumexp row = 0
                   else logaddexp_reduce row = None)
                normalised.
Proof.
  intros a n k Ha.
  destruct (1 <=? k)%nat eqn:Ek.
  - apply Nat.leb_le in Ek. rename Ek into Hk.
    set (m := map (fun row => map (fun x => x - logsumexp row) row) a).
    assert (Hrun : logNormalize a = Some m)
      by exact (logNormalize_rows a n k Ha Hk).
    assert (Hm : shape m n k) by exact (normalised_shape a n k Ha).
    assert (Hsum : Forall (fun row => sum (map exp row) = 1) m)
      by exact (normalised_sums a n k Ha Hk).
    assert (Hzero : Forall (fun row => logsumexp row = 0) m).
    { eapply Forall_impl; [|exact Hsum].
      intros row Hrow. unfold logsumexp. rewrite Hrow. apply ln_1. }
    exists m. split; [exact Hrun|]. split.
    + rewrite (logNormalize_rows m n k Hm Hk). apply f_equal.
      transitivity (map (fun row : list R => row) m); [|apply map_id].
      apply map_ext_in. intros row Hin.
      rewrite (proj1 (Forall_forall _ _) Hzero row Hin).
      transitivity (map (fun x : R => x) row); [|apply map_id].
      apply map_ext. intros x. ring.
    + apply Forall_forall. intros row Hin.
      assert (H0 := proj1 (Forall_forall _ _) Hzero row Hin). cbv beta in H0.
      split; [|exact H0].
      rewrite logaddexp_reduce_logsumexp, H0; [reflexivity|].
      exact (proj1 (Forall_forall _ _) (shape_rows_nonempty m n k Hm Hk)
               row Hin).
  - apply Nat.leb_gt in Ek. assert (k = 0%nat) by lia. subst k.
    exists a.
    split; [exact (logNormalize_no_column a n Ha)|].
    split; [exact (logNormalize_no_column a n Ha)|].
    destruct Ha as [_ Hrows].
    eapply Forall_impl; [|exact Hrows].
    intros row Hrow. destruct row; [reflexivity|discriminate].
Qed.

Lemma logNormalize_idempotent_witness :
  exists normalised,
    logNormalize [[0; 1; 2]; [3; 3; 3]] = Some normalised
    /\ logNormalize normalised = Some normalised
    /\ Forall (fun row => logaddexp_reduce row = Some 0) normalised.
Proof.
  destruct (logNormalize_idempotent [[0; 1; 2]; [3; 3; 3]] 2 3)
    as [m [Hrun [Hidem Hzero]]].
  - split; [reflexivity|repeat constructor].
  - exists m. split; [exact Hrun|]. split; [exact Hidem|].
    eapply Forall_impl; [|exact Hzero].
    intros row Hrow. exact (proj1 Hrow).
Defined.

(** C10, the counterexample: on the array of one row and no column
    [logNormalize] is idempotent, and the log-sum-exp of the row of the
    result is minus infinity, not 0. *)
Theorem logNormalize_no_column_idempotent :
  exists normalised,
    logNormalize [[]] = Some normalised
    /\ logNormalize normalised = Some normalised
    /\ Forall (fun row => logaddexp_reduce row = None) normalised.
Proof.
  exists [[]]. split; [reflexivity|]. split; [reflexivity|].
  constructor; [reflexivity|constructor].
Qed.

End LogSpaceProofs.

(** ** The error monad and lists: further facts *)

Module CommonFacts.

Import PyFacts.

Lemma mapM_pointwise :
  forall (A B : Type) (f : A -> result B) (g : A -> B) (l : list A),
    (forall a, In a l -> f a = Ok (g a)) -> mapM f l = Ok (map g l).
Proof.
  intros A B f g l H.
  rewrite <- (map_id l) at 1. apply mapM_map_ok. exact H.
Qed.

(** A comprehension whose element either succeeds or raises [e]: the
    first failure, if any, is the result. *)
Lemma mapM_all_or_err :
  forall (A B : Type) (f : A -> result B) (P : A -> B -> Prop) (e : pyerr)
         (ok : A -> bool),
    (forall a, if ok a then exists b, f a = Ok b /\ P a b else f a = Err e) ->
    forall l,
      if forallb ok l
      then exists bs, mapM f l = Ok bs /\ Forall2 P l bs
      else mapM f l = Err e.
Proof.
  intros A B f P e ok Hf.
  induction l as [|a l IH]; cbn [forallb mapM].
  - exists []. split; [reflexivity|constructor].
  - specialize (Hf a). destruct (ok a); cbn [andb].
    + destruct Hf as [b [Hb HP]]. rewrite Hb. cbn [bind].
      destruct (forallb ok l).
      * destruct IH as [bs [Hbs HF]]. rewrite Hbs. cbn [bind].
        exists (b :: bs). split; [reflexivity|constructor; assumption].
      * rewrite IH. reflexivity.
    + rewrite Hf. reflexivity.
Qed.

Lemma mapM_Forall2 :
  forall (A B : Type) (f : A -> result B) (P : A -> B -> Prop) (l : list A),
    (forall a, In a l -> exists b, f a = Ok b /\ P a b) ->
    exists bs, mapM f l = Ok bs /\ Forall2 P l bs.
Proof.
  intros A B f P l. induction l as [|a l IH]; intros H.
  - exists []. split; [reflexivity|constructor].
  - destruct (H a (or_introl eq_refl)) as [b [Hb HP]].
    destruct IH as [bs [Hbs HF]];
      [intros x Hx; apply H; right; exact Hx|].
    exists (b :: bs). cbn [mapM]. rewrite Hb. cbn [bind]. rewrite Hbs.
    split; [reflexivity|constructor; assumption].
Qed.

Lemma Forall2_impl_in :
  forall (A B : Type) (R R' : A -> B -> Prop) (l1 : list A) (l2 : list B),
    (forall a b, In a l1 -> In b l2 -> R a b -> R' a b) ->
    Forall2 R l1 l2 -> Forall2 R' l1 l2.
Proof.
  intros A B R R' l1 l2 H HF.
  induction HF as [|a b l1 l2 Hab HF IH]; constructor.
  - apply H; [left; reflexivity|left; reflexivity|exact Hab].
  - apply IH. intros x y Hx Hy. apply H; right; assumption.
Qed.

Lemma foldM_app :
  forall (A S : Type) (f : S -> A -> result S) (l1 l2 : list A) (s : S),
    foldM f (l1 ++ l2) s = (s' <- foldM f l1 s ;; foldM f l2 s').
Proof.
  induction l1 as [|x l1 IH]; intros l2 s; [reflexivity|].
  cbn [app foldM]. destruct (f s x) as [s'|e]; cbn [bind]; [apply IH|reflexivity].
Qed.

Lemma py_index_beyond :
  forall (A : Type) (l : list A) (i : nat),
    (length l <= i)%nat -> py_index l (Z.of_nat i) = Err IndexError.
Proof.
  intros A l i Hle. unfold py_index.
  destruct (Z.of_nat i <? 0)%Z eqn:Hneg; [lia|].
  destruct (Z.of_nat (length l) <=? Z.of_nat i)%Z eqn:Hge; [|lia].
  rewrite orb_true_r. reflexivity.
Qed.

Lemma filter_all :
  forall (A : Type) (p : A -> bool) (l : list A),
    Forall (fun a => p a = true) l -> filter p l = l.
Proof.
  intros A p l H. induction H as [|a l Ha H IH]; [reflexivity|].
  cbn [filter]. rewrite Ha, IH. reflexivity.
Qed.

Lemma dict_get_found :
  forall (K V : Type) (eqb : K -> K -> bool) (d : list (K * V)) (k : K) (v : V),
    (forall a b, eqb a b = true <-> a = b) ->
    dict_get eqb d k = Some v -> In (k, v) d.
Proof.
  intros K V eqb d k v Heq. induction d as [|[k' v'] d IH]; intros H;
    [discriminate|].
  cbn [dict_get] in H. destruct (eqb k' k) eqn:E.
  - apply Heq in E. injection H as ->. subst. left. reflexivity.
  - right. apply IH. exact H.
Qed.

Lemma dict_set_Forall :
  forall (K V : Type) (eqb : K -> K -> bool) (Q : K * V -> Prop)
         (d : list (K * V)) (k : K) (v : V),
    (forall a b, eqb a b = true <-> a = b) ->
    Forall Q d -> Q (k, v) -> Forall Q (dict_set eqb d k v).
Proof.
  intros K V eqb Q d k v Heq Hd Hkv.
  induction Hd as [|[k' v'] d Hhd Hd IH]; cbn [dict_set].
  - constructor; [exact Hkv|constructor].
  - destruct (eqb k' k) eqn:E.
    + apply Heq in E. subst k'. constructor; assumption.
    + constructor; assumption.
Qed.

Lemma dict_mem_set :
  forall (K V : Type) (eqb : K -> K -> bool) (d : list (K * V)) (k k' : K)
         (v : V),
    (forall a b, eqb a b = true <-> a = b) ->
    dict_mem eqb (dict_set eqb d k v) k' = eqb k k' || dict_mem eqb d k'.
Proof.
  intros K V eqb d k k' v Heq. unfold dict_mem.
  rewrite (DictFacts.dict_get_set eqb Heq).
  destruct (eqb k k'); reflexivity.
Qed.

End CommonFacts.

(** ** Exact-match counter: proofs *)

Module AccuracyProofs.

Import Scorer Accuracy PyFacts DictFacts CommonFacts.
Local Open Scope Z_scope.

Lemma all_correct_ok :
  forall hyps i hyp items,
    py_index hyps i = Ok hyp ->
    all_correct hyps i items = Ok (compatible items hyp).
Proof.
  intros hyps i hyp items Hi.
  induction items as [|[k v] rest IH]; [reflexivity|].
  cbn [all_correct]. rewrite Hi. cbn [bind].
  unfold compatible in *. cbn [existsb]. unfold contradicts at 1. cbn [fst snd].
  unfold dict_mem.
  destruct (dict_get str_eqb hyp k) as [w|] eqn:Hget.
  - destruct (str_eqb v w); cbn [negb orb]; [exact IH|reflexivity].
  - cbn [orb]. exact IH.
Qed.

Lemma all_correct_nil :
  forall hyps i, all_correct hyps i [] = Ok true.
Proof. reflexivity. Qed.

Lemma all_correct_out_of_range :
  forall hyps i kv rest,
    py_index hyps i = Err IndexError ->
    all_correct hyps i (kv :: rest) = Err IndexError.
Proof.
  intros hyps i [k v] rest Hi. cbn [all_correct]. rewrite Hi. reflexivity.
Qed.

Lemma dict_get_some_in :
  forall (d : word_tags) k v,
    dict_get str_eqb d k = Some v -> In (k, v) d.
Proof.
  induction d as [|[k' v'] d IH]; intros k v H; [discriminate|].
  cbn [dict_get] in H. destruct (str_eqb k' k) eqn:E.
  - apply ScorerProofs.str_eqb_eq in E. injection H as ->. subst. left. reflexivity.
  - right. apply IH. exact H.
Qed.

(** The loop over the words, started at position [a] with [correct]
    words counted so far: [hs] are the hypotheses from [a] on. *)
Lemma count_loop :
  forall golds hyps a hs correct,
    skipn a hyps = hs ->
    (length golds <= length hs)%nat ->
    foldM (fun correct iw =>
             allCorrect <- all_correct hyps (fst iw) (snd iw) ;;
             Ok (if allCorrect then correct + 1 else correct))
          (combine (map Z.of_nat (seq a (length golds))) golds) correct
    = Ok (correct + compatible_pairs golds hs).
Proof.
  induction golds as [|g golds IH]; intros hyps a hs correct Hs Hlen.
  - cbn. f_equal. unfold compatible_pairs. cbn. lia.
  - destruct hs as [|h hs]; [cbn in Hlen; lia|].
    destruct (ScorerProofs.skipn_cons_inv _ _ _ _ _ Hs) as [Hnth Hs'].
    cbn [length seq map combine foldM fst snd].
    rewrite (all_correct_ok hyps (Z.of_nat a) h g)
      by (apply py_index_nth_error; exact Hnth).
    cbn [bind].
    rewrite (IH hyps (S a) hs _ Hs') by (cbn in Hlen; lia).
    f_equal. unfold compatible_pairs. cbn [combine filter fst snd].
    destruct (compatible g h); cbn [length]; lia.
Qed.

(** The same loop once the hypotheses are used up: a word without tags is
    counted, the first word with a tag reads [hyps[i]] out of range. *)
Lemma count_beyond :
  forall golds hyps a correct,
    (length hyps <= a)%nat ->
    let loop :=
      foldM (fun correct iw =>
               allCorrect <- all_correct hyps (fst iw) (snd iw) ;;
               Ok (if allCorrect then correct + 1 else correct))
            (combine (map Z.of_nat (seq a (length golds))) golds) correct in
    (Forall (fun g => g = []) golds ->
     loop = Ok (correct + Z.of_nat (length golds)))
    /\ (Exists (fun g => g <> []) golds -> loop = Err IndexError).
Proof.
  induction golds as [|g golds IH]; intros hyps a correct Ha loop.
  - split.
    + intros _. subst loop. cbn. f_equal. lia.
    + intros H. inversion H.
  - subst loop. cbn [length seq map combine foldM fst snd].
    destruct g as [|kv g].
    + rewrite all_correct_nil. cbn [bind].
      destruct (IH hyps (S a) (correct + 1) ltac:(lia)) as [IHa IHe].
      split.
      * intros H. inversion H; subst. rewrite IHa by assumption.
        f_equal. lia.
      * intros H. inversion H; subst; [congruence|]. apply IHe. assumption.
    + rewrite all_correct_out_of_range by (apply py_index_beyond; exact Ha).
      cbn [bind]. split; [|reflexivity].
      intros H. inversion H; subst. discriminate.
Qed.

Lemma enumerate_app :
  forall (A : Type) (a : nat) (l1 l2 : list A),
    combine (map Z.of_nat (seq a (length (l1 ++ l2)))) (l1 ++ l2) =
    combine (map Z.of_nat (seq a (length l1))) l1
    ++ combine (map Z.of_nat (seq (a + length l1) (length l2))) l2.
Proof.
  intros A a l1. revert a.
  induction l1 as [|x l1 IH]; intros a l2.
  - cbn. rewrite Nat.add_0_r. reflexivity.
  - cbn [length app seq map combine]. rewrite IH.
    replace (S a + length l1)%nat with (a + S (length l1))%nat by lia.
    reflexivity.
Qed.

Lemma compatible_pairs_firstn :
  forall golds hyps,
    compatible_pairs golds hyps =
    compatible_pairs (firstn (length hyps) golds) hyps.
Proof.
  intros golds hyps. unfold compatible_pairs. do 3 f_equal.
  revert hyps. induction golds as [|g golds IH]; intros [|h hyps];
    cbn; try reflexivity.
  f_equal. apply IH.
Qed.

Lemma getCorrectCount_char :
  forall golds hyps,
    let extra := skipn (length hyps) golds in
    (Forall (fun g => g = []) extra ->
     getCorrectCount golds hyps =
     Ok (compatible_pairs golds hyps + Z.of_nat (length extra)))
    /\ (Exists (fun g => g <> []) extra ->
        getCorrectCount golds hyps = Err IndexError).
Proof.
  intros golds hyps extra.
  destruct (Nat.le_gt_cases (length hyps) (length golds)) as [Hle|Hgt].
  - unfold getCorrectCount, enumerate.
    rewrite <- (firstn_skipn (length hyps) golds) at 1 2 4 5.
    fold extra.
    rewrite enumerate_app, !foldM_app.
    rewrite (count_loop (firstn (length hyps) golds) hyps 0 hyps 0 eq_refl)
      by (rewrite length_firstn; lia).
    cbn [bind].
    rewrite <- compatible_pairs_firstn.
    destruct (count_beyond extra hyps (0 + length (firstn (length hyps) golds))
                (0 + compatible_pairs golds hyps)) as [Ha He].
    + rewrite length_firstn, Nat.min_l by exact Hle. lia.
    + split; intros H.
      * rewrite Ha by exact H. reflexivity.
      * apply He. exact H.
  - assert (Hextra : extra = []) by (apply skipn_all2; lia).
    rewrite Hextra. split.
    + intros _. unfold getCorrectCount, enumerate.
      assert (Hlen : (length golds <= length hyps)%nat) by lia.
      etransitivity; [exact (count_loop golds hyps 0 hyps 0 eq_refl Hlen)|].
      f_equal. cbn [length]. lia.
    + intros H. inversion H.
Qed.

(** X1. When every gold word has a hypothesis, [getCorrectCount] returns
    the number of words whose gold tag-set is not contradicted by the
    hypothesis, that is no gold tag is predicted with another value; the
    count lies between 0 and the number of gold words. *)
Theorem getCorrectCount_counts :
  forall golds hyps : list word_tags,
    (length golds <= length hyps)%nat ->
    getCorrectCount golds hyps = Ok (compatible_pairs golds hyps)
    /\ 0 <= compatible_pairs golds hyps <= Z.of_nat (length golds).
Proof.
  intros golds hyps Hlen.
  destruct (getCorrectCount_char golds hyps) as [Hok _].
  rewrite skipn_all2 in Hok by exact Hlen.
  split.
  - rewrite Hok by constructor. f_equal. cbn. lia.
  - unfold compatible_pairs. split; [lia|].
    apply inj_le.
    etransitivity; [apply filter_length_le|].
    rewrite length_combine. lia.
Qed.

Lemma getCorrectCount_counts_witness :
  getCorrectCount
    [[("POS", "NOUN"); ("Case", "Nom")]; [("POS", "VERB")]; []]%string
    [[("POS", "NOUN")]; [("POS", "NOUN")]; [("POS", "ADJ")]]%string
  = Ok 2.
Proof.
  exact (proj1 (getCorrectCount_counts
    [[("POS", "NOUN"); ("Case", "Nom")]; [("POS", "VERB")]; []]%string
    [[("POS", "NOUN")]; [("POS", "NOUN")]; [("POS", "ADJ")]]%string
    (le_n 3))).
Defined.

(** X2. [getCorrectCount] raises [IndexError], and nothing else, exactly
    when a gold word that has no hypothesis carries a tag; gold words
    without tags beyond the hypotheses are counted as correct. *)
Theorem getCorrectCount_index_error :
  forall golds hyps : list word_tags,
    let extra := skipn (length hyps) golds in
    (getCorrectCount golds hyps = Err IndexError
     <-> Exists (fun g => g <> []) extra)
    /\ (forall e, getCorrectCount golds hyps = Err e -> e = IndexError)
    /\ (Forall (fun g => g = []) extra ->
        getCorrectCount golds hyps =
        Ok (compatible_pairs golds hyps + Z.of_nat (length extra))).
Proof.
  intros golds hyps extra.
  destruct (getCorrectCount_char golds hyps) as [Hok Herr].
  fold extra in Hok, Herr.
  assert (Hdec : Forall (fun g : word_tags => g = []) extra
                 \/ Exists (fun g : word_tags => g <> []) extra).
  { clear. induction extra as [|g l IH]; [left; constructor|].
    destruct g as [|kv g].
    - destruct IH as [IH|IH]; [left; constructor; auto|right].
      apply Exists_cons_tl. exact IH.
    - right. apply Exists_cons_hd. discriminate. }
  repeat split.
  - intros H. destruct Hdec as [Hall|Hex]; [|exact Hex].
    rewrite Hok in H by exact Hall. discriminate.
  - exact Herr.
  - intros e H. destruct Hdec as [Hall|Hex].
    + rewrite Hok in H by exact Hall. discriminate.
    + rewrite Herr in H by exact Hex. congruence.
  - exact Hok.
Qed.

Lemma contradicts_swap :
  forall (g h : word_tags),
    is_dict g ->
    existsb (contradicts h) g = true -> existsb (contradicts g) h = true.
Proof.
  intros g h Hg H.
  apply existsb_exists in H. destruct H as [[k v] [Hin Hc]].
  unfold contradicts in Hc. cbn [fst snd] in Hc.
  destruct (dict_get str_eqb h k) as [w|] eqn:Hget; [|discriminate].
  apply existsb_exists. exists (k, w). split.
  - apply dict_get_some_in. exact Hget.
  - unfold contradicts. cbn [fst snd].
    rewrite (dict_get_in _ ScorerProofs.str_eqb_eq _ _ _ Hg Hin).
    unfold str_eqb in *. rewrite String.eqb_sym. exact Hc.
Qed.

Lemma compatible_sym :
  forall g h : word_tags,
    is_dict g -> is_dict h -> compatible g h = compatible h g.
Proof.
  intros g h Hg Hh. unfold compatible. f_equal.
  destruct (existsb (contradicts h) g) eqn:E1.
  - symmetry. apply contradicts_swap; assumption.
  - destruct (existsb (contradicts g) h) eqn:E2; [|reflexivity].
    apply contradicts_swap in E2; [congruence|assumption].
Qed.

(** X3. On dictionaries, being contradicted is mutual, so with as many
    hypotheses as gold words the count does not depend on which list is
    called gold. *)
Theorem getCorrectCount_symmetric :
  forall golds hyps : list word_tags,
    length golds = length hyps ->
    Forall is_dict golds ->
    Forall is_dict hyps ->
    getCorrectCount golds hyps = getCorrectCount hyps golds.
Proof.
  intros golds hyps Hlen Hg Hh.
  destruct (getCorrectCount_char golds hyps) as [H1 _].
  destruct (getCorrectCount_char hyps golds) as [H2 _].
  unfold word_tags in *.
  rewrite skipn_all2 in H1 by lia. rewrite skipn_all2 in H2 by lia.
  rewrite H1, H2 by constructor. do 2 f_equal.
  unfold compatible_pairs. f_equal.
  clear H1 H2. revert hyps Hlen Hh.
  induction Hg as [|g golds Hgd Hg IH]; intros [|h hyps] Hlen Hh;
    try discriminate; [reflexivity|].
  inversion Hh; subst. cbn [combine filter fst snd].
  rewrite (compatible_sym g h) by assumption.
  injection Hlen as Hlen.
  destruct (compatible h g); cbn [length]; rewrite (IH hyps); auto.
Qed.

Lemma getCorrectCount_symmetric_witness :
  getCorrectCount [[("POS", "NOUN"); ("Case", "Nom")]; [("POS", "VERB")]]%string
                  [[("Case", "Nom")]; [("POS", "NOUN")]]%string
  = getCorrectCount [[("Case", "Nom")]; [("POS", "NOUN")]]%string
                    [[("POS", "NOUN"); ("Case", "Nom")]; [("POS", "VERB")]]%string.
Proof.
  apply getCorrectCount_symmetric.
  - reflexivity.
  - repeat constructor; simpl; intuition discriminate.
  - repeat constructor; simpl; intuition discriminate.
Defined.

(** X4. A tag the hypothesis leaves out is never held against it: when
    every predicted tag of every word has its gold value, all the words
    are counted, whatever the hypotheses omit. *)
Theorem getCorrectCount_ignores_missing_tags :
  forall golds hyps : list word_tags,
    Forall is_dict golds ->
    Forall2 (fun gold hyp =>
               forall k w, In (k, w) hyp -> dict_get str_eqb gold k = Some w)
            golds hyps ->
    getCorrectCount golds hyps = Ok (Z.of_nat (length golds)).
Proof.
  intros golds hyps Hg Hsub.
  pose proof (Forall2_length Hsub) as Hlen.
  destruct (getCorrectCount_char golds hyps) as [H1 _].
  unfold word_tags in *.
  rewrite skipn_all2 in H1 by lia.
  rewrite H1 by constructor. f_equal. cbn [length].
  rewrite Z.add_0_r. unfold compatible_pairs. f_equal.
  clear H1 Hlen.
  induction Hsub as [|g h golds hyps Hgh Hsub IH]; [reflexivity|].
  inversion Hg; subst.
  cbn [combine filter fst snd].
  assert (Hc : compatible g h = true).
  { unfold compatible. apply negb_true_iff.
    destruct (existsb (contradicts h) g) eqn:E; [|reflexivity].
    apply existsb_exists in E. destruct E as [[k v] [Hin Hc]].
    unfold contradicts in Hc. cbn [fst snd] in Hc.
    destruct (dict_get str_eqb h k) as [w|] eqn:Hget; [|discriminate].
    apply dict_get_some_in in Hget. apply Hgh in Hget.
    rewrite (dict_get_in _ ScorerProofs.str_eqb_eq _ _ _ H1 Hin) in Hget.
    injection Hget as ->.
    unfold str_eqb in Hc. rewrite String.eqb_refl in Hc. discriminate. }
  rewrite Hc. cbn [length]. f_equal. apply IH. assumption.
Qed.

Lemma getCorrectCount_ignores_missing_tags_witness :
  getCorrectCount [[("POS", "NOUN"); ("Case", "Nom")]; [("POS", "VERB")]]%string
                  [[("Case", "Nom")]; []]%string
  = Ok 2.
Proof.
  apply (getCorrectCount_ignores_missing_tags
           [[("POS", "NOUN"); ("Case", "Nom")]; [("POS", "VERB")]]%string
           [[("Case", "Nom")]; []]%string).
  - repeat constructor; simpl; intuition discriminate.
  - repeat constructor; simpl; intros k w H;
      repeat (destruct H as [H|H]; [injection H as <- <-; reflexivity|]);
      contradiction.
Defined.

End AccuracyProofs.

(** ** Vocabulary lookup: proofs *)

Module VocabProofs.

Import Vocab PyFacts DictFacts CommonFacts.
Local Open Scope Z_scope.

Lemma index_spec :
  forall l w,
    if contains l w
    then exists i : nat,
           index l w = Ok (Z.of_nat i)
           /\ (i < length l)%nat
           /\ nth_error l i = Some w
           /\ forall j, (j < i)%nat -> nth_error l j <> Some w
    else index l w = Err ValueError.
Proof.
  induction l as [|x l IH]; intros w; [reflexivity|].
  cbn [contains existsb index].
  destruct (String.eqb x w) eqn:E.
  - cbn [orb]. apply String.eqb_eq in E. subst x.
    exists 0%nat. repeat split; [cbn; lia|].
    intros j Hj. lia.
  - cbn [orb]. specialize (IH w). fold (contains l w).
    destruct (contains l w).
    + destruct IH as [i [Hi [Hlt [Hnth Hfirst]]]].
      exists (S i). rewrite Hi. cbn [bind]. repeat split.
      * f_equal. lia.
      * cbn. lia.
      * exact Hnth.
      * intros [|j] Hj; cbn [nth_error].
        -- intros H. injection H as ->.
           rewrite String.eqb_refl in E. discriminate.
        -- apply Hfirst. lia.
    + rewrite IH. reflexivity.
Qed.

(** X5. With a dictionary, [prepare_sequence] looks up one index per
    word, in the order of the sequence: the entry of the word, or the
    entry of ["UNK"] for a word the dictionary does not know. It raises
    [KeyError] exactly when a word is unknown and the dictionary has no
    ["UNK"]; otherwise it raises [RuntimeError] exactly when one of the
    indices is outside the signed 64-bit range, and else returns the
    tensor of the indices on the device asked for. *)
Theorem prepare_sequence_mapping :
  forall (seq : list string) (d : list (string * Z)) (gpu : bool),
    if forallb (fun w => known (Mapping d) (word_or_unk (Mapping d) w)) seq
    then exists idxs,
           Forall2 (fun w i =>
                      dict_get String.eqb d (word_or_unk (Mapping d) w)
                      = Some i)
                   seq idxs
           /\ if forallb int64 idxs
              then exists t,
                     prepare_sequence seq (Mapping d) gpu = Ok t
                     /\ device_of t = target gpu
                     /\ values t = idxs
              else prepare_sequence seq (Mapping d) gpu = Err RuntimeError
    else prepare_sequence seq (Mapping d) gpu = Err KeyError.
Proof.
  intros seq d gpu.
  pose proof (mapM_all_or_err _ _
    (fun w => if dict_mem String.eqb d w then getitem d w
              else getitem d "UNK"%string)
    (fun w i => dict_get String.eqb d (word_or_unk (Mapping d) w) = Some i)
    KeyError
    (fun w => known (Mapping d) (word_or_unk (Mapping d) w))) as H.
  cbv beta in H.
  assert (Hf : forall a : string,
    if known (Mapping d) (word_or_unk (Mapping d) a)
    then exists b : Z,
           (if dict_mem String.eqb d a then getitem d a
            else getitem d "UNK"%string) = Ok b
           /\ dict_get String.eqb d (word_or_unk (Mapping d) a) = Some b
    else (if dict_mem String.eqb d a then getitem d a
          else getitem d "UNK"%string) = Err KeyError).
  { intros w. unfold word_or_unk, known, getitem.
    destruct (dict_mem String.eqb d w) eqn:Hw.
    - rewrite Hw. unfold dict_mem in Hw.
      destruct (dict_get String.eqb d w) as [i|]; [|discriminate].
      exists i. split; reflexivity.
    - unfold dict_mem.
      destruct (dict_get String.eqb d "UNK"%string) as [u|]; [|reflexivity].
      exists u. split; reflexivity. }
  specialize (H Hf seq).
  destruct (forallb _ seq).
  - destruct H as [idxs [Hm HF]].
    exists idxs. split; [exact HF|].
    unfold prepare_sequence. rewrite Hm. cbn [bind]. unfold LongTensor.
    destruct (forallb int64 idxs); [|reflexivity].
    cbn [bind]. exists (get_var (mkTensor Cpu idxs) gpu).
    destruct gpu; repeat split; reflexivity.
  - unfold prepare_sequence. rewrite H. reflexivity.
Qed.

(** X6. With a list, [prepare_sequence] returns for every word the first
    position of the list that holds it, or that holds ["UNK"] when the
    word is not in the list, so that reading the list at the index gives
    the word or ["UNK"] back and every index is inside the list. It raises
    [ValueError] exactly when a word is unknown and the list has no
    ["UNK"]. *)
Theorem prepare_sequence_listing :
  forall (seq : list string) (l : list string) (gpu : bool),
    if forallb (fun w => known (Listing l) (word_or_unk (Listing l) w)) seq
    then exists t,
           prepare_sequence seq (Listing l) gpu = Ok t
           /\ device_of t = target gpu
           /\ Forall2 (fun w i =>
                         0 <= i < Z.of_nat (length l)
                         /\ py_index l i = Ok (word_or_unk (Listing l) w)
                         /\ forall j, 0 <= j < i ->
                              py_index l j <> Ok (word_or_unk (Listing l) w))
                      seq (values t)
    else prepare_sequence seq (Listing l) gpu = Err ValueError.
Proof.
  intros seq l gpu.
  pose proof (mapM_all_or_err _ _
    (fun w => if contains l w then index l w else index l "UNK"%string)
    (fun w i =>
       0 <= i < Z.of_nat (length l)
       /\ py_index l i = Ok (word_or_unk (Listing l) w)
       /\ forall j, 0 <= j < i ->
            py_index l j <> Ok (word_or_unk (Listing l) w))
    ValueError
    (fun w => known (Listing l) (word_or_unk (Listing l) w))) as H.
  cbv beta in H.
  assert (Hidx : forall w,
    if contains l w
    then exists i, index l w = Ok i
           /\ 0 <= i < Z.of_nat (length l)
           /\ py_index l i = Ok w
           /\ forall j, 0 <= j < i -> py_index l j <> Ok w
    else index l w = Err ValueError).
  { intros w. pose proof (index_spec l w) as Hs.
    destruct (contains l w); [|exact Hs].
    destruct Hs as [i [Hi [Hlt [Hnth Hfirst]]]].
    exists (Z.of_nat i). repeat split; try lia; try assumption.
    - apply py_index_nth_error. exact Hnth.
    - intros j Hj Hpy.
      apply (Hfirst (Z.to_nat j)); [lia|].
      unfold py_index in Hpy.
      destruct (j <? 0) eqn:E; [lia|].
      destruct ((j <? 0) || (Z.of_nat (length l) <=? j)); [discriminate|].
      destruct (nth_error l (Z.to_nat j)); congruence. }
  assert (Hf : forall a : string,
    if known (Listing l) (word_or_unk (Listing l) a)
    then exists b : Z,
           (if contains l a then index l a else index l "UNK"%string) = Ok b
           /\ 0 <= b < Z.of_nat (length l)
           /\ py_index l b = Ok (word_or_unk (Listing l) a)
           /\ (forall j, 0 <= j < b ->
                 py_index l j <> Ok (word_or_unk (Listing l) a))
    else (if contains l a then index l a else index l "UNK"%string)
         = Err ValueError).
  { intros w. unfold word_or_unk, known.
    destruct (contains l w) eqn:Hw.
    - rewrite Hw. pose proof (Hidx w) as Hs. rewrite Hw in Hs. exact Hs.
    - exact (Hidx "UNK"%string). }
  specialize (H Hf seq).
  destruct (forallb _ seq).
  - destruct H as [idxs [Hm HF]].
    exists (get_var (mkTensor Cpu idxs) gpu).
    unfold prepare_sequence. rewrite Hm. cbn [bind].
    destruct gpu; repeat split; assumption.
  - unfold prepare_sequence. rewrite H. reflexivity.
Qed.

End VocabProofs.

(** ** Log-sum-exp of two numbers: proofs *)

Module LogSumProofs.

Import LogSpace LogSum.
Local Open Scope R_scope.

Lemma logSumExp_ln : forall a b, logSumExp a b = ln (exp a + exp b).
Proof.
  intros a b. unfold logSumExp. cbv zeta.
  set (m := Rmax a b).
  assert (Hpos : 0 < exp (a - m) + exp (b - m)).
  { pose proof (exp_pos (a - m)). pose proof (exp_pos (b - m)). lra. }
  rewrite <- (ln_exp m) at 1.
  rewrite <- ln_mult by (auto using exp_pos).
  f_equal.
  rewrite Rmult_plus_distr_l, <- !exp_plus.
  f_equal; f_equal; lra.
Qed.

Lemma fold_logSumExp :
  forall xs x, fold_left logSumExp xs x = ln (exp x + sum (map exp xs)).
Proof.
  induction xs as [|y ys IH]; intros x; simpl.
  - rewrite Rplus_0_r, ln_exp. reflexivity.
  - rewrite IH, logSumExp_ln.
    rewrite exp_ln by (pose proof (exp_pos x); pose proof (exp_pos y); lra).
    f_equal. lra.
Qed.

(** X7. The stabilisation is harmless: [logSumExp(a, b)] and
    [logSumExpTensors(a, b)] are [log(exp(a) + exp(b))], the value numpy's
    [logaddexp] stands for.  The result lies strictly above the larger
    argument and at most [log 2] above it. *)
Theorem logSumExp_exact :
  forall a b : R,
    logSumExp a b = ln (exp a + exp b)
    /\ logSumExpTensors a b = ln (exp a + exp b)
    /\ logSumExp a b = logaddexp a b
    /\ Rmax a b < logSumExp a b <= Rmax a b + ln 2.
Proof.
  intros a b.
  split; [apply logSumExp_ln|]. split; [apply logSumExp_ln|].
  split; [apply logSumExp_ln|].
  assert (Hgen : forall x y, y <= x ->
            x < ln (exp x + exp y) <= x + ln 2).
  { intros x y Hle.
    pose proof (exp_pos x) as Hx. pose proof (exp_pos y) as Hy.
    assert (Hey : exp y <= exp x).
    { destruct Hle as [Hlt|Heq]; [left; apply exp_increasing; exact Hlt|].
      subst; lra. }
    split.
    - rewrite <- (ln_exp x) at 1. apply ln_increasing; lra.
    - rewrite <- (ln_exp x) at 2. rewrite <- ln_mult by lra.
      destruct (Req_dec (exp x + exp y) (exp x * 2)) as [He|Hne].
      + rewrite He. lra.
      + left. apply ln_increasing; lra. }
  rewrite logSumExp_ln.
  unfold Rmax. destruct (Rle_dec a b) as [Hab|Hab].
  - rewrite (Rplus_comm (exp a)). apply Hgen. exact Hab.
  - apply Hgen. lra.
Qed.

(** X9. [logSumExp] is commutative and associative, it commutes with a
    common shift of its arguments, and folding it over a list gives the
    log-sum-exp of the list. *)
Theorem logSumExp_algebra :
  forall a b c : R,
    logSumExp a b = logSumExp b a
    /\ logSumExp (logSumExp a b) c = logSumExp a (logSumExp b c)
    /\ logSumExp (a + c) (b + c) = logSumExp a b + c
    /\ forall (x : R) (xs : list R),
         fold_left logSumExp xs x = logsumexp (x :: xs).
Proof.
  intros a b c.
  pose proof (exp_pos a) as Ha. pose proof (exp_pos b) as Hb.
  pose proof (exp_pos c) as Hc.
  repeat split.
  - rewrite !logSumExp_ln. f_equal. lra.
  - rewrite !logSumExp_ln. rewrite !exp_ln by lra. f_equal. lra.
  - rewrite !logSumExp_ln. rewrite !exp_plus.
    rewrite <- Rmult_plus_distr_r, ln_mult by lra.
    rewrite ln_exp. reflexivity.
  - intros x xs. rewrite fold_logSumExp. reflexivity.
Qed.

End LogSumProofs.

(** ** Log-space normalisation of torch tensors: proofs *)

Module TensorLogProofs.

Import LogSpace TensorLog LogSpaceProofs.
Local Open Scope R_scope.

Lemma zip_with_repeat :
  forall (row : list R) (m : R),
    zip_with Rminus row (repeat m (length row)) = map (fun x => x - m) row.
Proof.
  intros row m. unfold zip_with.
  induction row as [|x row IH]; [reflexivity|].
  cbn [length repeat combine map fst snd]. rewrite IH. reflexivity.
Qed.

(** The log-sum-exp of a row computed after a shift by any [m]. *)
Lemma shifted_logsumexp :
  forall (row : list R) (m : R),
    row <> [] ->
    m + ln (sum (map exp (map (fun x => x - m) row))) = logsumexp row.
Proof.
  intros row m Hne. unfold logsumexp.
  rewrite map_map.
  assert (Hs : sum (map (fun x => exp (x - m)) row)
               = sum (map exp row) * exp (- m)).
  { rewrite <- (sum_scale exp). f_equal. apply map_ext.
    intros x. unfold Rminus. apply exp_plus. }
  rewrite Hs.
  rewrite ln_mult by (auto using exp_pos, sum_exp_pos).
  rewrite ln_exp. lra.
Qed.

Lemma max_rows_some :
  forall vec,
    Forall (fun row => row <> []) vec ->
    exists ms, max_rows vec = Some ms /\ length ms = length vec.
Proof.
  induction vec as [|row vec IH]; intros H.
  - exists []. split; reflexivity.
  - inversion H as [|? ? Hrow Hrest]; subst.
    destruct (IH Hrest) as [ms [Hms Hlen]].
    destruct row as [|x xs]; [congruence|].
    cbn [max_rows row_max]. rewrite Hms.
    eexists. split; [reflexivity|]. cbn. rewrite Hlen. reflexivity.
Qed.

Lemma max_rows_none :
  forall vec, Exists (fun row => row = []) vec -> max_rows vec = None.
Proof.
  induction vec as [|row vec IH]; intros H; [inversion H|].
  cbn [max_rows].
  inversion H as [? ? Hrow|? ? Hrest]; subst.
  - reflexivity.
  - rewrite (IH Hrest). destruct (row_max row); reflexivity.
Qed.

(** The rows after the stabilised reduction, for any shifts [ms]. *)
Lemma stabilised_rows :
  forall (vec : matrix) (k : nat) (ms : list R),
    Forall (fun row => length row = k) vec ->
    (1 <= k)%nat ->
    length ms = length vec ->
    zip_with Rplus ms
      (map ln (map sum (map (map exp)
         (zip_with (zip_with Rminus) vec (expand_cols ms k)))))
    = map logsumexp vec.
Proof.
  intros vec k ms Hsh Hk. revert ms.
  induction Hsh as [|row vec Hrow Hsh IH]; intros [|m ms] Hlen;
    try discriminate; [reflexivity|].
  injection Hlen as Hlen.
  unfold zip_with in *. unfold expand_cols in *.
  cbn [map combine fst snd].
  rewrite (IH ms Hlen). f_equal.
  fold (zip_with Rminus row (repeat m k)). rewrite <- Hrow.
  rewrite zip_with_repeat.
  apply shifted_logsumexp. destruct row; [cbn in Hrow; lia|discriminate].
Qed.

Lemma view_rows_nonempty :
  forall t vec, view_rows t = Some vec -> vec <> [].
Proof.
  intros t vec H. unfold view_rows in H.
  destruct t as [rows|slices]; cbv zeta in H.
  - destruct rows; [discriminate|]. injection H as <-. discriminate.
  - destruct (map (@concat R) slices); [discriminate|].
    injection H as <-. discriminate.
Qed.

Lemma logSumExpTensor_view :
  forall (t : tensor) (vec : matrix) (n k : nat),
    view_rows t = Some vec ->
    shape vec n k -> (1 <= k)%nat ->
    logSumExpTensor t = Some (map logsumexp vec).
Proof.
  intros t vec n k Hv [Hn Hsh] Hk.
  unfold logSumExpTensor. rewrite Hv.
  destruct (max_rows_some vec) as [ms [Hms Hlen]].
  { eapply Forall_impl; [|exact Hsh]. cbv beta.
    intros row Hrow Hnil. subst row. cbn in Hrow. lia. }
  rewrite Hms. f_equal.
  assert (Hnc : ncols vec = k).
  { pose proof (view_rows_nonempty _ _ Hv) as Hne.
    destruct vec as [|row vec]; [congruence|].
    inversion Hsh; subst. reflexivity. }
  rewrite Hnc. apply stabilised_rows; assumption.
Qed.

Lemma concat_shape :
  forall (slice : matrix) (s1 s2 : nat),
    shape slice s1 s2 -> length (concat slice) = (s1 * s2)%nat.
Proof.
  intros slice s1 s2 [Hn Hsh]. subst s1.
  induction Hsh as [|row slice Hrow Hsh IH]; [reflexivity|].
  cbn [concat length]. rewrite length_app, IH, Hrow. reflexivity.
Qed.

Lemma sub_rows_expand :
  forall (rows : matrix) (k : nat) (ds : list R),
    Forall (fun row => length row = k) rows ->
    length ds = length rows ->
    zip_with (zip_with Rminus) rows (expand_cols ds k)
    = map (fun p => map (fun x => x - snd p) (fst p)) (combine rows ds).
Proof.
  intros rows k ds Hsh. revert ds.
  induction Hsh as [|row rows Hrow Hsh IH]; intros [|d ds] Hlen;
    try discriminate; [reflexivity|].
  injection Hlen as Hlen.
  unfold zip_with, expand_cols in *. cbn [map combine fst snd].
  rewrite (IH ds Hlen). f_equal.
  fold (zip_with Rminus row (repeat d k)). rewrite <- Hrow.
  apply zip_with_repeat.
Qed.

Lemma sub_slice_repeat :
  forall (slice : matrix) (s1 s2 : nat) (d : R),
    shape slice s1 s2 ->
    zip_with (zip_with Rminus) slice (repeat (repeat d s2) s1)
    = map (map (fun x => x - d)) slice.
Proof.
  intros slice s1 s2 d [Hn Hsh]. subst s1.
  induction Hsh as [|row slice Hrow Hsh IH]; [reflexivity|].
  unfold zip_with in *. cbn [length repeat combine map fst snd].
  rewrite IH. f_equal.
  fold (zip_with Rminus row (repeat d s2)). rewrite <- Hrow.
  apply zip_with_repeat.
Qed.

(** The reduction of the slices of a 3-D tensor that has entries. *)
Lemma logSumExpTensor_slices :
  forall (slices : list matrix) (n s1 s2 : nat),
    shape3 slices n s1 s2 ->
    (1 <= n)%nat -> (1 <= s1)%nat -> (1 <= s2)%nat ->
    logSumExpTensor (Dim3 slices)
    = Some (map (fun slice => logsumexp (concat slice)) slices).
Proof.
  intros slices n s1 s2 [Hn Hsh] H1 H2 H3.
  rewrite (logSumExpTensor_view (Dim3 slices) (map (@concat R) slices)
             n (s1 * s2)).
  - rewrite map_map. reflexivity.
  - unfold view_rows. destruct slices; [cbn in Hn; lia|reflexivity].
  - split; [rewrite length_map; exact Hn|].
    apply Forall_map. eapply Forall_impl; [|exact Hsh].
    intros slice Hs. apply concat_shape. exact Hs.
  - nia.
Qed.

(** A 3-D tensor without entries: torch raises. *)
Lemma logSumExpTensor_no_entry :
  forall (slices : list matrix) (n s1 s2 : nat),
    shape3 slices n s1 s2 ->
    ((1 <=? n) && (1 <=? s1) && (1 <=? s2))%nat = false ->
    logSumExpTensor (Dim3 slices) = None.
Proof.
  intros slices n s1 s2 [Hn Hsh] Hempty.
  destruct slices as [|slice slices]; [reflexivity|].
  unfold logSumExpTensor. cbn [view_rows map].
  rewrite max_rows_none; [reflexivity|].
  apply Exists_cons_hd.
  inversion Hsh as [|? ? Hslice _]; subst.
  pose proof (concat_shape slice s1 s2 Hslice) as Hlen.
  apply andb_false_iff in Hempty.
  destruct Hempty as [Hempty|Hempty].
  - apply andb_false_iff in Hempty.
    destruct Hempty as [Hempty|Hempty]; apply Nat.leb_gt in Hempty.
    + cbn [length] in Hempty. lia.
    + apply length_zero_iff_nil. nia.
  - apply Nat.leb_gt in Hempty. apply length_zero_iff_nil. nia.
Qed.



(** X11. On a 2-D tensor with at least one row and one column,
    [logNormalizeTensor] returns what [logNormalize] returns on the same
    array: every row minus its log-sum-exp, so that the exponentials of
    every row sum to 1. *)
Theorem logNormalizeTensor_rows :
  forall (a : matrix) (n k : nat),
    shape a n k -> (1 <= n)%nat -> (1 <= k)%nat ->
    exists normalised,
      logNormalizeTensor (Dim2 a) = Some (Dim2 normalised)
      /\ logNormalize a = Some normalised
      /\ shape normalised n k
      /\ Forall (fun row => sum (map exp row) = 1) normalised.
Proof.
  intros a n k Ha Hn Hk.
  exists (map (fun row => map (fun x => x - logsumexp row) row) a).
  split; [|split; [|split]].
  - unfold logNormalizeTensor.
    rewrite (logSumExpTensor_view (Dim2 a) a n k); try assumption.
    + rewrite (shape_ncols a n k) by assumption.
      rewrite sub_rows_expand.
      * rewrite combine_map_self, map_map. reflexivity.
      * destruct Ha as [_ Hsh]. exact Hsh.
      * apply length_map.
    + destruct Ha as [Hlen _]. destruct a; [cbn in Hlen; lia|reflexivity].
  - apply (logNormalize_rows a n k); assumption.
  - apply normalised_shape. exact Ha.
  - apply (normalised_sums a n k); assumption.
Qed.

Lemma logNormalizeTensor_rows_witness :
  exists normalised,
    logNormalizeTensor (Dim2 [[0; 1; 2]; [3; 3; 3]]) = Some (Dim2 normalised)
    /\ logNormalize [[0; 1; 2]; [3; 3; 3]] = Some normalised.
Proof.
  destruct (logNormalizeTensor_rows [[0; 1; 2]; [3; 3; 3]] 2 3)
    as [m [H1 [H2 _]]]; [prove_shape|lia|lia|].
  exists m. split; assumption.
Defined.



End TensorLogProofs.

(** ** Log-space max-product kernel: proofs *)

Module MaxProductProofs.

Import LogSpace MaxProduct LogSpaceProofs PyFacts CommonFacts.
Local Open Scope R_scope.

Lemma Rmax_exp : forall x y, Rmax (exp x) (exp y) = exp (Rmax x y).
Proof.
  intros x y. unfold Rmax.
  destruct (Rle_dec x y) as [Hle|Hnle];
    destruct (Rle_dec (exp x) (exp y)) as [He|Hne]; try reflexivity.
  - exfalso. apply Hne. destruct Hle as [Hlt|Heq].
    + left. apply exp_increasing. exact Hlt.
    + subst. right. reflexivity.
  - destruct He as [Hlt|Heq].
    + apply exp_lt_inv in Hlt. lra.
    + apply exp_inv in Heq. subst. lra.
Qed.

Lemma fold_Rmax_exp :
  forall xs x c,
    fold_left Rmax (map (fun t => exp (t - c)) xs) (exp (x - c))
    = exp (fold_left Rmax xs x - c).
Proof.
  induction xs as [|y xs IH]; intros x c; [reflexivity|].
  cbn [map fold_left]. rewrite Rmax_exp.
  replace (Rmax (x - c) (y - c)) with (Rmax x y - c).
  - apply IH.
  - unfold Rmax. destruct (Rle_dec x y); destruct (Rle_dec (x - c) (y - c));
      try reflexivity; lra.
Qed.

Lemma list_max_exp :
  forall l c,
    l <> [] ->
    list_max (map (fun t => exp (t - c)) l) = Ok (exp (maxl l - c)).
Proof.
  intros [|x xs] c Hne; [congruence|].
  cbn [map list_max maxl]. rewrite fold_Rmax_exp. reflexivity.
Qed.

Lemma map_nth_combine :
  forall (r c : list R) (k : nat),
    length r = k -> length c = k ->
    map (fun l => nth l r 0 + nth l c 0) (seq 0 k)
    = map (fun p => fst p + snd p) (combine r c).
Proof.
  intros r c k Hr Hc. subst k.
  assert (Hgen : forall a,
     map (fun l => nth (l - a) r 0 + nth (l - a) c 0) (seq a (length r))
     = map (fun p => fst p + snd p) (combine r c)).
  { revert c Hc. induction r as [|x r IH]; intros [|y c] Hc a;
      try discriminate; [reflexivity|].
    injection Hc as Hc.
    cbn [length seq map combine fst snd].
    rewrite Nat.sub_diag. cbn [nth]. f_equal.
    rewrite <- (IH c Hc (S a)).
    apply map_ext_in. intros l Hl. apply in_seq in Hl.
    replace (l - a)%nat with (S (l - S a)) by lia. reflexivity. }
  rewrite <- (Hgen 0%nat). apply map_ext. intros l.
  rewrite Nat.sub_0_r. reflexivity.
Qed.

Lemma pick_self : forall k l, (l < k)%nat -> pick k l = l.
Proof.
  intros k l Hl. unfold pick.
  destruct (k =? 1)%nat eqn:E; [|reflexivity].
  apply Nat.eqb_eq in E. lia.
Qed.

Lemma nth_col : forall (b : matrix) (j l : nat),
    nth l (col j b) 0 = nth j (nth l b []) 0.
Proof.
  intros b j l. unfold col.
  replace 0 with (nth j (@nil R) 0) at 1 by (destruct j; reflexivity).
  apply (map_nth (fun row => nth j row 0)).
Qed.

(** Entry [(l, j)] of a slice of the product, and the column the maximum
    runs over. *)
Lemma slice_col :
  forall (b : matrix) (k m : nat) (arow : list R) (ma mb : R) (j : nat),
    shape b k m ->
    length arow = k ->
    (j < m)%nat ->
    col j (map (fun l =>
                  map (fun y =>
                         nth (pick k l)
                             (map exp (map (fun x => x - ma) arow)) 0
                         * y)
                      (nth (pick k l) (mexp (sub_scalar b mb)) []))
               (seq 0 k))
    = map (fun t => exp (t - (ma + mb)))
          (map (fun p => fst p + snd p) (combine arow (col j b))).
Proof.
  intros b k m arow ma mb j [Hk Hsh] Ha Hj.
  rewrite <- (map_nth_combine arow (col j b) k)
    by (try rewrite col_length; assumption).
  unfold col at 1. unfold mexp, sub_scalar. rewrite !map_map.
  apply map_ext_in. intros l Hl. apply in_seq in Hl.
  rewrite pick_self by lia.
  assert (Hrow : length (nth l b []) = m).
  { rewrite Forall_forall in Hsh. apply Hsh. apply nth_In. lia. }
  rewrite (nth_map_in _ _ (fun x => exp (x - ma)) arow l 0 0) by lia.
  rewrite (nth_map_in _ _ (fun x => map exp (map (fun y => y - mb) x))
             b l [] []) by lia.
  rewrite !map_map.
  rewrite (nth_map_in _ _ (fun y => exp (nth l arow 0 - ma) * exp (y - mb))
             (nth l b []) j 0 0) by lia.
  rewrite <- exp_plus, nth_col. f_equal. lra.
Qed.

Lemma logMax_core :
  forall a b n k m ma mb,
    shape a n k -> shape b k m ->
    (1 <= n)%nat -> (1 <= k)%nat -> (1 <= m)%nat ->
    (P <- outer_product (mexp (sub_scalar a ma)) (mexp (sub_scalar b mb)) ;;
     C <- max_axis1 (ncols b) P ;;
     Ok (add_scalar (mlog C) (ma + mb)))
    = Ok (max_plus a b).
Proof.
  intros a b n k m ma mb Ha Hb Hn Hk Hm.
  assert (Hea : shape (mexp (sub_scalar a ma)) n k)
    by (apply shape_map, shape_map; exact Ha).
  assert (Heb : shape (mexp (sub_scalar b mb)) k m)
    by (apply shape_map, shape_map; exact Hb).
  unfold outer_product.
  rewrite (shape_ncols _ n k Hea Hn).
  assert (Hnr : nrows (mexp (sub_scalar b mb)) = k) by apply Heb.
  rewrite Hnr. unfold broadcast_len. rewrite Nat.eqb_refl. cbn [bind].
  rewrite (shape_ncols b k m Hb Hk).
  set (S := fun row : list R =>
              map (fun l =>
                     map (fun y => nth (pick k l) row 0 * y)
                         (nth (pick k l) (mexp (sub_scalar b mb)) []))
                  (seq 0 k)).
  set (h := fun arow : list R =>
              map (fun j => exp (maxl (map (fun p => fst p + snd p)
                                         (combine arow (col j b)))
                                 - (ma + mb)))
                  (seq 0 m)).
  assert (HP : max_axis1 m (map S (mexp (sub_scalar a ma))) = Ok (map h a)).
  { unfold max_axis1.
    replace (mexp (sub_scalar a ma))
      with (map (fun arow => map exp (map (fun x => x - ma) arow)) a)
      by (unfold mexp, sub_scalar; rewrite map_map; reflexivity).
    rewrite map_map.
    apply mapM_map_ok. intros arow Hin.
    assert (Hlen : length arow = k).
    { destruct Ha as [_ Hsh]. rewrite Forall_forall in Hsh. apply Hsh, Hin. }
    apply mapM_pointwise.
    intros j Hj. apply in_seq in Hj. unfold S.
    rewrite (slice_col b k m arow ma mb j Hb Hlen) by lia.
    apply list_max_exp.
    destruct arow as [|x arow]; [cbn in Hlen; lia|].
    assert (Hc : length (col j b) = k) by (rewrite col_length; apply Hb).
    destruct (col j b); [cbn in Hc; lia|discriminate]. }
  rewrite HP. cbn [bind]. f_equal.
  unfold add_scalar, mlog, max_plus, h.
  rewrite (shape_ncols b k m Hb Hk), !map_map.
  apply map_ext. intros arow. rewrite !map_map.
  apply map_ext. intros j. rewrite ln_exp. lra.
Qed.

Lemma logMax_plain :
  forall (a b : matrix) (n k m : nat) (redAxis : option Z),
    (1 <= n)%nat -> (1 <= k)%nat -> (1 <= m)%nat ->
    shape a n k -> shape b k m -> is_one redAxis = false ->
    logMax a b redAxis = Ok (max_plus a b).
Proof.
  intros a b n k m redAxis Hn Hk Hm Ha Hb Hax.
  unfold logMax. rewrite Hax.
  destruct (amax_ok a n k Ha Hn Hk) as [ma Hma].
  destruct (amax_ok b k m Hb Hk Hm) as [mb Hmb].
  rewrite Hma, Hmb. cbn [bind].
  pose proof (logMax_core a b n k m ma mb Ha Hb Hn Hk Hm) as Hcore.
  destruct (outer_product _ _) as [P|e]; [|discriminate].
  cbn [bind] in *.
  destruct (max_axis1 _ P) as [C|e]; [|discriminate].
  cbn [bind] in *. exact Hcore.
Qed.

Lemma logMax_transposed :
  forall (a b : matrix) (n k m : nat) (redAxis : option Z),
    (1 <= n)%nat -> (1 <= k)%nat -> (1 <= m)%nat ->
    shape a n k -> shape b m k -> is_one redAxis = true ->
    logMax a b redAxis = Ok (transpose (max_plus a (transpose b))).
Proof.
  intros a b n k m redAxis Hn Hk Hm Ha Hb Hax.
  unfold logMax. rewrite Hax.
  assert (Hbt : shape (transpose b) k m) by (apply shape_transpose; assumption).
  destruct (amax_ok a n k Ha Hn Hk) as [ma Hma].
  destruct (amax_ok (transpose b) k m Hbt Hk Hm) as [mb Hmb].
  rewrite Hma, Hmb. cbn [bind].
  pose proof (logMax_core a (transpose b) n k m ma mb Ha Hbt Hn Hk Hm)
    as Hcore.
  destruct (outer_product _ _) as [P|e]; [|discriminate].
  cbn [bind] in *.
  destruct (max_axis1 _ P) as [C|e]; [|discriminate].
  cbn [bind] in *. injection Hcore as ->. reflexivity.
Qed.

(** X13. For matrices with at least one row and one column and aligned
    shapes, [logMax(a, b)] is the max-plus product: entry [(i, j)] is the
    largest [a[i][l] + b[l][j]] over [l]; the stabilisation by the two
    maxima does not change it. With the axis flag set to 1, [b] is
    transposed before and the result after. *)
Theorem logMax_spec :
  forall (a b : matrix) (n k m : nat) (redAxis : option Z),
    (1 <= n)%nat -> (1 <= k)%nat -> (1 <= m)%nat ->
    shape a n k ->
    (shape b k m -> is_one redAxis = false ->
     logMax a b redAxis = Ok (max_plus a b))
    /\ (shape b m k -> is_one redAxis = true ->
        logMax a b redAxis = Ok (transpose (max_plus a (transpose b)))).
Proof.
  intros a b n k m redAxis Hn Hk Hm Ha. split; intros Hb Hax.
  - apply (logMax_plain a b n k m); assumption.
  - apply (logMax_transposed a b n k m); assumption.
Qed.

Lemma logMax_spec_witness :
  logMax [[0; 1]; [2; 3]] [[0; 5]; [1; 1]] None
  = Ok (max_plus [[0; 1]; [2; 3]] [[0; 5]; [1; 1]]).
Proof.
  apply (proj1 (logMax_spec [[0; 1]; [2; 3]] [[0; 5]; [1; 1]] 2 2 2 None
                  ltac:(lia) ltac:(lia) ltac:(lia) ltac:(prove_shape)));
    [prove_shape|reflexivity].
Defined.

Lemma fold_Rmax_ge_init :
  forall xs x, x <= fold_left Rmax xs x.
Proof.
  induction xs as [|y xs IH]; intros x; cbn [fold_left]; [lra|].
  eapply Rle_trans; [apply (Rmax_l x y)|apply IH].
Qed.

Lemma fold_Rmax_upper :
  forall xs x t, In t (x :: xs) -> t <= fold_left Rmax xs x.
Proof.
  induction xs as [|y xs IH]; intros x t Hin.
  - destruct Hin as [Heq|[]]. subst. cbn. lra.
  - cbn [fold_left]. destruct Hin as [Heq|[Heq|Hin]].
    + subst. eapply Rle_trans; [apply (Rmax_l t y)|apply fold_Rmax_ge_init].
    + subst. eapply Rle_trans; [apply (Rmax_r x t)|apply fold_Rmax_ge_init].
    + apply IH. right. exact Hin.
Qed.

Lemma fold_Rmax_in :
  forall xs x, In (fold_left Rmax xs x) (x :: xs).
Proof.
  induction xs as [|y xs IH]; intros x; [left; reflexivity|].
  cbn [fold_left]. destruct (IH (Rmax x y)) as [H|H].
  - rewrite <- H. unfold Rmax. destruct (Rle_dec x y).
    + right. left. reflexivity.
    + left. reflexivity.
  - right. right. exact H.
Qed.

Lemma sum_exp_ge_member :
  forall l t, In t l -> exp t <= sum (map exp l).
Proof.
  induction l as [|x l IH]; intros t Hin; [contradiction|].
  cbn [map sum fold_right]. fold (sum (map exp l)).
  pose proof (sum_exp_nonneg l) as Hnn.
  destruct Hin as [Heq|Hin].
  - subst. lra.
  - specialize (IH t Hin). pose proof (exp_pos x). lra.
Qed.

Lemma sum_exp_le_bound :
  forall l M, (forall t, In t l -> t <= M) ->
              sum (map exp l) <= INR (length l) * exp M.
Proof.
  induction l as [|x l IH]; intros M HM.
  - cbn. lra.
  - cbn [map sum fold_right length]. fold (sum (map exp l)).
    rewrite S_INR.
    assert (Hx : exp x <= exp M).
    { destruct (HM x (or_introl eq_refl)) as [Hlt|Heq].
      - left. apply exp_increasing. exact Hlt.
      - subst. lra. }
    specialize (IH M (fun t Ht => HM t (or_intror Ht))). lra.
Qed.

(** The largest entry against the log-sum-exp of a list. *)
Lemma maxl_logsumexp :
  forall l,
    l <> [] ->
    maxl l <= logsumexp l <= maxl l + ln (INR (length l)).
Proof.
  intros [|x xs] Hne; [congruence|].
  unfold logsumexp. cbn [maxl]. set (l := x :: xs).
  set (M := fold_left Rmax xs x).
  assert (Hpos : 0 < sum (map exp l)) by (apply sum_exp_pos; discriminate).
  assert (Hlen : 0 < INR (length l)) by (apply lt_0_INR; cbn; lia).
  split.
  - rewrite <- (ln_exp M) at 1.
    pose proof (sum_exp_ge_member l M (fold_Rmax_in xs x)) as Hge.
    destruct Hge as [Hlt|Heq].
    + left. apply ln_increasing; [apply exp_pos|exact Hlt].
    + rewrite Heq. lra.
  - rewrite <- (ln_exp M) at 1. rewrite Rplus_comm.
    rewrite <- ln_mult by (auto using exp_pos).
    pose proof (sum_exp_le_bound l M (fold_Rmax_upper xs x)) as Hle.
    destruct Hle as [Hlt|Heq].
    + left. apply ln_increasing; assumption.
    + rewrite Heq. lra.
Qed.

Lemma dot_product_exp :
  forall r c,
    dot_product (map exp r) (map exp c)
    = sum (map exp (map (fun p => fst p + snd p) (combine r c))).
Proof.
  induction r as [|x r IH]; intros [|y c]; try reflexivity.
  cbn [map dot_product combine sum fold_right fst snd].
  rewrite IH, exp_plus. reflexivity.
Qed.

Lemma Forall2_map_same :
  forall (A B C : Type) (P : B -> C -> Prop) (f : A -> B) (g : A -> C)
         (l : list A),
    (forall x, In x l -> P (f x) (g x)) -> Forall2 P (map f l) (map g l).
Proof.
  intros A B C P f g l H.
  induction l as [|x l IH]; [constructor|].
  cbn [map]. constructor.
  - apply H. left. reflexivity.
  - apply IH. intros y Hy. apply H. right. exact Hy.
Qed.

(** X14. On aligned matrices with [k] inner positions, every entry of
    [logMax(a, b)] is at most the same entry of [logDot(a, b)] and at
    least that entry minus [log k]: the best path scores no more than all
    the paths together, and no less than their average. *)
Theorem logMax_below_logDot :
  forall (a b : matrix) (n k m : nat),
    (1 <= n)%nat -> (1 <= k)%nat -> (1 <= m)%nat ->
    shape a n k -> shape b k m ->
    exists best total,
      logMax a b None = Ok best
      /\ logDot a b None = Ok total
      /\ Forall2 (Forall2 (fun x y => x <= y <= x + ln (INR k))) best total.
Proof.
  intros a b n k m Hn Hk Hm Ha Hb.
  exists (max_plus a b), (log_matmul a b).
  split; [|split].
  - apply (logMax_plain a b n k m); auto.
  - apply (logDot_plain a b n k m); auto.
  - unfold max_plus, log_matmul, mlog, matmul.
    assert (Hnc : ncols (mexp b) = m).
    { apply (shape_ncols _ k m); [apply shape_map; exact Hb|exact Hk]. }
    rewrite Hnc, (shape_ncols b k m Hb Hk).
    change (mexp a) with (map (map exp) a). rewrite !map_map.
    apply Forall2_map_same. intros arow Hin. rewrite map_map.
    apply Forall2_map_same. intros j Hj. apply in_seq in Hj.
    assert (Hlen : length arow = k).
    { destruct Ha as [_ Hsh]. rewrite Forall_forall in Hsh. apply Hsh, Hin. }
    unfold mexp. rewrite (col_map exp b k m j Hb) by lia.
    rewrite dot_product_exp.
    set (t := map (fun p => fst p + snd p) (combine arow (col j b))).
    assert (Ht : length t = k).
    { unfold t. rewrite length_map, length_combine, col_length.
      destruct Hb as [Hbn _]. rewrite Hlen, Hbn. apply Nat.min_id. }
    rewrite <- Ht. apply maxl_logsumexp.
    intros Hnil. rewrite Hnil in Ht. cbn in Ht. lia.
Qed.

Lemma logMax_below_logDot_witness :
  exists best total,
    logMax [[0; 1]; [2; 3]] [[0; 5]; [1; 1]] None = Ok best
    /\ logDot [[0; 1]; [2; 3]] [[0; 5]; [1; 1]] None = Ok total
    /\ Forall2 (Forall2 (fun x y => x <= y <= x + ln (INR 2))) best total.
Proof.
  apply (logMax_below_logDot [[0; 1]; [2; 3]] [[0; 5]; [1; 1]] 2 2 2);
    try lia; prove_shape.
Defined.

Lemma list_max_ok : forall l, l <> [] -> list_max l = Ok (maxl l).
Proof. intros [|x xs] H; [congruence|reflexivity]. Qed.

Lemma max_axis1_ok :
  forall (m K : nat) (P : list matrix),
    (1 <= K)%nat ->
    Forall (fun slice => length slice = K) P ->
    max_axis1 m P
    = Ok (map (fun slice => map (fun j => maxl (col j slice)) (seq 0 m)) P).
Proof.
  intros m K P HK HP. unfold max_axis1.
  apply mapM_pointwise. intros slice Hin.
  apply mapM_pointwise. intros j _.
  apply list_max_ok. intros Hnil.
  rewrite Forall_forall in HP. specialize (HP slice Hin).
  apply (f_equal (@length R)) in Hnil. rewrite col_length in Hnil.
  cbn in Hnil. lia.
Qed.



End MaxProductProofs.

(** ** Null labels for absent tags: proofs *)

Module NullLabelsProofs.

Import Codec NullLabels DictFacts PyFacts CommonFacts CodecProofs.

(** Thawing a frozen tag-set gives the tag-set back. *)
Lemma thaw_frozen :
  forall items,
    tag_mapping (PDict items) ->
    unfreeze_dict (freeze_dict (PDict items)) = Ok (PDict items).
Proof.
  intros items Hm.
  assert (Hgen : forall m, tag_mapping m -> unfreeze_dict (freeze_dict m) = Ok m).
  { clear. intros m;
      induction m as [s|b|items IH|elems _] using pyobj_nested_ind;
      intros Hm; try contradiction.
    apply tag_mapping_items in Hm. destruct Hm as [Hnodup Hitems].
    cbn [freeze_dict unfreeze_dict].
    assert (Hmark : existsb (fun e => py_eqb e frozen_marker)
              (map (fun kv => PTuple [fst kv; freeze_dict (snd kv)]) items
               ++ [PTuple [PStr FROZEN_TAG; PBool true]]) = true).
    { rewrite existsb_app. apply orb_true_iff. right. reflexivity. }
    rewrite Hmark.
    rewrite (build_dict_frozen_items items [] _).
    - cbn [app build_dict store_entry unfreeze_dict bind].
      unfold py_setitem. cbn [hashable].
      assert (Hfresh : Forall (fun kv => py_eqb (fst kv) (PStr FROZEN_TAG)
                                         = false) items).
      { eapply Forall_impl; [|exact Hitems].
        intros [k v] [[s [Hk Hs]] _]. cbn [fst] in *. subst k.
        apply py_eqb_str. exact Hs. }
      rewrite dict_set_fresh by exact Hfresh. cbn [bind].
      rewrite dict_del_last; [reflexivity|reflexivity|exact Hfresh].
    - exact Hnodup.
    - eapply Forall_impl; [|exact Hitems].
      intros [k v] [[s [Hk _]] _]. exists s. exact Hk.
    - apply Forall_forall. intros [k v] Hin. cbn [snd].
      assert (Hkv := proj1 (Forall_forall _ _) Hitems (k, v) Hin).
      assert (IHkv := proj1 (Forall_forall _ _) IH (k, v) Hin).
      cbn [fst snd] in Hkv, IHkv.
      destruct Hkv as [_ [[s ->]|Hv]]; [reflexivity|].
      apply IHkv. exact Hv. }
  apply Hgen. exact Hm.
Qed.

(** A key that a dictionary with string keys does not hold. *)
Lemma absent_key :
  forall (d : list (pyobj * pyobj)) (n : string),
    Forall (fun kv => plain_key (fst kv)) d ->
    dict_mem py_eqb d (PStr n) = false ->
    Forall (fun kv => py_eqb (fst kv) (PStr n) = false) d
    /\ ~ In (PStr n) (map fst d).
Proof.
  intros d n Hd. induction Hd as [|[k v] d [s [Hk _]] Hd IH]; intros Hmem.
  - split; [constructor|intros []].
  - cbn [fst] in Hk. subst k. unfold dict_mem in Hmem. cbn [dict_get] in Hmem.
    destruct (py_eqb (PStr s) (PStr n)) eqn:E; [discriminate|].
    destruct IH as [IHa IHb]; [exact Hmem|].
    split.
    + constructor; [exact E|exact IHa].
    + cbn [map fst]. intros [Heq|Hin]; [|contradiction].
      injection Heq as ->. cbn in E. rewrite String.eqb_refl in E.
      discriminate.
Qed.

Lemma present_key :
  forall (d e : list (pyobj * pyobj)) (k : pyobj),
    dict_mem py_eqb d k = true -> dict_mem py_eqb (d ++ e) k = true.
Proof.
  intros d e k. unfold dict_mem.
  induction d as [|[k' v'] d IH]; [discriminate|].
  cbn [app dict_get]. destruct (py_eqb k' k); [reflexivity|exact IH].
Qed.

Lemma present_last :
  forall (d : list (pyobj * pyobj)) (n : string) (v : pyobj),
    dict_mem py_eqb (d ++ [(PStr n, v)]) (PStr n) = true.
Proof.
  intros d n v. unfold dict_mem.
  induction d as [|[k' v'] d IH].
  - cbn. rewrite String.eqb_refl. reflexivity.
  - cbn [app dict_get]. destruct (py_eqb k' (PStr n)); [reflexivity|exact IH].
Qed.

(** The loop over the tag names on a tag-set. *)
Lemma add_missing_loop :
  forall (names seen : list string) (items extra : list (pyobj * pyobj)),
    tag_mapping (PDict (items ++ extra)) ->
    Forall (fun n => n <> FROZEN_TAG) names ->
    Forall (fun kv => snd kv = PStr "NULL"
                      /\ exists n, In n (seen ++ names) /\ fst kv = PStr n)
           extra ->
    Forall (fun n => dict_mem py_eqb (items ++ extra) (PStr n) = true) seen ->
    exists extra',
      foldM add_missing names (PDict (items ++ extra))
      = Ok (PDict (items ++ extra'))
      /\ tag_mapping (PDict (items ++ extra'))
      /\ Forall (fun kv => snd kv = PStr "NULL"
                           /\ exists n, In n (seen ++ names)
                                        /\ fst kv = PStr n) extra'
      /\ Forall (fun n => dict_mem py_eqb (items ++ extra') (PStr n) = true)
                (seen ++ names).
Proof.
  induction names as [|n names IH]; intros seen items extra Hm Hnames Hex Hseen.
  - exists extra. rewrite app_nil_r in *.
    split; [reflexivity|]. split; [exact Hm|]. split; assumption.
  - inversion Hnames as [|? ? Hn Hnames']; subst.
    cbn [foldM]. unfold add_missing at 1. cbn [not_in bind].
    replace (seen ++ n :: names) with ((seen ++ [n]) ++ names) in *
      by (rewrite <- app_assoc; reflexivity).
    destruct (dict_mem py_eqb (items ++ extra) (PStr n)) eqn:Hmem;
      cbn [negb].
    + apply (IH (seen ++ [n]) items extra Hm Hnames' Hex).
      apply Forall_app. split; [exact Hseen|].
      constructor; [exact Hmem|constructor].
    + cbn [set_null bind].
      apply tag_mapping_items in Hm. destruct Hm as [Hnd Hitems].
      destruct (absent_key (items ++ extra) n) as [Hfresh Hnotin];
        [eapply Forall_impl; [|exact Hitems]; intros kv [H _]; exact H
        |exact Hmem|].
      rewrite dict_set_fresh by exact Hfresh.
      rewrite <- app_assoc.
      apply (IH (seen ++ [n]) items (extra ++ [(PStr n, PStr "NULL")])).
      * rewrite app_assoc. apply tag_mapping_items. split.
        -- rewrite map_app. cbn [map fst].
           apply (Permutation_NoDup (Permutation_cons_append _ _)).
           constructor; [exact Hnotin|exact Hnd].
        -- apply Forall_app. split; [exact Hitems|].
           constructor; [|constructor]. cbn [fst snd]. split.
           ++ exists n. split; [reflexivity|exact Hn].
           ++ left. exists "NULL"%string. reflexivity.
      * exact Hnames'.
      * apply Forall_app. split; [exact Hex|].
        constructor; [|constructor]. cbn [fst snd]. split; [reflexivity|].
        exists n. split; [|reflexivity].
        apply in_or_app. left. apply in_or_app. right. left. reflexivity.
      * apply Forall_app. split.
        -- eapply Forall_impl; [|exact Hseen]. intros k Hk.
           rewrite app_assoc. apply present_key. exact Hk.
        -- constructor; [|constructor].
           rewrite app_assoc. apply present_last.
Qed.

Lemma null_tags_completes :
  forall (names : list string) (tags : pyobj),
    Forall (fun n => n <> FROZEN_TAG) names ->
    frozen_tags tags ->
    exists tags', null_tags names tags = Ok tags' /\ completes names tags tags'.
Proof.
  intros names tags Hnames [items [-> Hm]].
  unfold null_tags. rewrite (thaw_frozen items Hm). cbn [bind].
  destruct (add_missing_loop names [] items []) as [extra [Hloop [Hm' [Hex Hall]]]].
  - rewrite app_nil_r. exact Hm.
  - exact Hnames.
  - constructor.
  - constructor.
  - rewrite app_nil_r in Hloop. rewrite Hloop. cbn [bind].
    eexists. split; [reflexivity|].
    exists items, extra. cbn [app] in Hex, Hall.
    split; [reflexivity|]. split; [reflexivity|].
    split; [exact Hm'|]. split; assumption.
Qed.

Section Sentences.

Variable W : Type.
Variable names : list string.
Hypothesis names_plain : Forall (fun n => n <> FROZEN_TAG) names.

Local Abbreviation sentence := (sentence W).

Lemma null_sentence_completed :
  forall wm : sentence,
    Forall frozen_tags (snd wm) ->
    exists wm', null_sentence names wm = Ok wm' /\ completed names wm wm'.
Proof.
  intros [w m] Hm. cbn [snd] in Hm. unfold null_sentence. cbn [fst snd].
  destruct (mapM_Forall2 _ _ (null_tags names) (completes names) m)
    as [new [Hnew HF]].
  - intros tags Hin. apply null_tags_completes; [exact names_plain|].
    rewrite Forall_forall in Hm. apply Hm, Hin.
  - rewrite Hnew. cbn [bind]. eexists. split; [reflexivity|].
    split; [reflexivity|exact HF].
Qed.

Lemma null_language_cons :
  forall (e : string * list sentence) (cur : list (string * list sentence))
         (lang : string),
    String.eqb (fst e) lang = false ->
    null_language names (e :: cur) lang
    = (cur' <- null_language names cur lang ;; Ok (e :: cur')).
Proof.
  intros [k v] cur lang E. cbn [fst] in E. unfold null_language.
  cbn [dict_get]. rewrite E.
  destruct (dict_get String.eqb cur lang) as [sents|]; [|reflexivity].
  destruct (mapM (null_sentence names) sents) as [new|err]; [|reflexivity].
  cbn [bind dict_set]. rewrite E. reflexivity.
Qed.

Lemma null_language_step :
  forall (annot cur : list (string * list sentence))
         (processed : list string) (lang : string),
    NoDup (map fst annot) ->
    Forall (fun e => Forall (fun s => Forall frozen_tags (snd s)) (snd e))
           annot ->
    after names processed annot cur ->
    ~ In lang processed ->
    In lang (map fst annot) ->
    exists cur',
      null_language names cur lang = Ok cur'
      /\ after names (lang :: processed) annot cur'.
Proof.
  intros annot cur processed lang Hnd Hwf Hafter Hnew Hin.
  induction Hafter as [|e e' annot cur [Hk [Hdone Hkeep]] Hafter IH];
    [contradiction|].
  inversion Hnd as [|? ? Hnotin Hnd']; subst.
  inversion Hwf as [|? ? He Hwf']; subst.
  destruct (String.eqb (fst e') lang) eqn:E.
  - apply String.eqb_eq in E.
    assert (Hlang : fst e = lang) by congruence.
    unfold null_language. destruct e' as [k' v']. cbn [fst snd] in *.
    cbn [dict_get]. rewrite E, String.eqb_refl.
    assert (Hv : v' = snd e) by (apply Hkeep; rewrite Hlang; exact Hnew).
    rewrite Hv.
    destruct (mapM_Forall2 _ _ (null_sentence names) (completed names) (snd e))
      as [new [Hmap HF]].
    { intros s Hs. apply null_sentence_completed.
      rewrite Forall_forall in He. apply He, Hs. }
    rewrite Hmap. cbn [bind dict_set]. rewrite String.eqb_refl.
    eexists. split; [reflexivity|].
    constructor.
    + cbn [fst snd]. split; [congruence|]. split.
      * intros _. exact HF.
      * intros Hn. exfalso. apply Hn. left. symmetry. exact Hlang.
    + eapply Forall2_impl_in; [|exact Hafter].
      intros x x' Hx _ [Hxk [Hxd Hxkeep]].
      assert (Hne : fst x <> lang).
      { intros Heq. apply Hnotin. rewrite Hlang, <- Heq.
        apply in_map. exact Hx. }
      split; [exact Hxk|]. split.
      * intros [Heq|Hp]; [congruence|apply Hxd; exact Hp].
      * intros Hn. apply Hxkeep. intros Hp. apply Hn. right. exact Hp.
  - rewrite (null_language_cons e' cur lang E).
    assert (Hne : fst e <> lang).
    { intros Heq. apply String.eqb_neq in E. apply E. congruence. }
    destruct IH as [cur' [Hrun Hafter']]; try assumption.
    { destruct Hin as [Heq|Hin]; [contradiction|exact Hin]. }
    rewrite Hrun. cbn [bind]. eexists. split; [reflexivity|].
    constructor; [|exact Hafter'].
    split; [exact Hk|]. split.
    + intros [Heq|Hp]; [congruence|apply Hdone; exact Hp].
    + intros Hn. apply Hkeep. intros Hp. apply Hn. right. exact Hp.
Qed.

Lemma after_ext :
  forall (p q : list string) (annot cur : list (string * list sentence)),
    (forall k, In k p <-> In k q) ->
    after names p annot cur -> after names q annot cur.
Proof.
  intros p q annot cur Hpq H. unfold after in *.
  eapply Forall2_impl; [|exact H].
  intros e e' [Hk [Hd Hkeep]]. split; [exact Hk|]. split.
  - intros Hq. apply Hd, Hpq, Hq.
  - intros Hn. apply Hkeep. intros Hp. apply Hn, Hpq, Hp.
Qed.

Lemma null_languages_loop :
  forall (langs processed : list string)
         (annot cur : list (string * list sentence)),
    NoDup (map fst annot) ->
    Forall (fun e => Forall (fun s => Forall frozen_tags (snd s)) (snd e))
           annot ->
    after names processed annot cur ->
    NoDup (processed ++ langs) ->
    Forall (fun lang => In lang (map fst annot)) langs ->
    exists cur',
      foldM (null_language names) langs cur = Ok cur'
      /\ after names (processed ++ langs) annot cur'.
Proof.
  induction langs as [|lang langs IH];
    intros processed annot cur Hnd Hwf Hafter Hlangs Hkeys.
  - exists cur. rewrite app_nil_r. split; [reflexivity|exact Hafter].
  - inversion Hkeys as [|? ? Hin Hkeys']; subst.
    destruct (null_language_step annot cur processed lang Hnd Hwf Hafter)
      as [cur1 [Hrun Hafter1]].
    + apply NoDup_remove_2 in Hlangs. intros Hp. apply Hlangs.
      apply in_or_app. left. exact Hp.
    + exact Hin.
    + cbn [foldM]. rewrite Hrun. cbn [bind].
      destruct (IH (processed ++ [lang]) annot cur1 Hnd Hwf) as [cur' [Hfold Hfin]].
      * apply (after_ext (lang :: processed)); [|exact Hafter1].
        intros k. rewrite in_app_iff. cbn [In]. tauto.
      * rewrite <- app_assoc. exact Hlangs.
      * exact Hkeys'.
      * exists cur'. split; [exact Hfold|].
        rewrite <- app_assoc in Hfin. exact Hfin.
Qed.

End Sentences.

(** X16. On annotations whose tag-sets are frozen tag mappings, for
    distinct languages that are all keys of the annotations and tag names
    other than the reserved key, [addNullLabels] returns the annotations
    with the same languages and words, where every tag-set of a listed
    language has been thawed, given the label ["NULL"] for every tag it
    lacked, after its own entries, and frozen again, so that every tag-set
    has every tag; the other languages are left as they were. *)
Theorem addNullLabels_completes :
  forall (W : Type) (annot_sents : list (string * list (sentence W)))
         (langs unique_tags : list string),
    NoDup (map fst annot_sents) ->
    NoDup langs ->
    Forall (fun lang => In lang (map fst annot_sents)) langs ->
    Forall (fun e => Forall (fun s => Forall frozen_tags (snd s)) (snd e))
           annot_sents ->
    Forall (fun n => n <> FROZEN_TAG) unique_tags ->
    exists annot',
      addNullLabels annot_sents langs unique_tags = Ok annot'
      /\ after unique_tags langs annot_sents annot'.
Proof.
  intros W annot langs names Hnd Hlangs Hkeys Hwf Hnames.
  destruct (null_languages_loop W names Hnames langs [] annot annot Hnd Hwf)
    as [annot' [Hrun Hafter]].
  - unfold after. clear. induction annot as [|e annot IH]; constructor.
    + split; [reflexivity|]. split; [intros []|reflexivity].
    + exact IH.
  - exact Hlangs.
  - exact Hkeys.
  - exists annot'. split; [exact Hrun|exact Hafter].
Qed.

Lemma addNullLabels_completes_witness :
  let tags := freeze_dict (PDict [(PStr "POS", PStr "NOUN")]) in
  let annot := [("en", [(tt, [tags])]); ("de", [(tt, [tags])])]%string in
  addNullLabels annot ["en"]%string ["POS"; "Case"]%string
  = Ok [("en", [(tt, [freeze_dict (PDict [(PStr "POS", PStr "NOUN");
                                           (PStr "Case", PStr "NULL")])])]);
        ("de", [(tt, [tags])])]%string
  /\ exists annot',
       addNullLabels annot ["en"]%string ["POS"; "Case"]%string = Ok annot'
       /\ after ["POS"; "Case"]%string ["en"]%string annot annot'.
Proof.
  intros tags annot. split; [reflexivity|].
  apply (addNullLabels_completes unit annot).
  - repeat constructor; simpl; intuition discriminate.
  - repeat constructor; simpl; intuition discriminate.
  - repeat constructor.
  - repeat constructor;
      (exists [(PStr "POS", PStr "NOUN")]; split; [reflexivity|];
       prove_tag_mapping).
  - repeat constructor; discriminate.
Defined.

End NullLabelsProofs.

(** ** Scorer: micro and weighted scores *)

Module ScorerLaws.

Import Scorer ScorerTotals PyFacts DictFacts ScorerProofs.
Local Open Scope Z_scope.

(** *** Counting by key *)

Lemma fold_add_init :
  forall (l : list Z) (a : Z),
    fold_left Z.add l a = a + fold_right Z.add 0 l.
Proof.
  induction l as [|x l IH]; intros a; cbn [fold_left fold_right]; [lia|].
  rewrite IH. lia.
Qed.

Lemma sum_values_fold :
  forall d : counts, sum_values d = fold_right Z.add 0 (map snd d).
Proof. intros d. unfold sum_values. rewrite fold_add_init. lia. Qed.

Lemma sum_map_add :
  forall (A : Type) (f g : A -> Z) (l : list A),
    fold_right Z.add 0 (map (fun a => f a + g a) l)
    = fold_right Z.add 0 (map f l) + fold_right Z.add 0 (map g l).
Proof.
  induction l as [|a l IH]; cbn [map fold_right]; [reflexivity|].
  rewrite IH. lia.
Qed.

Lemma sum_indicator :
  forall (keys : list string) (a : string),
    NoDup keys ->
    fold_right Z.add 0 (map (fun k => if str_eqb a k then 1 else 0) keys)
    = if in_dec string_dec a keys then 1 else 0.
Proof.
  induction keys as [|k keys IH]; intros a Hnd; [reflexivity|].
  inversion Hnd as [|? ? Hnotin Hnd']; subst.
  cbn [map fold_right]. rewrite (IH a Hnd').
  destruct (str_eqb a k) eqn:E.
  - apply str_eqb_eq in E. subst k.
    destruct (in_dec string_dec a keys) as [Hin|_]; [contradiction|].
    destruct (in_dec string_dec a (a :: keys)) as [_|Hn]; [reflexivity|].
    exfalso. apply Hn. left. reflexivity.
  - assert (Hne : a <> k).
    { intros ->. unfold str_eqb in E. rewrite String.eqb_refl in E.
      discriminate. }
    destruct (in_dec string_dec a keys) as [Hin|Hn];
      destruct (in_dec string_dec a (k :: keys)) as [Hin'|Hn'];
      try reflexivity.
    + exfalso. apply Hn'. right. exact Hin.
    + exfalso. destruct Hin' as [Heq|Hin']; [congruence|contradiction].
Qed.

Lemma count_by_key :
  forall (q : string * string -> bool) (x : word_tags) (keys : list string),
    NoDup keys ->
    (forall kv, In kv x -> q kv = true -> In (fst kv) keys) ->
    fold_right Z.add 0
      (map (fun k =>
              Z.of_nat (length (filter (fun kv => str_eqb (fst kv) k && q kv)
                                  x)))
           keys)
    = Z.of_nat (length (filter q x)).
Proof.
  intros q x keys Hnd. induction x as [|kv x IH]; intros Hcov.
  - cbn [filter length]. clear Hnd Hcov.
    induction keys as [|k keys IHk]; [reflexivity|].
    cbn [map fold_right]. rewrite IHk. reflexivity.
  - rewrite (map_ext _ (fun k =>
               (if str_eqb (fst kv) k then (if q kv then 1 else 0) else 0)
               + Z.of_nat (length (filter (fun kv' => str_eqb (fst kv') k
                                                      && q kv') x)))).
    + rewrite sum_map_add, IH
        by (intros kv' Hin; apply Hcov; right; exact Hin).
      rewrite filter_length_cons. f_equal.
      destruct (q kv) eqn:Hq.
      * rewrite (sum_indicator keys (fst kv) Hnd).
        destruct (in_dec string_dec (fst kv) keys) as [_|Hn]; [reflexivity|].
        exfalso. apply Hn. apply Hcov; [left; reflexivity|exact Hq].
      * clear. induction keys as [|k keys IHk]; cbn; [reflexivity|].
        rewrite IHk. destruct (str_eqb (fst kv) k); reflexivity.
    + intros k. rewrite filter_length_cons.
      destruct (str_eqb (fst kv) k), (q kv); reflexivity.
Qed.

Lemma support_nonneg : forall sentinel k xs, 0 <= support sentinel k xs.
Proof.
  intros sentinel k xs. induction xs as [|x xs IH]; cbn [support]; lia.
Qed.

Lemma hits_le_support :
  forall sentinel k xs others,
    0 <= hits sentinel k xs others <= support sentinel k xs.
Proof.
  intros sentinel k xs. induction xs as [|x xs IH]; intros [|o others];
    cbn [hits support]; try (pose proof (support_nonneg sentinel k xs)); try lia.
  specialize (IH others).
  assert (length (filter (fun kv => counted sentinel k kv && agrees o kv) x)
          <= length (filter (counted sentinel k) x))%nat.
  { clear. induction x as [|kv x IH]; [cbn; lia|].
    cbn [filter]. destruct (counted sentinel k kv); cbn [andb].
    - destruct (agrees o kv); cbn [length]; lia.
    - exact IH. }
  lia.
Qed.

Lemma total_support_nonneg : forall sentinel xs, 0 <= total_support sentinel xs.
Proof.
  intros sentinel xs. induction xs as [|x xs IH]; cbn [total_support]; lia.
Qed.

Lemma total_hits_le_support :
  forall sentinel xs others,
    0 <= total_hits sentinel xs others <= total_support sentinel xs.
Proof.
  intros sentinel xs. induction xs as [|x xs IH]; intros [|o others];
    cbn [total_hits total_support];
    try (pose proof (total_support_nonneg sentinel xs)); try lia.
  specialize (IH others).
  assert (length (filter (fun kv => scored sentinel kv && agrees o kv) x)
          <= length (filter (scored sentinel) x))%nat.
  { clear. induction x as [|kv x IH]; [cbn; lia|].
    cbn [filter]. destruct (scored sentinel kv); cbn [andb].
    - destruct (agrees o kv); cbn [length]; lia.
    - exact IH. }
  lia.
Qed.

(** A counted entry gives its tag support. *)
Lemma scored_support :
  forall sentinel kv x xs,
    In kv x -> scored sentinel kv = true ->
    support sentinel (fst kv) (x :: xs) <> 0.
Proof.
  intros sentinel kv x xs Hin Hs. cbn [support].
  pose proof (support_nonneg sentinel (fst kv) xs).
  assert (0 < length (filter (counted sentinel (fst kv)) x))%nat; [|lia].
  assert (Hf : In kv (filter (counted sentinel (fst kv)) x)).
  { apply filter_In. split; [exact Hin|].
    unfold counted. unfold scored in Hs. rewrite Hs.
    unfold str_eqb. rewrite String.eqb_refl. reflexivity. }
  destruct (filter (counted sentinel (fst kv)) x); [contradiction|cbn; lia].
Qed.

Lemma support_sum :
  forall sentinel xs (keys : list string),
    NoDup keys ->
    (forall k, support sentinel k xs <> 0 -> In k keys) ->
    fold_right Z.add 0 (map (fun k => support sentinel k xs) keys)
    = total_support sentinel xs.
Proof.
  intros sentinel xs keys Hnd. induction xs as [|x xs IH]; intros Hcov.
  - cbn [support total_support]. clear.
    induction keys as [|k keys IHk]; [reflexivity|].
    cbn [map fold_right]. rewrite IHk. reflexivity.
  - cbn [support total_support]. rewrite sum_map_add. f_equal.
    + apply (count_by_key (scored sentinel) x keys Hnd).
      intros kv Hin Hs. apply Hcov. apply scored_support; assumption.
    + apply IH. intros k Hk. apply Hcov. cbn [support].
      pose proof (support_nonneg sentinel k xs). lia.
Qed.

Lemma hits_sum :
  forall sentinel xs others (keys : list string),
    NoDup keys ->
    (forall k, support sentinel k xs <> 0 -> In k keys) ->
    fold_right Z.add 0 (map (fun k => hits sentinel k xs others) keys)
    = total_hits sentinel xs others.
Proof.
  intros sentinel xs others keys Hnd. revert others.
  assert (Hzero : fold_right Z.add 0 (map (fun _ : string => 0) keys) = 0).
  { clear. induction keys as [|k keys IHk]; [reflexivity|].
    cbn [map fold_right]. rewrite IHk. reflexivity. }
  induction xs as [|x xs IH]; intros [|o others] Hcov;
    cbn [hits total_hits]; try exact Hzero.
  rewrite sum_map_add. f_equal.
  - rewrite <- (count_by_key (fun kv => scored sentinel kv && agrees o kv)
                  x keys Hnd).
    + f_equal. apply map_ext. intros k. do 2 f_equal.
      apply filter_ext. intros kv. unfold counted, scored.
      rewrite andb_assoc. reflexivity.
    + intros kv Hin Hs. apply andb_true_iff in Hs. destruct Hs as [Hs _].
      apply Hcov. apply scored_support; assumption.
  - apply IH. intros k Hk. apply Hcov. cbn [support].
    pose proof (support_nonneg sentinel k xs). lia.
Qed.

Lemma map_snd_by_key :
  forall (d : counts) (f : string -> Z),
    (forall k v, In (k, v) d -> v = f k) ->
    map snd d = map f (map fst d).
Proof.
  induction d as [|[k v] d IH]; intros f H; [reflexivity|].
  cbn [map fst snd]. f_equal.
  - apply H. left. reflexivity.
  - apply IH. intros k' v' Hin. apply H. right. exact Hin.
Qed.

(** The sums of the two tables [tally] returns. *)
Lemma represents_sums :
  forall sentinel xs others scores total,
    represents (scores, total)
      (fun k => hits sentinel k xs others) (fun k => support sentinel k xs) ->
    sum_values scores = total_hits sentinel xs others
    /\ sum_values total = total_support sentinel xs.
Proof.
  intros sentinel xs others scores total [Hnds [Hndt Hrep]].
  cbn [fst snd] in *.
  assert (Hcov : forall (d : counts),
            (forall k, dict_get str_eqb d k = None
                       <-> support sentinel k xs = 0) ->
            forall k, support sentinel k xs <> 0 -> In k (map fst d)).
  { intros d Hd k Hk.
    destruct (in_dec string_dec k (map fst d)) as [Hin|Hn]; [exact Hin|].
    exfalso. apply Hk. apply Hd.
    apply (dict_get_notin _ str_eqb_eq). exact Hn. }
  split.
  - rewrite sum_values_fold.
    rewrite (map_snd_by_key scores (fun k => hits sentinel k xs others)).
    + apply hits_sum; [exact Hnds|]. apply Hcov. intros k.
      destruct (Hrep k) as [_ [_ Hs]]. rewrite Hs.
      destruct (support sentinel k xs =? 0) eqn:E.
      * apply Z.eqb_eq in E. tauto.
      * apply Z.eqb_neq in E. split; [discriminate|contradiction].
    + intros k v Hin.
      pose proof (dict_get_in _ str_eqb_eq _ _ _ Hnds Hin) as Hget.
      destruct (Hrep k) as [_ [_ Hs]]. rewrite Hs in Hget.
      destruct (support sentinel k xs =? 0); congruence.
  - rewrite sum_values_fold.
    rewrite (map_snd_by_key total (fun k => support sentinel k xs)).
    + apply support_sum; [exact Hndt|]. apply Hcov. intros k.
      destruct (Hrep k) as [_ [Ht _]]. rewrite Ht.
      destruct (support sentinel k xs =? 0) eqn:E.
      * apply Z.eqb_eq in E. tauto.
      * apply Z.eqb_neq in E. split; [discriminate|contradiction].
    + intros k v Hin.
      pose proof (dict_get_in _ str_eqb_eq _ _ _ Hndt Hin) as Hget.
      destruct (Hrep k) as [_ [Ht _]]. rewrite Ht in Hget.
      destruct (support sentinel k xs =? 0); congruence.
Qed.

(** *** Ratios and their harmonic mean *)

Lemma ratio_unit :
  forall a b, 0 <= a <= b -> 0 < b ->
              (0 <= inject_Z a / inject_Z b /\ inject_Z a / inject_Z b <= 1)%Q.
Proof.
  intros a b Ha Hb. split.
  - apply ratio_nonneg; lia.
  - apply Qle_shift_div_r.
    + change 0%Q with (inject_Z 0). rewrite <- Zlt_Qlt. exact Hb.
    + rewrite Qmult_1_l. rewrite <- Zle_Qle. lia.
Qed.

Lemma harmonic_unit :
  forall p r : Q,
    (0 <= p)%Q -> (p <= 1)%Q -> (0 <= r)%Q -> (r <= 1)%Q -> (0 < p + r)%Q ->
    (0 <= 2 * (p * r) / (p + r) /\ 2 * (p * r) / (p + r) <= 1)%Q.
Proof.
  intros p r Hp0 Hp1 Hr0 Hr1 Hpos.
  assert (Hpr : (0 <= p * r)%Q) by (apply Qmult_le_0_compat; assumption).
  assert (Hpr1 : (p * r <= p)%Q).
  { rewrite <- (Qmult_1_r p) at 2.
    rewrite (Qmult_comm p r), (Qmult_comm p 1).
    apply Qmult_le_compat_r; assumption. }
  assert (Hpr2 : (p * r <= r)%Q).
  { rewrite <- (Qmult_1_l r) at 2. apply Qmult_le_compat_r; assumption. }
  split.
  - apply Qle_shift_div_l; [exact Hpos|]. Lqa.lra.
  - apply Qle_shift_div_r; [exact Hpos|]. Lqa.lra.
Qed.

Lemma f1_value_unit :
  forall (precision : option Q) (r : Q),
    (forall p, precision = Some p -> (0 <= p)%Q /\ (p <= 1)%Q) ->
    (0 <= r)%Q -> (r <= 1)%Q ->
    (0 <= f1_value precision r /\ f1_value precision r <= 1)%Q.
Proof.
  intros [p|] r Hp Hr0 Hr1; unfold f1_value; [|split; Lqa.lra].
  destruct (Hp p eq_refl) as [Hp0 Hp1].
  destruct (Qeq_bool r 0) eqn:E; [split; Lqa.lra|].
  apply Qeq_bool_neq in E.
  apply harmonic_unit; try assumption.
  assert (0 < r)%Q; [|Lqa.lra].
  apply Qle_lt_or_eq in Hr0. destruct Hr0 as [H|H]; [exact H|].
  exfalso. apply E. symmetry. exact H.
Qed.

Lemma ratio_some_unit :
  forall sentinel k xs others p,
    ratio sentinel k xs others = Some p -> (0 <= p)%Q /\ (p <= 1)%Q.
Proof.
  intros sentinel k xs others p H. unfold ratio in H.
  destruct (support sentinel k xs =? 0) eqn:E; [discriminate|].
  injection H as <-. apply Z.eqb_neq in E.
  pose proof (hits_le_support sentinel k xs others).
  apply ratio_unit; lia.
Qed.

Lemma tag_score_unit :
  forall hyps golds k,
    support "_" k golds <> 0 ->
    (0 <= tag_score hyps golds k /\ tag_score hyps golds k <= 1)%Q.
Proof.
  intros hyps golds k Hk. unfold tag_score.
  pose proof (hits_le_support "_" k golds hyps).
  destruct (ratio_unit (hits "_" k golds hyps) (support "_" k golds))
    as [H0 H1]; [lia|lia|].
  apply f1_value_unit; [|exact H0|exact H1].
  intros p Hp. apply (ratio_some_unit _ _ _ _ _ Hp).
Qed.

(** *** The loop over the tags *)

Lemma f1_fold_average :
  forall (precision : list (string * Q)) (total : counts) (c : string -> Z)
         (todo : counts) (st st' : f1_state),
    (forall k p, dict_get str_eqb precision k = Some p -> (0 <= p)%Q) ->
    (forall ks, In ks todo ->
                0 <= snd ks /\ 0 < c (fst ks)
                /\ dict_get str_eqb total (fst ks) = Some (c (fst ks))) ->
    foldM (f1_step precision total) todo st = Ok st' ->
    f1_average st' =
    fold_left (fun acc ks =>
                 (acc + inject_Z (c (fst ks))
                        * f1_value (dict_get str_eqb precision (fst ks))
                            (inject_Z (snd ks) / inject_Z (c (fst ks))))%Q)
              todo (f1_average st).
Proof.
  intros precision total c todo.
  induction todo as [|[k s] todo IH]; intros st st' Hprec Htodo Hfold.
  - cbn in Hfold. injection Hfold as <-. reflexivity.
  - destruct (Htodo (k, s) (or_introl eq_refl)) as [Hs [Hc Ht]].
    cbn [fst snd] in Hs, Hc, Ht.
    cbn [foldM] in Hfold. unfold f1_step at 1 in Hfold.
    cbn [fst snd] in Hfold.
    rewrite Ht, py_div_ok in Hfold by lia. cbn [bind] in Hfold.
    rewrite tag_f1_ok in Hfold; [|apply Hprec|apply ratio_nonneg; lia].
    cbn [bind] in Hfold.
    rewrite (IH _ st' Hprec (fun ks H => Htodo ks (or_intror H)) Hfold).
    reflexivity.
Qed.

Lemma fold_left_ext_in :
  forall (A B : Type) (f g : B -> A -> B) (l : list A) (b : B),
    (forall b a, In a l -> f b a = g b a) ->
    fold_left f l b = fold_left g l b.
Proof.
  intros A B f g l. induction l as [|a l IH]; intros b H; [reflexivity|].
  cbn [fold_left]. rewrite (H b a (or_introl eq_refl)).
  apply IH. intros b' a' Hin. apply H. right. exact Hin.
Qed.

Lemma fold_left_map_fst :
  forall (A B C : Type) (f : C -> A -> C) (l : list (A * B)) (c : C),
    fold_left (fun acc ab => f acc (fst ab)) l c
    = fold_left f (map fst l) c.
Proof.
  intros A B C f l. induction l as [|ab l IH]; intros c; [reflexivity|].
  cbn [map fold_left]. apply IH.
Qed.

(** The weighted sum lies between 0 and the sum of the weights. *)
Lemma weighted_bounds :
  forall (w : string -> Z) (f : string -> Q) (tags : list string) (acc : Q)
         (A : Z),
    (forall k, In k tags -> 0 <= w k /\ (0 <= f k)%Q /\ (f k <= 1)%Q) ->
    (0 <= acc)%Q -> (acc <= inject_Z A)%Q ->
    (0 <= fold_left (fun acc k => acc + inject_Z (w k) * f k) tags acc)%Q
    /\ (fold_left (fun acc k => acc + inject_Z (w k) * f k) tags acc
        <= inject_Z (A + fold_right Z.add 0 (map w tags))%Z)%Q.
Proof.
  intros w f tags. induction tags as [|k tags IH]; intros acc A H H0 HA.
  - cbn [fold_left map fold_right]. rewrite Z.add_0_r. split; assumption.
  - cbn [fold_left map fold_right].
    destruct (H k (or_introl eq_refl)) as [Hw [Hf0 Hf1]].
    assert (Hw' : (0 <= inject_Z (w k))%Q).
    { change 0%Q with (inject_Z 0). rewrite <- Zle_Qle. exact Hw. }
    assert (Hlo : (0 <= inject_Z (w k) * f k)%Q)
      by (apply Qmult_le_0_compat; assumption).
    assert (Hhi : (inject_Z (w k) * f k <= inject_Z (w k))%Q).
    { rewrite <- (Qmult_1_r (inject_Z (w k))) at 2.
      rewrite (Qmult_comm _ (f k)), (Qmult_comm _ 1).
      apply Qmult_le_compat_r; assumption. }
    replace (A + (w k + fold_right Z.add 0 (map w tags)))
      with ((A + w k) + fold_right Z.add 0 (map w tags)) by lia.
    apply IH.
    + intros k' Hk'. apply H. right. exact Hk'.
    + Lqa.lra.
    + rewrite inject_Z_plus. Lqa.lra.
Qed.

(** *** [computeF1] on the totals *)

Lemma computeF1_chain :
  forall hyps golds : list word_tags,
    length golds = length hyps ->
    exists (tags : list string) (st : f1_state),
      NoDup tags
      /\ (forall k, In k tags <-> support "_" k golds <> 0)
      /\ f1_average st = weighted_f1 hyps golds tags
      /\ computeF1 hyps golds =
         (f1_micro_precision <-
            py_div (total_hits "NULL" hyps golds) (total_support "NULL" hyps) ;;
          f1_micro_recall <-
            py_div (total_hits "_" golds hyps) (total_support "_" golds) ;;
          f1_average <-
            py_divQ (f1_average st) (inject_Z (total_support "_" golds)) ;;
          f1_micro_score <-
            py_divQ (2 * (f1_micro_precision * f1_micro_recall))%Q
                    (f1_micro_precision + f1_micro_recall)%Q ;;
          Ok (f1_average, f1_micro_score)).
Proof.
  intros hyps golds Hlen.
  destruct (tally_ok "NULL" hyps golds Hlen) as [[ps pt] [Hp Hprep]].
  destruct (per_tag_ok ps pt _ _ Hprep) as [precision [Hprec Hpget]].
  destruct (tally_ok "_" golds hyps (eq_sym Hlen)) as [[rs rt] [Hr Hrrep]].
  assert (Hratio : forall k, dict_get str_eqb precision k
                             = ratio "NULL" k hyps golds).
  { intros k. rewrite Hpget. reflexivity. }
  assert (Hnonneg : forall k q, dict_get str_eqb precision k = Some q ->
                                (0 <= q)%Q).
  { intros k q Hq. rewrite Hratio in Hq.
    apply (ratio_some_unit _ _ _ _ _ Hq). }
  destruct (f1_loop_ok precision rs rt _ _ Hnonneg Hrrep) as [st [Hloop _]].
  destruct (represents_sums "NULL" hyps golds ps pt Hprep) as [Hps Hpt].
  destruct (represents_sums "_" golds hyps rs rt Hrrep) as [Hrs Hrt].
  exists (map fst rs), st.
  split; [|split; [|split]].
  - destruct Hrrep as [Hnd _]. exact Hnd.
  - intros k. destruct Hrrep as [Hnd [_ Hrep]]. cbn [fst snd] in *.
    destruct (Hrep k) as [_ [_ Hs]].
    destruct (support "_" k golds =? 0) eqn:E.
    + apply Z.eqb_eq in E.
      apply (dict_get_notin _ str_eqb_eq) in Hs. split; [contradiction|lia].
    + apply Z.eqb_neq in E. split; [intros _; exact E|intros _].
      destruct (in_dec string_dec k (map fst rs)) as [Hin|Hn]; [exact Hin|].
      apply (dict_get_notin _ str_eqb_eq) in Hn. congruence.
  - unfold f1_loop in Hloop.
    rewrite (f1_fold_average precision rt (fun k => support "_" k golds)
               rs _ st Hnonneg) by
      (try exact Hloop; intros [k s] Hin; cbn [fst snd];
       destruct (represents_entry _ _ _ _ _ _ Hrrep Hin) as [-> [Hm [Hc Ht]]];
       auto).
    cbn [f1_average]. unfold weighted_f1.
    rewrite <- fold_left_map_fst.
    apply fold_left_ext_in. intros acc [k s] Hin. cbn [fst snd].
    destruct (represents_entry _ _ _ _ _ _ Hrrep Hin) as [-> _].
    unfold tag_score. rewrite Hratio. reflexivity.
  - unfold computeF1. rewrite Hp. cbn [bind fst snd]. rewrite Hps, Hpt.
    destruct (py_div _ _) as [mp|e]; [|reflexivity].
    cbn [bind]. rewrite Hprec. cbn [bind]. rewrite Hr. cbn [bind fst snd].
    rewrite Hrs, Hrt.
    destruct (py_div _ _) as [mr|e]; [|reflexivity].
    cbn [bind]. rewrite Hloop. reflexivity.
Qed.

Lemma inject_Z_pos : forall z, 0 < z -> (0 < inject_Z z)%Q.
Proof.
  intros z Hz. change 0%Q with (inject_Z 0). rewrite <- Zlt_Qlt. exact Hz.
Qed.

Lemma Qeq_bool_pos : forall q : Q, (0 < q)%Q -> Qeq_bool q 0 = false.
Proof.
  intros q Hq. destruct (Qeq_bool q 0) eqn:E; [|reflexivity].
  apply Qeq_bool_eq in E. rewrite E in Hq. exfalso.
  apply (Qlt_irrefl 0). exact Hq.
Qed.

Lemma ratio_pos :
  forall a b, 0 < a -> 0 < b -> (0 < inject_Z a / inject_Z b)%Q.
Proof.
  intros a b Ha Hb. apply Qlt_shift_div_l; [apply inject_Z_pos; exact Hb|].
  rewrite Qmult_0_l. apply inject_Z_pos. exact Ha.
Qed.

(** X17. With as many gold tag-sets as hypotheses, [computeF1] returns
    exactly when some predicted value is not ["NULL"], some gold value is
    not ["_"] and at least one counted entry agrees with the other side;
    otherwise it raises [ZeroDivisionError]. The micro score it returns
    is the harmonic mean of the micro precision (agreeing predicted
    entries over predicted entries, ["NULL"] values left out) and the
    micro recall (the same over the gold entries, ["_"] values left
    out). *)
Theorem computeF1_micro :
  forall hyps golds : list word_tags,
    length golds = length hyps ->
    let sp := total_support "NULL" hyps in
    let hp := total_hits "NULL" hyps golds in
    let sr := total_support "_" golds in
    let hr := total_hits "_" golds hyps in
    if (sp =? 0) || (sr =? 0) || ((hp =? 0) && (hr =? 0))
    then computeF1 hyps golds = Err ZeroDivisionError
    else exists f1_average,
           computeF1 hyps golds =
           Ok (f1_average,
               (2 * ((inject_Z hp / inject_Z sp) * (inject_Z hr / inject_Z sr))
                / ((inject_Z hp / inject_Z sp) + (inject_Z hr / inject_Z sr)))%Q).
Proof.
  intros hyps golds Hlen sp hp sr hr.
  destruct (computeF1_chain hyps golds Hlen) as [tags [st [_ [_ [_ Hc]]]]].
  fold sp hp sr hr in Hc. rewrite Hc. clear Hc.
  pose proof (total_hits_le_support "NULL" hyps golds) as Hp.
  pose proof (total_hits_le_support "_" golds hyps) as Hr.
  fold sp hp in Hp. fold sr hr in Hr.
  unfold py_div.
  destruct (sp =? 0) eqn:Esp; cbn [orb bind]; [reflexivity|].
  destruct (sr =? 0) eqn:Esr; cbn [orb bind]; [reflexivity|].
  apply Z.eqb_neq in Esp, Esr.
  unfold py_divQ.
  rewrite (Qeq_bool_pos (inject_Z sr)) by (apply inject_Z_pos; lia).
  cbn [bind].
  assert (HP0 : (0 <= inject_Z hp / inject_Z sp)%Q)
    by (apply ratio_nonneg; lia).
  assert (HR0 : (0 <= inject_Z hr / inject_Z sr)%Q)
    by (apply ratio_nonneg; lia).
  destruct (hp =? 0) eqn:Ehp; cbn [andb].
  - apply Z.eqb_eq in Ehp.
    destruct (hr =? 0) eqn:Ehr.
    + apply Z.eqb_eq in Ehr. rewrite Ehp, Ehr.
      assert (Hz : Qeq_bool (inject_Z 0 / inject_Z sp
                             + inject_Z 0 / inject_Z sr) 0 = true).
      { apply Qeq_bool_iff. unfold Qdiv. rewrite !Qmult_0_l. reflexivity. }
      rewrite Hz. reflexivity.
    + apply Z.eqb_neq in Ehr.
      rewrite (Qeq_bool_pos (inject_Z hp / inject_Z sp
                             + inject_Z hr / inject_Z sr)).
      * cbn [bind]. eexists. reflexivity.
      * pose proof (ratio_pos hr sr ltac:(lia) ltac:(lia)). Lqa.lra.
  - apply Z.eqb_neq in Ehp.
    rewrite (Qeq_bool_pos (inject_Z hp / inject_Z sp
                           + inject_Z hr / inject_Z sr)).
    + cbn [bind]. eexists. reflexivity.
    + pose proof (ratio_pos hp sp ltac:(lia) ltac:(lia)). Lqa.lra.
Qed.

Lemma computeF1_micro_witness :
  exists f1_average,
    computeF1 [[("POS", "NOUN"); ("Case", "Acc")]]%string
              [[("POS", "NOUN"); ("Case", "Nom")]]%string
    = Ok (f1_average,
          (2 * ((inject_Z 1 / inject_Z 2) * (inject_Z 1 / inject_Z 2))
           / ((inject_Z 1 / inject_Z 2) + (inject_Z 1 / inject_Z 2)))%Q).
Proof.
  exact (computeF1_micro [[("POS", "NOUN"); ("Case", "Acc")]]%string
                         [[("POS", "NOUN"); ("Case", "Nom")]]%string eq_refl).
Defined.

(** X18. Whenever [computeF1] returns, both scores lie between 0 and 1. *)
Theorem computeF1_range :
  forall (hyps golds : list word_tags) (f1_average f1_micro_score : Q),
    length golds = length hyps ->
    computeF1 hyps golds = Ok (f1_average, f1_micro_score) ->
    (0 <= f1_average)%Q /\ (f1_average <= 1)%Q
    /\ (0 <= f1_micro_score)%Q /\ (f1_micro_score <= 1)%Q.
Proof.
  intros hyps golds avg micro Hlen Hok.
  destruct (computeF1_chain hyps golds Hlen)
    as [tags [st [Hnd [Htags [Havg Hc]]]]].
  rewrite Hc in Hok. clear Hc.
  pose proof (total_hits_le_support "NULL" hyps golds) as Hp.
  pose proof (total_hits_le_support "_" golds hyps) as Hr.
  unfold py_div in Hok.
  destruct (total_support "NULL" hyps =? 0) eqn:Esp; [discriminate|].
  destruct (total_support "_" golds =? 0) eqn:Esr; [discriminate|].
  apply Z.eqb_neq in Esp, Esr. cbn [bind] in Hok.
  unfold py_divQ in Hok.
  destruct (Qeq_bool (inject_Z (total_support "_" golds)) 0); [discriminate|].
  cbn [bind] in Hok.
  destruct (Qeq_bool _ 0) eqn:Esum; [discriminate|].
  cbn [bind] in Hok. injection Hok as <- <-.
  destruct (ratio_unit (total_hits "NULL" hyps golds)
              (total_support "NULL" hyps)) as [HP0 HP1]; [lia|lia|].
  destruct (ratio_unit (total_hits "_" golds hyps)
              (total_support "_" golds)) as [HR0 HR1]; [lia|lia|].
  assert (Hsr : (0 < inject_Z (total_support "_" golds))%Q)
    by (apply inject_Z_pos; lia).
  assert (Hw : (0 <= f1_average st)%Q
               /\ (f1_average st <= inject_Z (total_support "_" golds))%Q).
  { rewrite Havg. unfold weighted_f1.
    rewrite <- (support_sum "_" golds tags Hnd) by (intros k; apply Htags).
    apply (weighted_bounds (fun k => support "_" k golds)
             (tag_score hyps golds) tags 0%Q 0).
    - intros k Hk. apply Htags in Hk.
      pose proof (support_nonneg "_" k golds).
      destruct (tag_score_unit hyps golds k Hk). auto.
    - apply Qle_refl.
    - apply Qle_refl. }
  destruct Hw as [Hw0 Hw1].
  split; [|split].
  - apply Qle_shift_div_l; [exact Hsr|]. Lqa.lra.
  - apply Qle_shift_div_r; [exact Hsr|]. Lqa.lra.
  - apply harmonic_unit; try assumption.
    apply Qeq_bool_neq in Esum.
    assert (Hs : (0 <= inject_Z (total_hits "NULL" hyps golds)
                       / inject_Z (total_support "NULL" hyps)
                     + inject_Z (total_hits "_" golds hyps)
                       / inject_Z (total_support "_" golds))%Q)
      by Lqa.lra.
    apply Qle_lt_or_eq in Hs. destruct Hs as [H|H]; [exact H|].
    exfalso. apply Esum. symmetry. exact H.
Qed.

Lemma computeF1_range_witness :
  computeF1 [[("POS", "NOUN"); ("Case", "Acc"); ("Number", "NULL")]]%string
            [[("POS", "NOUN"); ("Case", "Nom"); ("Number", "_")]]%string
  = Ok ((2 # 4)%Q, (2 * ((1 # 2) * (1 # 2)) / ((1 # 2) + (1 # 2)))%Q)
  /\ (0 <= 2 # 4)%Q /\ (2 # 4 <= 1)%Q
  /\ (0 <= 2 * ((1 # 2) * (1 # 2)) / ((1 # 2) + (1 # 2)))%Q
  /\ (2 * ((1 # 2) * (1 # 2)) / ((1 # 2) + (1 # 2)) <= 1)%Q.
Proof.
  split; [reflexivity|].
  apply (computeF1_range
           [[("POS", "NOUN"); ("Case", "Acc"); ("Number", "NULL")]]%string
           [[("POS", "NOUN"); ("Case", "Nom"); ("Number", "_")]]%string);
    reflexivity.
Defined.

(** X19. The first score [computeF1] returns is a weighted mean: the sum
    over the tags that occur in the gold data (with a value other than
    ["_"]) of the F1 of the tag times the number of its gold entries,
    divided by the number of all such gold entries, which is the sum of
    the weights. *)
Theorem computeF1_weighted_mean :
  forall (hyps golds : list word_tags) (f1_average f1_micro_score : Q),
    length golds = length hyps ->
    computeF1 hyps golds = Ok (f1_average, f1_micro_score) ->
    exists tags : list string,
      NoDup tags
      /\ (forall k, In k tags <-> support "_" k golds <> 0)
      /\ fold_right Z.add 0 (map (fun k => support "_" k golds) tags)
         = total_support "_" golds
      /\ f1_average = (weighted_f1 hyps golds tags
                       / inject_Z (total_support "_" golds))%Q.
Proof.
  intros hyps golds avg micro Hlen Hok.
  destruct (computeF1_chain hyps golds Hlen)
    as [tags [st [Hnd [Htags [Havg Hc]]]]].
  rewrite Hc in Hok. clear Hc.
  exists tags. split; [exact Hnd|]. split; [exact Htags|].
  split; [apply support_sum; [exact Hnd|intros k; apply Htags]|].
  destruct (py_div _ _) as [P|e]; [|discriminate]. cbn [bind] in Hok.
  destruct (py_div _ _) as [R|e]; [|discriminate]. cbn [bind] in Hok.
  unfold py_divQ in Hok at 1.
  destruct (Qeq_bool (inject_Z (total_support "_" golds)) 0); [discriminate|].
  cbn [bind] in Hok.
  destruct (py_divQ _ _) as [m|e]; [|discriminate]. cbn [bind] in Hok.
  injection Hok as <- _. rewrite Havg. reflexivity.
Qed.

Lemma computeF1_weighted_mean_witness :
  exists tags : list string,
    NoDup tags
    /\ (2 # 4)%Q =
       (weighted_f1
          [[("POS", "NOUN"); ("Case", "Acc"); ("Number", "NULL")]]%string
          [[("POS", "NOUN"); ("Case", "Nom"); ("Number", "_")]]%string tags
        / inject_Z (total_support "_"
             [[("POS", "NOUN"); ("Case", "Nom"); ("Number", "_")]]%string))%Q.
Proof.
  destruct (computeF1_weighted_mean
              [[("POS", "NOUN"); ("Case", "Acc"); ("Number", "NULL")]]%string
              [[("POS", "NOUN"); ("Case", "Nom"); ("Number", "_")]]%string
              (2 # 4)%Q (2 * ((1 # 2) * (1 # 2)) / ((1 # 2) + (1 # 2)))%Q
              eq_refl eq_refl) as [tags [Hnd [_ [_ Havg]]]].
  exists tags. split; assumption.
Defined.

End ScorerLaws.

(** ** Log-space kernel: further laws *)

Module LogSpaceLaws.

Import LogSpace LogSpaceProofs MaxProductProofs.
Local Open Scope R_scope.

Lemma logsumexp_shift :
  forall (row : list R) (c : R),
    row <> [] ->
    logsumexp (map (fun x => x + c) row) = logsumexp row + c.
Proof.
  intros row c Hne. unfold logsumexp. rewrite map_map.
  assert (Hs : sum (map (fun x => exp (x + c)) row)
               = sum (map exp row) * exp c).
  { rewrite <- (sum_scale exp). f_equal. apply map_ext.
    intros x. apply exp_plus. }
  rewrite Hs, ln_mult by (auto using exp_pos, sum_exp_pos).
  rewrite ln_exp. reflexivity.
Qed.

Lemma member_le_logsumexp :
  forall (row : list R) (x : R), In x row -> x <= logsumexp row.
Proof.
  intros row x Hin. unfold logsumexp.
  rewrite <- (ln_exp x) at 1.
  pose proof (sum_exp_ge_member row x Hin) as [Hlt|Heq].
  - left. apply ln_increasing; [apply exp_pos|exact Hlt].
  - rewrite Heq. lra.
Qed.

(** X20. The entries of a normalised matrix are log-probabilities: none of
    them is positive. *)
Theorem logNormalize_nonpositive :
  forall (a : matrix) (n k : nat),
    shape a n k -> (1 <= k)%nat ->
    exists normalised,
      logNormalize a = Some normalised
      /\ Forall (Forall (fun x => x <= 0)) normalised.
Proof.
  intros a n k Ha Hk.
  eexists. split; [apply (logNormalize_rows a n k); assumption|].
  apply Forall_map. apply Forall_forall. intros row _.
  apply Forall_map. apply Forall_forall. intros x Hx.
  pose proof (member_le_logsumexp row x Hx). lra.
Qed.

Lemma logNormalize_nonpositive_witness :
  exists normalised,
    logNormalize [[0; 1; 2]; [3; 3; 3]] = Some normalised
    /\ Forall (Forall (fun x => x <= 0)) normalised.
Proof.
  apply (logNormalize_nonpositive [[0; 1; 2]; [3; 3; 3]] 2 3);
    [prove_shape|lia].
Defined.

(** X21. [logNormalize] forgets a constant added to a row: shifting every
    row of the matrix by a number of its own does not change the result. *)
Theorem logNormalize_shift_invariant :
  forall (a : matrix) (n k : nat) (shifts : list R),
    shape a n k -> (1 <= k)%nat -> length shifts = n ->
    logNormalize
      (map (fun p => map (fun x => x + snd p) (fst p)) (combine a shifts))
    = logNormalize a.
Proof.
  intros a n k shifts Ha Hk Hlen.
  assert (Hsh : shape (map (fun p => map (fun x => x + snd p) (fst p))
                         (combine a shifts)) n k).
  { destruct Ha as [Hn Hrows]. split.
    - rewrite length_map, length_combine, Hn, Hlen. apply Nat.min_id.
    - apply Forall_map. apply Forall_forall. intros [row c] Hin.
      cbn [fst snd]. rewrite length_map.
      rewrite Forall_forall in Hrows. apply Hrows.
      apply (in_combine_l _ _ _ _ Hin). }
  rewrite (logNormalize_rows _ n k Hsh Hk), (logNormalize_rows a n k Ha Hk).
  f_equal. rewrite map_map.
  destruct Ha as [Hn Hrows]. subst n. clear Hsh.
  revert shifts Hlen.
  induction Hrows as [|row a Hrow Hrows IH]; intros [|c shifts] Hlen;
    try discriminate; [reflexivity|].
  injection Hlen as Hlen. cbn [combine map fst snd].
  rewrite (IH shifts Hlen). f_equal.
  rewrite logsumexp_shift by (destruct row; [cbn in Hrow; lia|discriminate]).
  rewrite map_map. apply map_ext. intros x. lra.
Qed.

Lemma logNormalize_shift_invariant_witness :
  logNormalize [[0 + 5; 1 + 5]; [2 + 7; 2 + 7]] = logNormalize [[0; 1]; [2; 2]].
Proof.
  apply (logNormalize_shift_invariant [[0; 1]; [2; 2]] 2 2 [5; 7]);
    [prove_shape|lia|reflexivity].
Defined.

(** The sum of the products of a row with all the columns of a matrix. *)
Lemma sum_dot_columns :
  forall (b : matrix) (m : nat) (r : list R),
    Forall (fun row => length row = m) b ->
    length r = length b ->
    sum (map (fun j => dot_product r (col j b)) (seq 0 m))
    = dot_product r (map sum b).
Proof.
  intros b m r Hb. revert r.
  induction Hb as [|brow b Hrow Hb IH]; intros [|x r] Hlen;
    try discriminate.
  - cbn [dot_product].
    induction (seq 0 m) as [|j l IHl]; [reflexivity|].
    unfold sum in *. cbn [map fold_right dot_product] in *. rewrite IHl. lra.
  - injection Hlen as Hlen.
    cbn [col map dot_product].
    rewrite <- (IH r Hlen).
    assert (Hsplit : forall l : list nat,
      sum (map (fun j => x * nth j brow 0 + dot_product r (col j b)) l)
      = x * sum (map (fun j => nth j brow 0) l)
        + sum (map (fun j => dot_product r (col j b)) l)).
    { induction l as [|j l IHl]; cbn [map sum fold_right]; [lra|].
      fold (sum (map (fun j => x * nth j brow 0 + dot_product r (col j b)) l)).
      fold (sum (map (fun j => nth j brow 0) l)).
      fold (sum (map (fun j => dot_product r (col j b)) l)).
      rewrite IHl. lra. }
    unfold col at 1. fold (col).
    rewrite Hsplit. f_equal. f_equal. f_equal.
    rewrite <- Hrow. apply PyFacts.map_nth_all.
Qed.

(** X22. The log-space product keeps normalisation: when the exponentials
    of every row of [a] and of every row of [b] sum to 1, so do those of
    every row of [logDot(a, b)], and [logNormalize] leaves it unchanged. *)
Theorem logDot_keeps_normalisation :
  forall (a b : matrix) (n k m : nat),
    (1 <= n)%nat -> (1 <= k)%nat -> (1 <= m)%nat ->
    shape a n k -> shape b k m ->
    Forall (fun row => sum (map exp row) = 1) a ->
    Forall (fun row => sum (map exp row) = 1) b ->
    exists C,
      logDot a b None = Ok C
      /\ shape C n m
      /\ Forall (fun row => sum (map exp row) = 1) C
      /\ logNormalize C = Some C.
Proof.
  intros a b n k m Hn Hk Hm Ha Hb Hna Hnb.
  exists (log_matmul a b).
  assert (Hshape : shape (log_matmul a b) n m).
  { unfold log_matmul, mlog, matmul. apply shape_map.
    assert (Hnc : ncols (mexp b) = m).
    { apply (shape_ncols _ k m); [apply shape_map; exact Hb|exact Hk]. }
    rewrite Hnc. split.
    - rewrite length_map. unfold mexp. rewrite length_map. apply Ha.
    - apply Forall_map. apply Forall_forall. intros row _.
      rewrite length_map, length_seq. reflexivity. }
  assert (Hsums : Forall (fun row => sum (map exp row) = 1) (log_matmul a b)).
  { unfold log_matmul, mlog, matmul.
    assert (Hnc : ncols (mexp b) = m).
    { apply (shape_ncols _ k m); [apply shape_map; exact Hb|exact Hk]. }
    rewrite Hnc. change (mexp a) with (map (map exp) a). rewrite !map_map.
    apply Forall_map. apply Forall_forall. intros arow Hin.
    assert (Hlen : length arow = k).
    { destruct Ha as [_ Hsh]. rewrite Forall_forall in Hsh. apply Hsh, Hin. }
    rewrite !map_map.
    assert (Hpos : forall j, In j (seq 0 m) ->
              exp (ln (dot_product (map exp arow) (col j (mexp b))))
              = dot_product (map exp arow) (col j (mexp b))).
    { intros j Hj. apply in_seq in Hj. apply exp_ln.
      unfold mexp. rewrite (col_map exp b k m j Hb) by lia.
      apply dot_product_exp_pos.
      - destruct arow; [cbn in Hlen; lia|discriminate].
      - intros Hnil. apply (f_equal (@length R)) in Hnil.
        rewrite col_length in Hnil. destruct Hb as [Hbn _].
        rewrite Hbn in Hnil. cbn in Hnil. lia. }
    rewrite (map_ext_in _ _ _ Hpos).
    rewrite (sum_dot_columns (mexp b) m).
    - assert (Hones : map sum (mexp b) = map (fun _ => 1) b).
      { unfold mexp. rewrite map_map. apply map_ext_in. intros row Hrow.
        rewrite Forall_forall in Hnb. apply Hnb, Hrow. }
      rewrite Hones.
      assert (Hd : forall (r : list R) (c : matrix),
                length r = length c ->
                dot_product r (map (fun _ => 1) c) = sum r).
      { induction r as [|x r IH]; intros [|crow c] Hc;
          try discriminate; [reflexivity|].
        injection Hc as Hc. cbn [map dot_product]. rewrite (IH c Hc).
        unfold sum. cbn [fold_right]. lra. }
      rewrite Hd.
      + rewrite Forall_forall in Hna. apply Hna, Hin.
      + rewrite length_map. destruct Hb as [Hbn _]. rewrite Hbn. exact Hlen.
    - destruct Hb as [_ Hrows]. unfold mexp.
      apply Forall_map. eapply Forall_impl; [|exact Hrows].
      intros row Hrow. cbv beta. rewrite length_map. exact Hrow.
    - rewrite length_map. unfold mexp. rewrite length_map.
      destruct Hb as [Hbn _]. rewrite Hbn. exact Hlen. }
  split; [apply (logDot_plain a b n k m); auto|].
  split; [exact Hshape|]. split; [exact Hsums|].
  rewrite (logNormalize_rows _ n m Hshape Hm). apply f_equal.
  rewrite <- (map_id (log_matmul a b)) at 2.
  apply map_ext_in. intros row Hrow.
  rewrite Forall_forall in Hsums.
  unfold logsumexp. rewrite (Hsums row Hrow), ln_1.
  rewrite <- (map_id row) at 2. apply map_ext. intros x. lra.
Qed.

Lemma logDot_keeps_normalisation_witness :
  exists C,
    logDot [[ln (1 / 2); ln (1 / 2)]; [ln (1 / 2); ln (1 / 2)]]
           [[ln (1 / 2); ln (1 / 2)]; [ln (1 / 2); ln (1 / 2)]] None = Ok C
    /\ Forall (fun row => sum (map exp row) = 1) C.
Proof.
  assert (Hhalf : sum (map exp [ln (1 / 2); ln (1 / 2)]) = 1).
  { cbn. rewrite exp_ln by lra. lra. }
  destruct (logDot_keeps_normalisation
              [[ln (1 / 2); ln (1 / 2)]; [ln (1 / 2); ln (1 / 2)]]
              [[ln (1 / 2); ln (1 / 2)]; [ln (1 / 2); ln (1 / 2)]] 2 2 2)
    as [C [H1 [_ [H2 _]]]]; try lia; try prove_shape.
  - repeat constructor; exact Hhalf.
  - repeat constructor; exact Hhalf.
  - exists C. split; assumption.
Defined.

End LogSpaceLaws.

(** ** Frozen tag-set codec: further laws *)

Module CodecLaws.

Import Codec CodecReserved DictFacts CommonFacts CodecProofs.

Lemma str_mapping_items :
  forall items,
    str_mapping (PDict items) <->
    NoDup (map fst items)
    /\ Forall (fun kv => is_str (fst kv)
                         /\ (is_str (snd kv) \/ str_mapping (snd kv))) items.
Proof.
  intros items. cbn [str_mapping].
  apply and_iff_compat_l.
  induction items as [|kv rest IH].
  - split; [constructor|trivial].
  - rewrite Forall_cons_iff, <- IH. unfold is_str at 1. tauto.
Qed.

(** Thawing the frozen entries of a mapping rebuilds its entries in
    order, every value thawed. *)
Lemma build_dict_thawed :
  forall (g : pyobj -> pyobj) items done rest,
    NoDup (map fst done ++ map fst items) ->
    Forall (fun kv => is_str (fst kv)) done ->
    Forall (fun kv => is_str (fst kv)) items ->
    Forall (fun kv => unfreeze_dict (freeze_dict (snd kv)) = Ok (g (snd kv)))
      items ->
    build_dict unfreeze_dict
      (map (fun kv => PTuple [fst kv; freeze_dict (snd kv)]) items ++ rest)
      done =
    build_dict unfreeze_dict rest
      (done ++ map (fun kv => (fst kv, g (snd kv))) items).
Proof.
  intros g items; induction items as [|[k v] items IH];
    intros done rest Hnodup Hdone Hkeys Hvals.
  - cbn [map]. rewrite app_nil_r. reflexivity.
  - inversion Hvals as [|? ? Hv Hvals']; subst. cbn [snd] in Hv.
    inversion Hkeys as [|? ? Hk Hkeys']; subst. cbn [fst] in Hk.
    cbn [map app build_dict store_entry fst snd].
    rewrite Hv. cbn [bind].
    destruct Hk as [s ->].
    unfold py_setitem. cbn [hashable].
    rewrite dict_set_fresh.
    + cbn [bind]. fold (build_dict unfreeze_dict).
      rewrite (IH (done ++ [(PStr s, g v)]) rest).
      * rewrite <- app_assoc. reflexivity.
      * rewrite map_app. cbn [map fst]. rewrite <- app_assoc. exact Hnodup.
      * apply Forall_app. split; [exact Hdone|].
        constructor; [exists s; reflexivity|constructor].
      * exact Hkeys'.
      * exact Hvals'.
    + apply Forall_forall. intros [k' v'] Hin. cbn [fst].
      destruct (proj1 (Forall_forall _ _) Hdone (k', v') Hin) as [s' Hs'].
      cbn [fst] in Hs'. subst k'.
      apply py_eqb_str. intros ->.
      cbn [map fst] in Hnodup.
      apply NoDup_remove_2 in Hnodup. apply Hnodup.
      apply in_or_app. left.
      apply (in_map fst) in Hin. exact Hin.
Qed.

(** Writing the marker and deleting it again removes an entry the
    dictionary had under the marker's key. *)
Lemma del_set_key :
  forall (d : list (pyobj * pyobj)) (s : string) (v : pyobj),
    Forall (fun kv => is_str (fst kv)) d ->
    NoDup (map fst d) ->
    dict_del py_eqb (dict_set py_eqb d (PStr s) v) (PStr s)
    = Ok (filter (fun kv => negb (py_eqb (fst kv) (PStr s))) d).
Proof.
  intros d s v Hd. induction Hd as [|[k w] d [t Hk] Hd IH]; intros Hnd.
  - cbn. rewrite String.eqb_refl. reflexivity.
  - cbn [fst] in Hk. subst k. inversion Hnd as [|? ? Hnotin Hnd']; subst.
    cbn [dict_set filter fst].
    destruct (py_eqb (PStr t) (PStr s)) eqn:E.
    + cbn [dict_del]. rewrite E. cbn [negb].
      assert (Hts : t = s) by (apply String.eqb_eq; exact E).
      subst t. f_equal. symmetry. apply filter_all.
      apply Forall_forall. intros [k' w'] Hin. cbn [fst].
      apply negb_true_iff.
      destruct (proj1 (Forall_forall _ _) Hd (k', w') Hin) as [s' Hs'].
      cbn [fst] in Hs'. subst k'. apply py_eqb_str. intros ->.
      apply Hnotin. apply (in_map fst) in Hin. exact Hin.
    + cbn [dict_del]. rewrite E. cbn [negb].
      rewrite (IH Hnd'). reflexivity.
Qed.

(** X23. On a mapping with string keys, the reserved key included, the
    round trip returns the mapping without its entries under
    ["__frozen__"], at every nesting level; nothing else is lost or
    changed. *)
Theorem unfreeze_freeze_strips_reserved :
  forall m, str_mapping m ->
            unfreeze_dict (freeze_dict m) = Ok (strip_reserved m).
Proof.
  intros m; induction m as [s|b|items IH|elems _] using pyobj_nested_ind;
    intros Hm; try contradiction.
  apply str_mapping_items in Hm. destruct Hm as [Hnodup Hitems].
  cbn [freeze_dict unfreeze_dict].
  assert (Hmark : existsb (fun e => py_eqb e frozen_marker)
                    (map (fun kv => PTuple [fst kv; freeze_dict (snd kv)]) items
                     ++ [PTuple [PStr FROZEN_TAG; PBool true]]) = true).
  { rewrite existsb_app. apply orb_true_iff. right. reflexivity. }
  rewrite Hmark.
  assert (Hkeys : Forall (fun kv : pyobj * pyobj => is_str (fst kv)) items).
  { eapply Forall_impl; [|exact Hitems]. intros kv [Hk _]. exact Hk. }
  rewrite (build_dict_thawed strip_reserved items [] _).
  - cbn [app build_dict store_entry unfreeze_dict bind].
    unfold py_setitem. cbn [hashable bind].
    rewrite del_set_key.
    + reflexivity.
    + apply Forall_map. eapply Forall_impl; [|exact Hkeys].
      intros kv Hk. exact Hk.
    + rewrite map_map. cbn [fst]. exact Hnodup.
  - exact Hnodup.
  - constructor.
  - exact Hkeys.
  - apply Forall_forall. intros [k v] Hin. cbn [snd].
    assert (Hkv := proj1 (Forall_forall _ _) Hitems (k, v) Hin).
    assert (IHkv := proj1 (Forall_forall _ _) IH (k, v) Hin).
    cbn [fst snd] in Hkv, IHkv.
    destruct Hkv as [_ [[s ->]|Hv]]; [reflexivity|].
    apply IHkv. exact Hv.
Qed.

Lemma unfreeze_freeze_strips_reserved_witness :
  unfreeze_dict
    (freeze_dict
       (PDict [(PStr "POS", PStr "NOUN");
               (PStr "__frozen__", PStr "x");
               (PStr "Feats", PDict [(PStr "__frozen__", PDict []);
                                     (PStr "Case", PStr "Nom")])]))
  = Ok (PDict [(PStr "POS", PStr "NOUN");
               (PStr "Feats", PDict [(PStr "Case", PStr "Nom")])]).
Proof.
  apply (unfreeze_freeze_strips_reserved
           (PDict [(PStr "POS", PStr "NOUN");
                   (PStr "__frozen__", PStr "x");
                   (PStr "Feats", PDict [(PStr "__frozen__", PDict []);
                                         (PStr "Case", PStr "Nom")])])).
  repeat match goal with
    | |- str_mapping _ => apply str_mapping_items
    | |- _ /\ _ => split
    | |- NoDup _ => constructor
    | |- Forall _ _ => constructor
    | |- ~ In _ _ => simpl; intuition discriminate
    | |- is_str (fst _) => eexists; reflexivity
    | |- is_str (snd _) \/ _ => cbn [snd]
    | |- is_str _ \/ str_mapping (PDict _) => right
    | |- is_str (PStr _) \/ _ => left; eexists; reflexivity
    end.
Defined.

Lemma hashable_tuple :
  forall es, hashable (PTuple es) = forallb hashable es.
Proof.
  induction es as [|e es IH]; [reflexivity|].
  cbn [forallb]. rewrite <- IH. reflexivity.
Qed.

Lemma freeze_dict_hashable :
  forall m, is_str m \/ str_mapping m -> hashable (freeze_dict m) = true.
Proof.
  intros m; induction m as [s|b|items IH|elems _] using pyobj_nested_ind;
    intros [[t Ht]|Hm]; try discriminate; try contradiction;
    try reflexivity.
  apply str_mapping_items in Hm. destruct Hm as [_ Hitems].
  cbn [freeze_dict]. rewrite hashable_tuple, forallb_app.
  apply andb_true_iff. split; [|reflexivity].
  apply forallb_forall. intros e He.
  apply in_map_iff in He. destruct He as [[k v] [<- Hin]].
  assert (Hkv := proj1 (Forall_forall _ _) Hitems (k, v) Hin).
  assert (IHkv := proj1 (Forall_forall _ _) IH (k, v) Hin).
  cbn [fst snd] in *. destruct Hkv as [[s ->] Hv].
  rewrite hashable_tuple. cbn [forallb hashable].
  rewrite (proj2 IHkv Hv). reflexivity.
Qed.

Lemma freeze_dict_inj :
  forall a b,
    is_str a \/ str_mapping a -> is_str b \/ str_mapping b ->
    freeze_dict a = freeze_dict b -> a = b.
Proof.
  intros a; induction a as [s|x|items IH|elems _] using pyobj_nested_ind;
    intros b [[t Ht]|Ha] Hb Heq; try discriminate; try contradiction.
  - destruct Hb as [[u ->]|Hb]; [exact Heq|].
    destruct b; try contradiction. discriminate.
  - destruct Hb as [[u ->]|Hb]; [discriminate|].
    destruct b as [| |items'|]; try contradiction.
    apply str_mapping_items in Ha. destruct Ha as [_ Hitems].
    apply str_mapping_items in Hb. destruct Hb as [_ Hitems'].
    cbn [freeze_dict] in Heq. injection Heq as Heq.
    apply app_inj_tail in Heq. destruct Heq as [Heq _].
    f_equal. revert items' Hitems' Heq.
    induction items as [|[k v] items IHitems]; intros [|[k' v'] items']
      Hitems' Heq; try discriminate; [reflexivity|].
    cbn [map fst snd] in Heq. injection Heq as Hk Hv Hrest.
    inversion IH as [|? ? [_ IHv] IH']; subst.
    inversion Hitems as [|? ? [_ Hvv] Hitems2]; subst.
    inversion Hitems' as [|? ? [_ Hvv'] Hitems2']; subst.
    cbn [fst snd] in *.
    f_equal.
    + f_equal. apply IHv; assumption.
    + apply IHitems; assumption.
Qed.

(** X24. The frozen form of a mapping with string keys holds no dictionary
    at any level, so it can be a dictionary key or a set member, and it
    determines the mapping: two mappings with the same frozen form are
    equal. *)
Theorem freeze_dict_key :
  forall a b,
    str_mapping a -> str_mapping b ->
    hashable (freeze_dict a) = true
    /\ (freeze_dict a = freeze_dict b -> a = b).
Proof.
  intros a b Ha Hb. split.
  - apply freeze_dict_hashable. right. exact Ha.
  - apply freeze_dict_inj; right; assumption.
Qed.

Lemma freeze_dict_key_witness :
  hashable (freeze_dict (PDict [(PStr "POS", PStr "NOUN")])) = true.
Proof.
  apply (freeze_dict_key (PDict [(PStr "POS", PStr "NOUN")]) (PDict []));
    apply str_mapping_items; split; repeat constructor;
    try (simpl; intuition discriminate);
    try (eexists; reflexivity);
    left; eexists; reflexivity.
Defined.

End CodecLaws.

(** ** Contiguous batch scheduler: further laws *)

Module TrainOrderLaws.

Import TrainOrder TrainOrderProofs.
Local Open Scope Z_scope.

Lemma ranges_from_shift :
  forall bs lengths prev c cur i fin d,
    ranges_from bs prev c (cur + d) (i + d) lengths (fin + d)
    = map (fun r => (fst r + d, snd r + d))
          (ranges_from bs prev c cur i lengths fin).
Proof.
  intros bs lengths. induction lengths as [|l rest IH];
    intros prev c cur i fin d; cbn [ranges_from map fst snd]; [reflexivity|].
  destruct (negb (l =? prev) || (bs <? c)).
  - cbn [map fst snd]. f_equal; [f_equal; lia|].
    replace (i + d + 1) with (i + 1 + d) by lia. apply IH.
  - replace (i + d + 1) with (i + 1 + d) by lia. apply IH.
Qed.

(** X25. The start offset only relabels the ranges: scheduling from
    [startIdx + d] gives the ranges scheduled from [startIdx], every bound
    moved by [d]. *)
Theorem get_train_order_offset :
  forall (A B : Type) (training_data : list (list A * B))
         (batch_size startIdx d : Z),
    get_train_order training_data batch_size (startIdx + d)
    = map (fun r => (fst r + d, snd r + d))
          (get_train_order training_data batch_size startIdx).
Proof.
  intros A B data bs s d. unfold get_train_order.
  pose proof (src_len_nonneg A B data) as Hnn.
  destruct (map src_len data) as [|l rest] eqn:E; [reflexivity|].
  rewrite !train_order_of_lengths_cons by exact Hnn.
  rewrite <- ranges_from_shift. f_equal; lia.
Qed.

Lemma ranges_from_single :
  forall bs lengths prev c i fin,
    bs <= 1 -> 2 <= c ->
    fin = i + Z.of_nat (length lengths) - 1 ->
    ranges_from bs prev c (i - 1) i lengths fin
    = map (fun j => (j, j)) (span (i - 1) (S (length lengths))).
Proof.
  intros bs lengths. induction lengths as [|l rest IH];
    intros prev c i fin Hbs Hc Hfin.
  - subst fin. cbn [ranges_from length]. unfold span. cbn [seq map].
    replace (i - 1 + Z.of_nat 0) with (i - 1) by lia.
    replace (i + Z.of_nat 0 - 1) with (i - 1) by lia.
    reflexivity.
  - cbn [ranges_from].
    assert (Hlt : (bs <? c) = true) by (apply Z.ltb_lt; lia).
    rewrite Hlt, orb_true_r.
    replace i with ((i + 1) - 1) at 3 by lia.
    rewrite (IH l 2 (i + 1) fin Hbs ltac:(lia))
      by (subst fin; cbn [length]; lia).
    change (S (length (l :: rest))) with (1 + S (length rest))%nat.
    rewrite span_app. cbn [map app]. unfold span at 2. cbn [seq map].
    replace (i - 1 + Z.of_nat 0) with (i - 1) by lia.
    replace (i - 1 + Z.of_nat 1) with (i + 1 - 1) by lia.
    reflexivity.
Qed.

(** X26. With a batch size of 1 or less, zero and negative sizes included,
    nothing fails: every sentence is scheduled alone, in a range of its
    own. *)
Theorem get_train_order_singletons :
  forall (A B : Type) (training_data : list (list A * B))
         (batch_size startIdx : Z),
    batch_size <= 1 ->
    get_train_order training_data batch_size startIdx
    = map (fun j => (j, j)) (span startIdx (length training_data)).
Proof.
  intros A B data bs s Hbs. unfold get_train_order.
  pose proof (src_len_nonneg A B data) as Hnn.
  rewrite <- (length_map src_len data).
  destruct (map src_len data) as [|l rest] eqn:E; [reflexivity|].
  rewrite train_order_of_lengths_cons by exact Hnn.
  replace s with ((s + 1) - 1) at 1 4 by lia.
  apply ranges_from_single; [exact Hbs|lia|cbn [length]; lia].
Qed.

Lemma get_train_order_singletons_witness :
  get_train_order [([1; 2], tt); ([3; 4], tt); ([5; 6], tt)] 0 7
  = [(7, 7); (8, 8); (9, 9)].
Proof.
  apply (get_train_order_singletons Z unit
           [([1; 2], tt); ([3; 4], tt); ([5; 6], tt)] 0 7).
  lia.
Defined.

End TrainOrderLaws.

(** ** Length sort and filter: further laws *)

Module LengthSortLaws.

Import LengthSort PyFacts CommonFacts LengthSortProofs.
Local Open Scope Z_scope.

(** Sorting a sorted list changes nothing. *)
Lemma sorted_fixpoint :
  forall (A : Type) (key : A -> Z) (l : list A),
    StronglySorted (key_le key) l -> sorted key l = l.
Proof.
  intros A key l H. induction H as [|x l Hl IH Hx]; [reflexivity|].
  cbn [sorted]. rewrite IH.
  destruct l as [|y l]; [reflexivity|].
  cbn [insert_by_key].
  inversion Hx as [|? ? Hxy _]; subst. unfold key_le in Hxy.
  destruct (key x <=? key y) eqn:E; [reflexivity|].
  apply Z.leb_gt in E. lia.
Qed.

Lemma StronglySorted_unmap :
  forall (A B : Type) (R : B -> B -> Prop) (f : A -> B) (l : list A),
    StronglySorted R (map f l) ->
    StronglySorted (fun a b => R (f a) (f b)) l.
Proof.
  intros A B R f l. induction l as [|x l IH]; intros H; [constructor|].
  cbn [map] in H. inversion H as [|? ? Hl Hx]; subst.
  constructor; [apply IH; exact Hl|].
  apply Forall_forall. intros b Hb.
  rewrite Forall_forall in Hx. apply Hx. apply in_map. exact Hb.
Qed.

(** What the body of [sortbylength] returns, when it returns. *)
Lemma sortbylength_inv :
  forall (S T L : Type) (data : list (list S * T)) (lang_ids : list L)
         (maxlen : Z) sorted_data sorted_lang_ids,
    sortbylength data lang_ids maxlen = Ok (sorted_data, sorted_lang_ids) ->
    length sorted_lang_ids = length sorted_data
    /\ Forall (fun e => short_enough maxlen e = true) sorted_data
    /\ StronglySorted (key_le (fun e => - src_length e)) sorted_data.
Proof.
  intros S T L data lang_ids maxlen sd sl H.
  unfold sortbylength in H.
  set (kept := filter (fun item : nat * list S => len (snd item) <? maxlen)
                 (sorted (fun x => - len (snd x))
                    (combine (seq 0 (length (map fst data))) (map fst data))))
    in H.
  destruct (mapM _ (map fst kept)) as [tgt|e] eqn:Htgt; [|discriminate].
  cbn [bind] in H.
  destruct (mapM (fun i => py_index lang_ids (Z.of_nat i)) (map fst kept))
    as [langs|e] eqn:Hlangs; [|discriminate].
  cbn [bind] in H. injection H as <- <-.
  apply mapM_ok_length in Htgt, Hlangs. rewrite length_map in Htgt, Hlangs.
  assert (Hfst : map fst (combine (map snd kept) tgt) = map snd kept).
  { apply map_fst_combine. rewrite length_map. lia. }
  split; [|split].
  - rewrite length_combine, length_map. lia.
  - apply Forall_forall. intros [src t] Hin.
    apply (in_map fst) in Hin. rewrite Hfst in Hin. cbn [fst] in Hin.
    apply in_map_iff in Hin. destruct Hin as [[i x] [Hx Hin]].
    cbn [snd] in Hx. subst x. unfold kept in Hin.
    apply filter_In in Hin. destruct Hin as [_ Hshort].
    exact Hshort.
  - apply (StronglySorted_unmap _ _
             (fun a b : list S => - len a <= - len b) fst).
    rewrite Hfst.
    apply (StronglySorted_map _ _
             (fun a b : list S => - len a <= - len b) snd).
    unfold kept. apply StronglySorted_filter.
    apply (sorted_sorted (fun x : nat * list S => - len (snd x))).
Qed.

(** X27. [sortbylength] is idempotent: applied to its own output with the
    same [maxlen], it returns that output unchanged. *)
Theorem sortbylength_idempotent :
  forall (S T L : Type) (data : list (list S * T)) (lang_ids : list L)
         (maxlen : Z) sorted_data sorted_lang_ids,
    sortbylength data lang_ids maxlen = Ok (sorted_data, sorted_lang_ids) ->
    sortbylength sorted_data sorted_lang_ids maxlen
    = Ok (sorted_data, sorted_lang_ids).
Proof.
  intros S T L data lang_ids maxlen sd sl H.
  destruct (sortbylength_inv _ _ _ _ _ _ _ _ H) as [Hlen [Hshort Hsorted]].
  rewrite sortbylength_eq by exact Hlen. cbv zeta.
  rewrite sorted_fixpoint.
  - rewrite filter_all.
    + rewrite map_fst_combine, map_snd_combine by lia. reflexivity.
    + apply Forall_forall. intros [e l] Hin. cbn [fst].
      apply in_combine_l in Hin.
      rewrite Forall_forall in Hshort. apply Hshort, Hin.
  - apply (StronglySorted_unmap _ _
             (fun a b : list S * T => - src_length a <= - src_length b) fst).
    rewrite map_fst_combine by lia. exact Hsorted.
Qed.

Lemma sortbylength_idempotent_witness :
  sortbylength [([1; 2; 3], 20); ([1; 2], 10); ([4; 5], 30)] [1; 0; 2] 4
  = Ok ([([1; 2; 3], 20); ([1; 2], 10); ([4; 5], 30)], [1; 0; 2]).
Proof.
  apply (sortbylength_idempotent Z Z Z
           [([1; 2], 10); ([1; 2; 3], 20); ([4; 5], 30); ([6; 7; 8; 9], 40)]
           [0; 1; 2; 3] 4).
  reflexivity.
Defined.

Lemma forallb_perm :
  forall (A : Type) (p : A -> bool) (l1 l2 : list A),
    Permutation l1 l2 -> forallb p l1 = forallb p l2.
Proof.
  intros A p l1 l2 H. induction H; cbn [forallb].
  - reflexivity.
  - rewrite IHPermutation. reflexivity.
  - rewrite !andb_assoc, (andb_comm (p y) (p x)). reflexivity.
  - congruence.
Qed.

Lemma forallb_filter_map :
  forall (A B : Type) (f : A -> B) (keep : A -> bool) (ok : B -> bool)
         (l : list A),
    forallb ok (map f (filter keep l))
    = forallb (fun a => negb (keep a) || ok (f a)) l.
Proof.
  intros A B f keep ok l. induction l as [|a l IH]; [reflexivity|].
  cbn [filter forallb]. destruct (keep a); cbn [map forallb negb orb];
    rewrite IH; reflexivity.
Qed.

Lemma forallb_map :
  forall (A B : Type) (f : A -> B) (p : B -> bool) (l : list A),
    forallb p (map f l) = forallb (fun a => p (f a)) l.
Proof.
  intros A B f p l. induction l as [|a l IH]; [reflexivity|].
  cbn [map forallb]. rewrite IH. reflexivity.
Qed.

Lemma mapM_py_index :
  forall (A : Type) (l : list A) (idxs : list nat),
    if forallb (fun i => (i <? length l)%nat) idxs
    then exists xs, mapM (fun i => py_index l (Z.of_nat i)) idxs = Ok xs
    else mapM (fun i => py_index l (Z.of_nat i)) idxs = Err IndexError.
Proof.
  intros A l idxs.
  pose proof (mapM_all_or_err _ _ (fun i => py_index l (Z.of_nat i))
                (fun _ _ => True) IndexError
                (fun i => (i <? length l)%nat)) as H.
  cbv beta in H.
  assert (Hf : forall a : nat,
    if (a <? length l)%nat
    then exists b : A, py_index l (Z.of_nat a) = Ok b /\ True
    else py_index l (Z.of_nat a) = Err IndexError).
  { intros i. destruct (i <? length l)%nat eqn:E.
    - apply Nat.ltb_lt in E.
      destruct (nth_error l i) as [x|] eqn:Hx.
      + exists x. split; [apply py_index_nth_error; exact Hx|exact I].
      + apply nth_error_None in Hx. lia.
    - apply Nat.ltb_ge in E. apply py_index_beyond. exact E. }
  specialize (H Hf idxs).
  destruct (forallb _ idxs); [|exact H].
  destruct H as [xs [Hxs _]]. exists xs. exact Hxs.
Qed.

(** X28. [sortbylength] raises [IndexError] exactly when a sentence that
    is kept, being shorter than [maxlen], has no language id at its
    position; a sentence that is dropped needs none, and there is no
    other failure. *)
Theorem sortbylength_missing_lang_id :
  forall (S T L : Type) (data : list (list S * T)) (lang_ids : list L)
         (maxlen : Z),
    if forallb (fun p => negb (short_enough maxlen (snd p))
                         || (fst p <? length lang_ids)%nat)
               (combine (seq 0 (length data)) data)
    then exists out, sortbylength data lang_ids maxlen = Ok out
    else sortbylength data lang_ids maxlen = Err IndexError.
Proof.
  intros S T L data lang_ids maxlen.
  unfold sortbylength.
  set (indexed := combine (seq 0 (length (map fst data))) (map fst data)).
  set (kept := filter (fun item : nat * list S => len (snd item) <? maxlen)
                 (sorted (fun x => - len (snd x)) indexed)).
  assert (Htgt : exists tgt,
            mapM (fun i => py_index (map snd data) (Z.of_nat i))
                 (map fst kept) = Ok tgt).
  { pose proof (mapM_py_index _ (map snd data) (map fst kept)) as H.
    assert (Hall : forallb (fun i => (i <? length (map snd data))%nat)
                     (map fst kept) = true).
    { apply forallb_forall. intros i Hi.
      apply in_map_iff in Hi. destruct Hi as [[j x] [<- Hin]].
      unfold kept in Hin. apply filter_In in Hin. destruct Hin as [Hin _].
      apply (Permutation_in _ (sorted_perm _ _)) in Hin.
      apply in_combine_seq in Hin. destruct Hin as [_ Hnth].
      cbn [fst]. apply Nat.ltb_lt.
      assert (Hlt : (j - 0 < length (map fst data))%nat)
        by (apply nth_error_Some; congruence).
      rewrite length_map in *. lia. }
    rewrite Hall in H. exact H. }
  destruct Htgt as [tgt Htgt]. rewrite Htgt. cbn [bind].
  pose proof (mapM_py_index _ lang_ids (map fst kept)) as Hl.
  assert (Heq : forallb (fun i => (i <? length lang_ids)%nat) (map fst kept)
                = forallb (fun p => negb (short_enough maxlen (snd p))
                                    || (fst p <? length lang_ids)%nat)
                    (combine (seq 0 (length data)) data)).
  { unfold kept. rewrite forallb_filter_map.
    rewrite (forallb_perm _ _ _ _ (sorted_perm _ indexed)).
    unfold indexed. rewrite length_map, combine_map_r, forallb_map.
    reflexivity. }
  rewrite Heq in Hl.
  destruct (forallb _ (combine (seq 0 (length data)) data)).
  - destruct Hl as [xs Hxs]. rewrite Hxs. cbn [bind].
    eexists. reflexivity.
  - rewrite Hl. reflexivity.
Qed.

End LengthSortLaws.

(** ** Bucket batch scheduler: further laws *)

Module BucketLaws.

Import Bucket BucketRows PyFacts CommonFacts BucketProofs.
Local Open Scope Z_scope.

Section WithRandom.

Variables T Lbl rng : Type.
Variable shuffle : forall A : Type, list A -> rng -> list A * rng.
Hypothesis shuffle_perm :
  forall (A : Type) (l : list A) (g : rng), Permutation (fst (shuffle A l g)) l.

Local Abbreviation data_item := (data_item T).
Local Abbreviation batch := (batch T Lbl).

Lemma batch_rows_of :
  forall (fwtt : option (list (string * list Lbl))) (tot : nat)
         (ms : list data_item) (b : batch),
    (0 < tot)%nat ->
    Forall (fun m => length m = tot) ms ->
    batch_of fwtt tot ms b ->
    batch_rows tot b = ms.
Proof.
  intros fwtt tot ms b Htot Hlen Hb.
  unfold batch_rows, batch_len.
  rewrite (batch_of_first_column T Lbl fwtt tot ms b Htot Hb), length_map.
  assert (Hcol : forall k, (k < tot)%nat ->
            nth k b (Column []) = column_of ms k).
  { intros k Hk. unfold batch_of in Hb.
    destruct fwtt as [m|].
    - destruct Hb as [tags [-> _]].
      rewrite app_nth1 by (rewrite length_map, length_seq; exact Hk).
      apply (LogSpaceProofs.nth_map_seq _ (column_of ms) tot k (Column []) Hk).
    - subst b. apply (LogSpaceProofs.nth_map_seq _ (column_of ms) tot k (Column []) Hk). }
  transitivity (map (fun j => nth j ms []) (seq 0 (length ms)));
    [|apply map_nth_all].
  apply map_ext_in. intros j Hj. apply in_seq in Hj.
  assert (Hm : length (nth j ms []) = tot).
  { rewrite Forall_forall in Hlen. apply Hlen. apply nth_In. lia. }
  transitivity (map (fun k => nth k (nth j ms []) (Idx 0)) (seq 0 tot));
    [|rewrite <- Hm; apply map_nth_all].
  apply map_ext_in. intros k Hk. apply in_seq in Hk.
  rewrite Hcol by lia. unfold column_of.
  apply (LogSpaceProofs.nth_map_in _ _ (fun m : data_item => nth k m (Idx 0))
           ms j (Idx 0) []).
  lia.
Qed.

Lemma bucket_rows :
  forall (fwtt : option (list (string * list Lbl))) (bs tot : nat)
         (bucket : list data_item) (bl : list batch),
    (0 < bs)%nat -> (0 < tot)%nat ->
    bucket_ready fwtt tot bucket ->
    bucket_batches_of fwtt bs tot bucket bl ->
    concat (map (batch_rows tot) bl) = bucket.
Proof.
  intros fwtt bs tot bucket bl Hbs Htot [Hne [Hlen _]] Hof.
  unfold bucket_batches_of in Hof.
  transitivity (concat (map (members bs bucket
                                 (ceil_div (length bucket) bs))
                              (seq 0 (ceil_div (length bucket) bs))));
    [|apply (members_concat bs Hbs bucket Hne)].
  f_equal.
  set (nb := ceil_div (length bucket) bs) in *.
  induction Hof as [|i b idxs bl2 Hb Hof IH]; [reflexivity|].
  cbn [map]. rewrite IH. f_equal.
  apply (batch_rows_of fwtt tot _ b Htot); [|exact Hb].
  apply Forall_forall. intros m Hm.
  rewrite Forall_forall in Hlen. apply Hlen.
  apply (members_incl bs bucket nb i m Hm).
Qed.



End WithRandom.



End BucketLaws.

(** ** Language names and codes: proofs *)

Module LangCodesProofs.

Import LangCodes DictFacts PyFacts CommonFacts.

Lemma rgx_sub_clean : forall s, clean (rgx_sub s).
Proof.
  induction s as [|c s IH]; [exact I|].
  cbn [rgx_sub]. destruct (bad_char c) eqn:E; [exact IH|].
  cbn [clean]. split; assumption.
Qed.

(** The lines read: every entry of the dictionary comes from one of them. *)
Lemma add_lines :
  forall (all todo : list (list string)) (acc : list (string * string)),
    incl todo all ->
    NoDup (map fst acc) ->
    Forall (fun kv =>
              clean (fst kv) /\ clean (snd kv)
              /\ exists line, In line all
                   /\ fst kv = rgx_sub (nth 0 line EmptyString)
                   /\ snd kv = rgx_sub (nth 2 line EmptyString)) acc ->
    if forallb (fun line => (2 <? length line)%nat) todo
    then exists d,
           foldM add_line todo acc = Ok d
           /\ NoDup (map fst d)
           /\ Forall (fun kv =>
                        clean (fst kv) /\ clean (snd kv)
                        /\ exists line, In line all
                             /\ fst kv = rgx_sub (nth 0 line EmptyString)
                             /\ snd kv = rgx_sub (nth 2 line EmptyString)) d
    else foldM add_line todo acc = Err IndexError.
Proof.
  intros all todo. induction todo as [|line todo IH]; intros acc Hincl Hnd Hacc.
  - cbn. exists acc. split; [reflexivity|]. split; assumption.
  - cbn [forallb foldM]. unfold add_line at 1 3.
    destruct (2 <? length line)%nat eqn:E; cbn [andb].
    + apply Nat.ltb_lt in E.
      change 0%Z with (Z.of_nat 0). change 2%Z with (Z.of_nat 2).
      rewrite (py_index_nth _ line 0%nat EmptyString) by lia. cbn [bind].
      rewrite (py_index_nth _ line 2%nat EmptyString) by lia. cbn [bind].
      apply IH.
      * intros x Hx. apply Hincl. right. exact Hx.
      * apply (dict_set_NoDup _ String.eqb_eq). exact Hnd.
      * apply (dict_set_Forall _ _ String.eqb _ _ _ _ String.eqb_eq Hacc).
        cbn [fst snd]. split; [apply rgx_sub_clean|].
        split; [apply rgx_sub_clean|].
        exists line. split; [|split; reflexivity].
        apply Hincl. left. reflexivity.
    + apply Nat.ltb_ge in E.
      pose proof (py_index_beyond _ line 2%nat E) as H2.
      destruct line as [|f0 line'].
      * reflexivity.
      * change 2%Z with (Z.of_nat 2). rewrite H2. reflexivity.
Qed.

Lemma invert_sound :
  forall (items acc : list (string * string)) (c l : string),
    dict_get String.eqb
      (fold_left (fun out kv => dict_set String.eqb out (snd kv) (fst kv))
         items acc) c = Some l ->
    In (l, c) items \/ dict_get String.eqb acc c = Some l.
Proof.
  induction items as [|[k v] items IH]; intros acc c l H.
  - right. exact H.
  - cbn [fold_left fst snd] in H. apply IH in H.
    destruct H as [H|H]; [left; right; exact H|].
    rewrite (dict_get_set _ String.eqb_eq) in H.
    destruct (String.eqb v c) eqn:E.
    + apply String.eqb_eq in E. injection H as ->. subst.
      left. left. reflexivity.
    + right. exact H.
Qed.

Lemma invert_complete :
  forall (items acc : list (string * string)) (c : string),
    dict_mem String.eqb acc c = true \/ (exists l, In (l, c) items) ->
    dict_mem String.eqb
      (fold_left (fun out kv => dict_set String.eqb out (snd kv) (fst kv))
         items acc) c = true.
Proof.
  induction items as [|[k v] items IH]; intros acc c H.
  - destruct H as [H|[l []]]. exact H.
  - cbn [fold_left fst snd]. apply IH.
    rewrite (dict_mem_set _ _ String.eqb _ _ _ _ String.eqb_eq).
    destruct H as [H|[l [Heq|Hin]]].
    + left. rewrite H. apply orb_true_r.
    + injection Heq as -> ->. left. rewrite String.eqb_refl. reflexivity.
    + right. exists l. exact Hin.
Qed.

Lemma invert_NoDup :
  forall (items acc : list (string * string)),
    NoDup (map fst acc) ->
    NoDup (map fst
             (fold_left (fun out kv => dict_set String.eqb out (snd kv) (fst kv))
                items acc)).
Proof.
  induction items as [|[k v] items IH]; intros acc H; [exact H|].
  cbn [fold_left]. apply IH. apply (dict_set_NoDup _ String.eqb_eq). exact H.
Qed.

(** X8. [get_lang_code_dicts] raises [IndexError] exactly when one of the
    lines of the file, the last two left out, has fewer than three fields.
    Otherwise it returns two dictionaries such that every entry of
    [lang_to_code] is the first and the third field of one of these
    lines, commas and apostrophes removed, every entry [code -> lang] of
    [code_to_lang] has its converse [lang -> code] in [lang_to_code], and
    every code of [lang_to_code] is a key of [code_to_lang]. *)
Theorem get_lang_code_dicts_spec :
  forall data : string,
    let lines :=
      but_last_two (map split (split_on (Ascii.ascii_of_nat 10) data)) in
    if forallb (fun line => (2 <? length line)%nat) lines
    then exists lang_to_code code_to_lang,
           get_lang_code_dicts data = Ok (lang_to_code, code_to_lang)
           /\ NoDup (map fst lang_to_code)
           /\ NoDup (map fst code_to_lang)
           /\ Forall (fun kv =>
                        clean (fst kv) /\ clean (snd kv)
                        /\ exists line, In line lines
                             /\ fst kv = rgx_sub (nth 0 line EmptyString)
                             /\ snd kv = rgx_sub (nth 2 line EmptyString))
                     lang_to_code
           /\ (forall code lang,
                 dict_get String.eqb code_to_lang code = Some lang ->
                 dict_get String.eqb lang_to_code lang = Some code)
           /\ (forall lang code,
                 dict_get String.eqb lang_to_code lang = Some code ->
                 dict_mem String.eqb code_to_lang code = true)
    else get_lang_code_dicts data = Err IndexError.
Proof.
  intros data lines.
  pose proof (add_lines lines lines [] (incl_refl _) (NoDup_nil _)
                (Forall_nil _)) as H.
  unfold get_lang_code_dicts. fold lines.
  destruct (forallb _ lines).
  - destruct H as [d [Hrun [Hnd Hall]]]. rewrite Hrun. cbn [bind].
    exists d, (invert d). split; [reflexivity|].
    split; [exact Hnd|].
    split; [apply invert_NoDup; constructor|].
    split; [exact Hall|]. split.
    + intros code lang Hget. apply invert_sound in Hget.
      destruct Hget as [Hin|Hget]; [|discriminate].
      apply (dict_get_in _ String.eqb_eq _ _ _ Hnd Hin).
    + intros lang code Hget. apply invert_complete. right.
      exists lang. apply (dict_get_found _ _ String.eqb _ _ _ String.eqb_eq Hget).
  - rewrite H. reflexivity.
Qed.

End LangCodesProofs.
